(** * A shallow embedding of the http-service package

    The development follows the TypeScript sources of
    [packages/http-service]: [types.ts], [errors.ts], [utils.ts],
    [cache.ts], [throttling.ts], [csrf.ts], [http-service.ts] and the
    circuit breaker of [plugins.ts].

    Conventions of the embedding.
    - A JavaScript string is a Rocq [string] holding its UTF-8 bytes (so
      only well-formed strings, without lone surrogates, are modelled).
    - A JavaScript number that is an integer is written in [Z]: the
      integral values that an IEEE double holds exactly. Where the
      arithmetic of the code leaves them, as [baseDelay * 2 ** attempt]
      does, the result is a [JsNum], which has the fractions, the
      infinities and [NaN] of the doubles as well.
    - [Headers] is the class of the Fetch standard: [set] compares names
      without regard to case, strips the HTTP whitespace around a value,
      throws a [TypeError] on a name or value it does not accept, and the
      entries are kept in the order of their names. The wording of that
      [TypeError] is the runtime's and is a parameter of the service.
    - [Date.now()] is an explicit argument [now].
    - A function that may throw returns a [Completion].
    - Code that awaits the outside world (the transport, the token
      provider, the CSRF manager, interceptors) reads its outcomes from an
      environment and records what it did in a trace of events. A [fetch]
      event is a transport call of [executeRequest]; whatever the CSRF
      manager does to come by its token belongs to its own event.
    - Calls of the logger, which happen in development mode only, are left
      out: they change neither a result nor the state of the service. *)

From Stdlib Require Import ZArith String Ascii List Bool Lia DecimalString.
From stdpp Require Import base option gmap strings list.

Open Scope string_scope.
Open Scope list_scope.
Open Scope Z_scope.

(** ** JavaScript values and strings *)

Inductive JsValue : Type :=
| JsUndefined
| JsNull
| JsBoolean (b : bool)
| JsNumber (z : Z)
| JsString (s : string)
| JsObject (json : string).   (* an object or array, carried as its JSON text *)

(** Truthiness, as used by [if (x)], [x || d] and [x ? a : b]. *)
Definition truthy (v : JsValue) : bool :=
  match v with
  | JsUndefined | JsNull => false
  | JsBoolean b => b
  | JsNumber z => negb (z =? 0)
  | JsString s => negb (String.eqb s "")
  | JsObject _ => true
  end.

(** What arithmetic on such numbers can yield: an integer, a finite number
    that is not one (here always an odd numerator over a power of two), an
    infinity or [NaN]. The sign of a zero is not kept. *)
Inductive JsNum : Type :=
| Num (z : Z)
| Fraction (numerator : Z) (halvings : positive)   (* numerator / 2 ^ halvings *)
| Infinity
| NegInfinity
| NaN.

Coercion Num : Z >-> JsNum.

(** [x / 2 ** k] in lowest terms. *)
Fixpoint halve (k : nat) (x : Z) : JsNum :=
  match k with
  | O => Num x
  | S k' => if Z.even x then halve k' (x / 2) else Fraction x (Pos.of_nat k)
  end.

(** [x * 2 ** e] for integers [x] and [e]. [2 ** e] is [Infinity] from
    [e = 1024] on and [0] below [e = -1074]; in between it is a power of
    two, and scaling a double by it loses nothing until the product
    overflows. *)
Definition timesPowerOfTwo (x e : Z) : JsNum :=
  if 1024 <=? e then
    if x =? 0 then NaN else if 0 <? x then Infinity else NegInfinity
  else if 0 <=? e then
    let product := x * 2 ^ e in
    if 2 ^ 1024 <=? product then Infinity
    else if product <=? - 2 ^ 1024 then NegInfinity
    else Num product
  else if -1074 <=? e then halve (Z.to_nat (- e)) x
  else Num 0.

(** [Math.min(x, y)] for an integer [y]. *)
Definition Math_min (x : JsNum) (y : Z) : JsNum :=
  match x with
  | Num z => Num (Z.min z y)
  | Fraction n k => if y * 2 ^ Zpos k <? n then Num y else Fraction n k
  | Infinity => Num y
  | NegInfinity => NegInfinity
  | NaN => NaN
  end.

(** The decimal digits of an integer, with its sign. *)
Definition decimal (z : Z) : string := NilZero.string_of_int (Z.to_int z).

Definition digitCount (x : Z) : Z := Z.of_nat (String.length (decimal x)).

(** The distance from a double [x >= 2 ^ 53] to the next one. *)
Definition ulp (x : Z) : Z := 2 ^ (Z.log2 x - 52).

(** The double nearest to the integer [v] is [x], for a double
    [x >= 2 ^ 53]: [v] lies within half a step of [x], a tie going to the
    double whose last bit is 0. Below a power of two the steps are half as
    long. *)
Definition roundsTo (v x : Z) : bool :=
  let above := ulp x in
  let below := if x =? 2 ^ Z.log2 x then above / 2 else above in
  let even := Z.even (x / above) in
  if v <? x
  then (2 * (x - v) <? below) || even && (2 * (x - v) =? below)
  else (2 * (v - x) <? above) || even && (2 * (v - x) =? above).

(** The number of [k] significant digits that reads back as [x], the
    closest to [x] if there are two. *)
Definition shortestWith (k x : Z) : option Z :=
  let scale := 10 ^ (digitCount x - k) in
  let below := x / scale * scale in
  let above := below + scale in
  match roundsTo below x, roundsTo above x with
  | true, true =>
      Some (if x - below <? above - x then below
            else if above - x <? x - below then above
            else if Z.even (below / scale) then below else above)
  | true, false => Some below
  | false, true => Some above
  | false, false => None
  end.

(** The number of fewest significant digits that reads back as [x]. *)
Fixpoint shortest (fuel : nat) (k x : Z) : Z :=
  match fuel with
  | O => x
  | S fuel' =>
      match shortestWith k x with
      | Some v => v
      | None => shortest fuel' (k + 1) x
      end
  end.

Fixpoint dropTrailingZeros (s : string) : string :=
  match s with
  | EmptyString => ""
  | String c rest =>
      let rest' := dropTrailingZeros rest in
      if Ascii.eqb c "0" && String.eqb rest' "" then "" else String c rest'
  end.

(** [String(n)], and [n] in a template literal, for an integral number:
    the fewest digits that read back as [n], padded with zeros up to 21
    digits and in exponent form beyond. Up to [2 ^ 53] these are the
    digits of [n]. *)
Definition String_of_number (z : Z) : string :=
  let x := Z.abs z in
  let sign := if z <? 0 then "-" else "" in
  let v := if x <=? 2 ^ 53 then x else shortest 17 1 x in
  let n := digitCount v in
  if n <=? 21 then sign +:+ decimal v
  else
    match dropTrailingZeros (decimal v) with
    | String d "" => sign +:+ String d "e+" +:+ decimal (n - 1)
    | String d rest =>
        sign +:+ String d "." +:+ rest +:+ "e+" +:+ decimal (n - 1)
    | EmptyString => sign +:+ decimal v
    end.

(** [haystack.includes(needle)] *)
Fixpoint includes (needle haystack : string) : bool :=
  if String.prefix needle haystack then true
  else match haystack with
       | EmptyString => false
       | String _ rest => includes needle rest
       end.

(** [s.startsWith(p)] *)
Definition startsWith (p s : string) : bool := String.prefix p s.

(** Every character of a string passes a test. *)
Fixpoint stringForall (test : ascii -> bool) (s : string) : bool :=
  match s with
  | EmptyString => true
  | String c rest => test c && stringForall test rest
  end.

(** A thrown value or a returned one. *)
Inductive Completion (E A : Type) : Type :=
| Return (a : A)
| Throw (e : E).
Arguments Return {E A} a.
Arguments Throw {E A} e.

(** ** types.ts *)

Definition HeadersInit : Type := list (string * string).

(** The [params] record: its entries in [Object.entries] order. A value is
    typed [string | number | boolean]; the code also tests for [null] and
    [undefined]. *)
Inductive ParamValue : Type :=
| PUndefined
| PNull
| PString (s : string)
| PNumber (z : Z)
| PBoolean (b : bool).

Record AbortSignal : Type := { aborted : bool }.

Record RequestConfig : Type := {
  cfg_method : option string;
  cfg_headers : option HeadersInit;
  cfg_body : JsValue;
  cfg_signal : option AbortSignal;
  cfg_url : option string;
  cfg_timeout : option Z;
  cfg_retries : option Z;
  cfg_retryDelay : option Z;
  cfg_skipAuth : bool;
  cfg_skipCache : bool;
  cfg_skipCsrf : bool;
  cfg_cacheTimeout : option Z;
  cfg_params : option (list (string * ParamValue));
  cfg_data : JsValue
}.

(** [config = {}] *)
Definition emptyRequestConfig : RequestConfig :=
  {| cfg_method := None; cfg_headers := None; cfg_body := JsUndefined;
     cfg_signal := None; cfg_url := None; cfg_timeout := None;
     cfg_retries := None; cfg_retryDelay := None; cfg_skipAuth := false;
     cfg_skipCache := false; cfg_skipCsrf := false; cfg_cacheTimeout := None;
     cfg_params := None; cfg_data := JsUndefined |}.

(** The [Headers] collection, as its iteration shows it: names in lower
    case, one value per name, in the order of the names. *)
Definition Headers : Type := list (string * string).

Record HttpResponse : Type := {
  resp_data : JsValue;
  resp_status : Z;
  resp_statusText : string;
  resp_headers : Headers;
  resp_config : RequestConfig
}.

(** What the transport resolves with: a [Response] whose body has been read. *)
Record Response : Type := {
  raw_ok : bool;
  raw_status : Z;
  raw_statusText : string;
  raw_headers : Headers;
  raw_body : JsValue
}.

(** ** errors.ts *)

Record HttpServiceError : Type := {
  err_name : string;
  err_message : string;
  err_status : option Z;
  err_statusText : option string;
  err_response : option Response;
  err_config : option RequestConfig;
  isNetworkError : bool;
  isTimeoutError : bool;
  isAbortError : bool
}.

(** The [options] argument of the [HttpServiceError] constructor. *)
Record ErrorOptions : Type := {
  opt_status : option Z;
  opt_statusText : option string;
  opt_response : option Response;
  opt_config : option RequestConfig;
  opt_isNetworkError : option bool;
  opt_isTimeoutError : option bool;
  opt_isAbortError : option bool
}.

Definition noOptions : ErrorOptions :=
  {| opt_status := None; opt_statusText := None; opt_response := None;
     opt_config := None; opt_isNetworkError := None;
     opt_isTimeoutError := None; opt_isAbortError := None |}.

(** [new HttpServiceError(message, options)] *)
Definition new_HttpServiceError (message : string) (options : ErrorOptions)
  : HttpServiceError :=
  {| err_name := "HttpServiceError";
     err_message := message;
     err_status := opt_status options;
     err_statusText := opt_statusText options;
     err_response := opt_response options;
     err_config := opt_config options;
     isNetworkError := default false (opt_isNetworkError options);
     isTimeoutError := default false (opt_isTimeoutError options);
     isAbortError := default false (opt_isAbortError options) |}.

Definition set_name (n : string) (e : HttpServiceError) : HttpServiceError :=
  {| err_name := n;
     err_message := err_message e;
     err_status := err_status e;
     err_statusText := err_statusText e;
     err_response := err_response e;
     err_config := err_config e;
     isNetworkError := isNetworkError e;
     isTimeoutError := isTimeoutError e;
     isAbortError := isAbortError e |}.

Definition withStatus (s : Z) : ErrorOptions :=
  {| opt_status := Some s; opt_statusText := None; opt_response := None;
     opt_config := None; opt_isNetworkError := None;
     opt_isTimeoutError := None; opt_isAbortError := None |}.

Definition new_NetworkError (message : string) : HttpServiceError :=
  set_name "NetworkError"
    (new_HttpServiceError message
       {| opt_status := None; opt_statusText := None; opt_response := None;
          opt_config := None; opt_isNetworkError := Some true;
          opt_isTimeoutError := None; opt_isAbortError := None |}).

Definition new_TimeoutError (message : string) : HttpServiceError :=
  set_name "TimeoutError"
    (new_HttpServiceError message
       {| opt_status := None; opt_statusText := None; opt_response := None;
          opt_config := None; opt_isNetworkError := None;
          opt_isTimeoutError := Some true; opt_isAbortError := None |}).

Definition new_AbortError (message : string) : HttpServiceError :=
  set_name "AbortError"
    (new_HttpServiceError message
       {| opt_status := None; opt_statusText := None; opt_response := None;
          opt_config := None; opt_isNetworkError := None;
          opt_isTimeoutError := None; opt_isAbortError := Some true |}).

Definition new_AuthenticationError (message : string) (status : Z)
  : HttpServiceError :=
  set_name "AuthenticationError" (new_HttpServiceError message (withStatus status)).

Definition new_AuthorizationError (message : string) (status : Z)
  : HttpServiceError :=
  set_name "AuthorizationError" (new_HttpServiceError message (withStatus status)).

Definition new_ValidationError (message : string) (status : Z)
  : HttpServiceError :=
  set_name "ValidationError" (new_HttpServiceError message (withStatus status)).

Definition new_ServerError (message : string) (status : Z) : HttpServiceError :=
  set_name "ServerError" (new_HttpServiceError message (withStatus status)).

(** [createHttpError(status, statusText, response, config)]: the
    [switch (true)] takes the first case that holds. *)
Definition createHttpError (status : Z) (statusText : string)
           (response : option Response) (config : option RequestConfig)
  : HttpServiceError :=
  let message := "HTTP " +:+ String_of_number status +:+ ": " +:+ statusText in
  let generic :=
    new_HttpServiceError message
      {| opt_status := Some status; opt_statusText := Some statusText;
         opt_response := response; opt_config := config;
         opt_isNetworkError := None; opt_isTimeoutError := None;
         opt_isAbortError := None |} in
  if status =? 400 then new_ValidationError message status
  else if status =? 401 then new_AuthenticationError message status
  else if status =? 403 then new_AuthorizationError message status
  else if (400 <=? status) && (status <? 500) then generic
  else if 500 <=? status then new_ServerError message status
  else generic.

(** A status of three digits as the message shows it, digit by digit. *)
Definition digit (d : Z) : ascii := ascii_of_nat (48 + Z.to_nat d).

Definition threeDigits (status : Z) : string :=
  String (digit (status / 100))
    (String (digit (status / 10 mod 10)) (String (digit (status mod 10)) "")).

(** ** utils.ts *)

(** [String(value)] for a parameter value. *)
Definition String_ (v : ParamValue) : string :=
  match v with
  | PUndefined => "undefined"
  | PNull => "null"
  | PString s => s
  | PNumber z => String_of_number z
  | PBoolean true => "true"
  | PBoolean false => "false"
  end.

(** The characters [encodeURIComponent] leaves alone:
    [A-Z a-z 0-9 - _ . ! ~ * ' ( )]. *)
Definition uriUnreserved (c : ascii) : bool :=
  let n := N_of_ascii c in
  ((65 <=? n) && (n <=? 90) || (97 <=? n) && (n <=? 122)
   || (48 <=? n) && (n <=? 57)
   || (n =? 45) || (n =? 95) || (n =? 46) || (n =? 33) || (n =? 126)
   || (n =? 42) || (n =? 39) || (n =? 40) || (n =? 41))%N.

Definition hexDigit (n : N) : ascii :=
  if (n <? 10)%N then ascii_of_N (48 + n) else ascii_of_N (55 + n).

(** [%XX] with upper-case hexadecimal digits. *)
Definition percentEncode (c : ascii) : string :=
  let n := N_of_ascii c in
  String "%" (String (hexDigit (n / 16)) (String (hexDigit (n mod 16)) "")).

(** [encodeURIComponent(s)] on the UTF-8 bytes of [s]. *)
Fixpoint encodeURIComponent (s : string) : string :=
  match s with
  | EmptyString => ""
  | String c rest =>
      (if uriUnreserved c then String c "" else percentEncode c)
      +:+ encodeURIComponent rest
  end.

(** [parts.join(sep)] *)
Fixpoint join (sep : string) (parts : list string) : string :=
  match parts with
  | [] => ""
  | [p] => p
  | p :: rest => p +:+ sep +:+ join sep rest
  end.

(** [buildURL(url, params)]: the loop pushes one [key=value] string per
    entry whose value is neither [null] nor [undefined]. *)
Definition buildURL (url : string) (params : option (list (string * ParamValue)))
  : string :=
  match params with
  | None => url
  | Some entries =>
      if (length entries =? 0)%nat then url
      else
        let queryParams :=
          fold_left
            (fun (queryParams : list string) (entry : string * ParamValue) =>
               let '(key, value) := entry in
               match value with
               | PNull | PUndefined => queryParams
               | _ => queryParams ++
                        [encodeURIComponent key +:+ "="
                         +:+ encodeURIComponent (String_ value)]
               end)
            entries [] in
        if (length queryParams =? 0)%nat then url
        else
          let separator := if includes "?" url then "&" else "?" in
          url +:+ separator +:+ join "&" queryParams
  end.

(** [calculateBackoff(attempt, baseDelay = 1000)] *)
Definition calculateBackoff (attempt : Z) (baseDelay : option Z) : JsNum :=
  let baseDelay := default 1000 baseDelay in
  Math_min (timesPowerOfTwo baseDelay attempt) 30000.

(** The query string as the specification words it: drop the entries whose
    value is [null] or [undefined], encode key and value of each remaining
    entry, join with [&], append after [?] or [&]. *)
Definition present (entry : string * ParamValue) : bool :=
  match snd entry with
  | PNull | PUndefined => false
  | _ => true
  end.

Definition encodePair (entry : string * ParamValue) : string :=
  encodeURIComponent (fst entry) +:+ "=" +:+ encodeURIComponent (String_ (snd entry)).


(** ** throttling.ts *)

(** [x || d] on an optional number. *)
Definition orDefault (x : option Z) (d : Z) : Z :=
  match x with
  | Some v => if v =? 0 then d else v
  | None => d
  end.

Record QueueConfig : Type := {
  qc_maxConcurrent : option Z;
  qc_maxQueueSize : option Z;
  qc_requestsPerSecond : option Z;
  qc_priorityFn : option (RequestConfig -> Z)
}.

(** [Required<QueueConfig>] *)
Record RequiredQueueConfig : Type := {
  maxConcurrent : Z;
  maxQueueSize : Z;
  requestsPerSecond : Z;
  priorityFn : RequestConfig -> Z
}.

(** A queued request; [qr_promise] names the promise whose [resolve] and
    [reject] callbacks the entry holds. *)
Record QueuedRequest : Type := {
  qr_config : RequestConfig;
  qr_promise : nat;
  qr_priority : Z;
  qr_timestamp : Z
}.

Record RequestQueue : Type := {
  queue : list QueuedRequest;
  activeRequests : Z;
  rq_config : RequiredQueueConfig;
  lastRequestTime : Z;
  rq_promises : nat            (* promises created so far *)
}.

(** [new RequestQueue(config)] *)
Definition new_RequestQueue (config : QueueConfig) : RequestQueue :=
  {| queue := [];
     activeRequests := 0;
     rq_config :=
       {| maxConcurrent := orDefault (qc_maxConcurrent config) 6;
          maxQueueSize := orDefault (qc_maxQueueSize config) 100;
          requestsPerSecond := orDefault (qc_requestsPerSecond config) 10;
          priorityFn := default (fun _ => 0) (qc_priorityFn config) |};
     lastRequestTime := 0;
     rq_promises := 0%nat |}.

(** [queue.sort((a, b) => b.priority - a.priority)]: a stable sort, higher
    priority first. *)
Fixpoint insertByPriority (x : QueuedRequest) (l : list QueuedRequest)
  : list QueuedRequest :=
  match l with
  | [] => [x]
  | y :: l' =>
      if qr_priority x <? qr_priority y then y :: insertByPriority x l'
      else x :: y :: l'
  end.

Definition sortQueue (l : list QueuedRequest) : list QueuedRequest :=
  foldr insertByPriority [] l.

(** What the synchronous part of [processQueue] decides. *)
Inductive QueueAction : Type :=
| Idle
| Rescheduled (delayNumerator delayDenominator : Z)
| Started (request : QueuedRequest).

(** [timeSinceLastRequest < 1000 / requestsPerSecond], cross-multiplied
    ([requestsPerSecond] is never 0 after the constructor). *)
Definition beforeMinInterval (timeSinceLastRequest rps : Z) : bool :=
  if 0 <? rps then timeSinceLastRequest * rps <? 1000
  else 1000 <? timeSinceLastRequest * rps.

(** [processQueue(executor)] up to its first [await]. *)
Definition processQueue (now : Z) (q : RequestQueue)
  : RequestQueue * QueueAction :=
  if (maxConcurrent (rq_config q) <=? activeRequests q)
     || (length (queue q) =? 0)%nat
  then (q, Idle)
  else
    let timeSinceLastRequest := now - lastRequestTime q in
    let rps := requestsPerSecond (rq_config q) in
    if beforeMinInterval timeSinceLastRequest rps
    then (q, Rescheduled (1000 - timeSinceLastRequest * rps) rps)
    else
      match queue q with
      | [] => (q, Idle)
      | queuedRequest :: rest =>
          ({| queue := rest;
              activeRequests := activeRequests q + 1;
              rq_config := rq_config q;
              lastRequestTime := now;
              rq_promises := rq_promises q |},
           Started queuedRequest)
      end.

(** [enqueue(config, executor)]: the promise it returns is rejected at once
    ([Throw]) or is the new pending promise ([Return]). *)
Definition enqueue (now : Z) (config : RequestConfig) (q : RequestQueue)
  : Completion string (nat * QueueAction) * RequestQueue :=
  if maxQueueSize (rq_config q) <=? Z.of_nat (length (queue q))
  then (Throw "Request queue is full", q)
  else
    let queuedRequest :=
      {| qr_config := config;
         qr_promise := rq_promises q;
         qr_priority := priorityFn (rq_config q) config;
         qr_timestamp := now |} in
    let pushed :=
      {| queue := sortQueue (queue q ++ [queuedRequest]);
         activeRequests := activeRequests q;
         rq_config := rq_config q;
         lastRequestTime := lastRequestTime q;
         rq_promises := S (rq_promises q) |} in
    let '(q', action) := processQueue now pushed in
    (Return (rq_promises q, action), q').

(** [clear()]: every queued request is rejected and the queue emptied;
    the requests that are executing are not touched. *)
Definition clearQueue (q : RequestQueue) : list nat * RequestQueue :=
  (List.map qr_promise (queue q),
   {| queue := [];
      activeRequests := activeRequests q;
      rq_config := rq_config q;
      lastRequestTime := lastRequestTime q;
      rq_promises := rq_promises q |}).

(** The [finally] block of [processQueue], run when the executor of a
    started request has settled: [this.activeRequests--]. The call of
    [processQueue] it schedules with [setImmediate] is a timer. *)
Definition finishRequest (q : RequestQueue) : RequestQueue :=
  {| queue := queue q;
     activeRequests := activeRequests q - 1;
     rq_config := rq_config q;
     lastRequestTime := lastRequestTime q;
     rq_promises := rq_promises q |}.

(** The queue is in priority order, higher first. *)
Fixpoint priorityOrdered (l : list QueuedRequest) : bool :=
  match l with
  | [] => true
  | x :: rest =>
      forallb (fun y => qr_priority y <=? qr_priority x) rest
      && priorityOrdered rest
  end.

(** *** A queue in use

    A queue together with the requests it has started and whose executor
    has not settled yet, and the clock. *)
Record Throttle : Type := {
  tq : RequestQueue;
  executing : list QueuedRequest;
  clock : Z
}.

Inductive QueueEvent : Type :=
| QEnqueue (config : RequestConfig)  (* a caller calls [enqueue] *)
| QTimer                 (* a scheduled call of [processQueue] runs *)
| QSettled (i : nat)     (* the executor of the i-th executing request settles *)
| QClear                 (* a caller calls [clear] *)
| QElapse (ms : Z).      (* time passes *)

Definition withStarted (action : QueueAction) (l : list QueuedRequest)
  : list QueuedRequest :=
  match action with
  | Started request => l ++ [request]
  | _ => l
  end.

Definition queueStep (e : QueueEvent) (s : Throttle) : option Throttle :=
  match e with
  | QEnqueue config =>
      match enqueue (clock s) config (tq s) with
      | (Return (_, action), q') =>
          Some {| tq := q'; executing := withStarted action (executing s);
                  clock := clock s |}
      | (Throw _, q') =>
          Some {| tq := q'; executing := executing s; clock := clock s |}
      end
  | QTimer =>
      let '(q', action) := processQueue (clock s) (tq s) in
      Some {| tq := q'; executing := withStarted action (executing s);
              clock := clock s |}
  | QSettled i =>
      match nth_error (executing s) i with
      | Some _ =>
          Some {| tq := finishRequest (tq s);
                  executing := firstn i (executing s)
                               ++ skipn (S i) (executing s);
                  clock := clock s |}
      | None => None
      end
  | QClear =>
      Some {| tq := snd (clearQueue (tq s)); executing := executing s;
              clock := clock s |}
  | QElapse ms =>
      if 0 <=? ms
      then Some {| tq := tq s; executing := executing s; clock := clock s + ms |}
      else None
  end.

Fixpoint queueRun (events : list QueueEvent) (s : Throttle) : option Throttle :=
  match events with
  | [] => Some s
  | e :: rest =>
      match queueStep e s with
      | Some s' => queueRun rest s'
      | None => None
      end
  end.

(** What holds of a queue built from [built], whatever is done with it. *)
Definition queueInvariant (built : QueueConfig) (s : Throttle) : Prop :=
  rq_config (tq s) = rq_config (new_RequestQueue built)
  /\ priorityOrdered (queue (tq s)) = true
  /\ Z.of_nat (length (queue (tq s)))
     <= Z.max 0 (orDefault (qc_maxQueueSize built) 100)
  /\ activeRequests (tq s) = Z.of_nat (length (executing s))
  /\ activeRequests (tq s) <= Z.max 0 (orDefault (qc_maxConcurrent built) 6).

(** [new RequestQueue(built)] at time [t0], and what can become of it. *)
Definition newThrottle (built : QueueConfig) (t0 : Z) : Throttle :=
  {| tq := new_RequestQueue built; executing := []; clock := t0 |}.

Definition queueReachable (built : QueueConfig) (t0 : Z) (s : Throttle) : Prop :=
  exists events : list QueueEvent, queueRun events (newThrottle built t0) = Some s.

(** ** cache.ts *)

Record CacheEntry : Type := {
  ce_data : JsValue;
  ce_timestamp : Z;
  ce_ttl : Z;
  ce_lastAccessed : option Z
}.

(** A JavaScript [Map] with string keys: its entries in insertion order. *)
Definition MapGet {V : Type} (key : string) (m : list (string * V)) : option V :=
  snd <$> List.find (fun kv => String.eqb (fst kv) key) m.

Definition MapHas {V : Type} (key : string) (m : list (string * V)) : bool :=
  match MapGet key m with Some _ => true | None => false end.

Definition MapDelete {V : Type} (key : string) (m : list (string * V))
  : list (string * V) :=
  List.filter (fun kv => negb (String.eqb (fst kv) key)) m.

(** [m.set(key, v)]: an existing key keeps its place, a new one goes last. *)
Fixpoint MapSet {V : Type} (key : string) (v : V) (m : list (string * V))
  : list (string * V) :=
  match m with
  | [] => [(key, v)]
  | (k, v') :: m' =>
      if String.eqb k key then (k, v) :: m' else (k, v') :: MapSet key v m'
  end.

(** [x || d] on an optional string. *)
Definition orDefaultString (x : option string) (d : string) : string :=
  match x with
  | Some v => if String.eqb v "" then d else v
  | None => d
  end.

Definition doubleQuote : string := String (ascii_of_N 34) "".
Definition backslash : string := String (ascii_of_N 92) "".

(** One character of a JSON string literal. *)
Definition jsonEscape (c : ascii) : string :=
  let n := N_of_ascii c in
  if (n =? 34)%N then backslash +:+ doubleQuote
  else if (n =? 92)%N then backslash +:+ backslash
  else if (n =? 8)%N then backslash +:+ "b"
  else if (n =? 12)%N then backslash +:+ "f"
  else if (n =? 10)%N then backslash +:+ "n"
  else if (n =? 13)%N then backslash +:+ "r"
  else if (n =? 9)%N then backslash +:+ "t"
  else if (n <? 32)%N
       then backslash +:+ "u00"
            +:+ String (ascii_of_N (48 + n / 16))
                  (String (if (n mod 16 <? 10)%N then ascii_of_N (48 + n mod 16)
                           else ascii_of_N (87 + n mod 16)) "")
  else String c "".

Fixpoint jsonEscapeAll (s : string) : string :=
  match s with
  | EmptyString => ""
  | String c rest => jsonEscape c +:+ jsonEscapeAll rest
  end.

(** [JSON.stringify(v)] inside a template literal. *)
Definition JSON_stringify (v : JsValue) : string :=
  match v with
  | JsUndefined => "undefined"
  | JsNull => "null"
  | JsBoolean true => "true"
  | JsBoolean false => "false"
  | JsNumber z => String_of_number z
  | JsString s => doubleQuote +:+ jsonEscapeAll s +:+ doubleQuote
  | JsObject json => json
  end.

Module HttpCache.

Record t : Type := {
  cache : list (string * CacheEntry);
  defaultTTL : Z;
  maxSize : Z
}.

(** [new HttpCache(options)] *)
Definition new (defaultTTL' maxSize' : option Z) : t :=
  {| cache := [];
     defaultTTL := orDefault defaultTTL' (5 * 60 * 1000);
     maxSize := orDefault maxSize' 100 |}.

Definition withCache (c : t) (m : list (string * CacheEntry)) : t :=
  {| cache := m; defaultTTL := defaultTTL c; maxSize := maxSize c |}.

(** [generateKeyLegacy(url, options)] *)
Definition generateKeyLegacy (url : string) (options : RequestConfig) : string :=
  let method := orDefaultString (cfg_method options) "GET" in
  let body := if truthy (cfg_body options)
              then JSON_stringify (cfg_body options) else "" in
  method +:+ ":" +:+ url +:+ ":" +:+ body.

(** [get(keyOrUrl, options)]; a miss is [undefined]. *)
Definition get (now : Z) (keyOrUrl : string) (options : option RequestConfig)
           (c : t) : JsValue * t :=
  let key := match options with
             | Some o => generateKeyLegacy keyOrUrl o
             | None => keyOrUrl
             end in
  match MapGet key (cache c) with
  | None => (JsUndefined, c)
  | Some entry =>
      if ce_ttl entry <? now - ce_timestamp entry
      then (JsUndefined, withCache c (MapDelete key (cache c)))
      else
        let entry' := {| ce_data := ce_data entry;
                         ce_timestamp := ce_timestamp entry;
                         ce_ttl := ce_ttl entry;
                         ce_lastAccessed := Some now |} in
        (ce_data entry,
         withCache c (MapSet key entry' (MapDelete key (cache c))))
  end.

(** [evictLRU()]: the first entry with the least access time goes; the
    running minimum starts at [+Infinity] ([None]). *)
Definition evictLRU (c : t) : t :=
  let '(oldestKey, _) :=
    fold_left
      (fun (acc : option string * option Z) (kv : string * CacheEntry) =>
         let '(oldestKey, oldestTime) := acc in
         let entry := snd kv in
         let accessTime :=
           match ce_lastAccessed entry with
           | Some la => if la =? 0 then ce_timestamp entry else la
           | None => ce_timestamp entry
           end in
         match oldestTime with
         | None => (Some (fst kv), Some accessTime)
         | Some t0 => if accessTime <? t0
                      then (Some (fst kv), Some accessTime) else acc
         end)
      (cache c) (None, None) in
  match oldestKey with
  | Some k => if String.eqb k "" then c else withCache c (MapDelete k (cache c))
  | None => c
  end.

(** The second and third arguments of [set] after [data]. *)
Inductive OptionsOrTtl : Type :=
| NoOptions
| Ttl (ttl : Z)
| Options (options : RequestConfig).

(** [set(keyOrUrl, data, optionsOrTtl, ttl = this.defaultTTL)] *)
Definition set (now : Z) (keyOrUrl : string) (data : JsValue)
           (optionsOrTtl : OptionsOrTtl) (ttl : option Z) (c : t) : t :=
  let ttl := default (defaultTTL c) ttl in
  let '(key, finalTtl) :=
    match optionsOrTtl with
    | NoOptions => (keyOrUrl, defaultTTL c)
    | Ttl n => (keyOrUrl, if n =? 0 then defaultTTL c else n)
    | Options o => (generateKeyLegacy keyOrUrl o, ttl)
    end in
  let c1 := if (maxSize c <=? Z.of_nat (length (cache c)))
               && negb (MapHas key (cache c))
            then evictLRU c else c in
  withCache c1
    (MapSet key {| ce_data := data; ce_timestamp := now; ce_ttl := finalTtl;
                   ce_lastAccessed := Some now |} (cache c1)).

(** [now - entry.timestamp > entry.ttl] *)
Definition expired (now : Z) (entry : CacheEntry) : bool :=
  ce_ttl entry <? now - ce_timestamp entry.

(** [has(keyOrUrl, options)] *)
Definition has (now : Z) (keyOrUrl : string) (options : option RequestConfig)
           (c : t) : bool * t :=
  let key := match options with
             | Some o => generateKeyLegacy keyOrUrl o
             | None => keyOrUrl
             end in
  match MapGet key (cache c) with
  | None => (false, c)
  | Some entry =>
      if ce_ttl entry <? now - ce_timestamp entry
      then (false, withCache c (MapDelete key (cache c)))
      else (true, c)
  end.

(** [delete(keyOrUrl, options)]: whether an entry was removed. *)
Definition delete (keyOrUrl : string) (options : option RequestConfig) (c : t)
  : bool * t :=
  let key := match options with
             | Some o => generateKeyLegacy keyOrUrl o
             | None => keyOrUrl
             end in
  (MapHas key (cache c), withCache c (MapDelete key (cache c))).

(** [clear()] *)
Definition clear (c : t) : t := withCache c [].

(** [cleanup()]: the loop visits the entries and deletes the stale ones. *)
Definition cleanup (now : Z) (c : t) : t :=
  withCache c
    (fold_left
       (fun (m : list (string * CacheEntry)) (kv : string * CacheEntry) =>
          if ce_ttl (snd kv) <? now - ce_timestamp (snd kv)
          then MapDelete (fst kv) m else m)
       (cache c) (cache c)).

(** [size] *)
Definition size (c : t) : Z := Z.of_nat (length (cache c)).

(** [entry.lastAccessed || entry.timestamp], the time [evictLRU] compares. *)
Definition accessTime (entry : CacheEntry) : Z :=
  match ce_lastAccessed entry with
  | Some la => if la =? 0 then ce_timestamp entry else la
  | None => ce_timestamp entry
  end.

(** The key and the time to live that [set] settles on. *)
Definition setKey (keyOrUrl : string) (optionsOrTtl : OptionsOrTtl) : string :=
  match optionsOrTtl with
  | Options o => generateKeyLegacy keyOrUrl o
  | _ => keyOrUrl
  end.

Definition setTtl (optionsOrTtl : OptionsOrTtl) (ttl : option Z) (c : t) : Z :=
  match optionsOrTtl with
  | NoOptions => defaultTTL c
  | Ttl n => if n =? 0 then defaultTTL c else n
  | Options _ => default (defaultTTL c) ttl
  end.

(** What the cache of a service keeps: keys are unique and not empty, and
    there are at most [maxSize] entries. *)
Definition bounded (c : t) : Prop :=
  List.NoDup (List.map fst (cache c))
  /\ List.Forall (fun key => key <> "") (List.map fst (cache c))
  /\ Z.of_nat (length (cache c)) <= maxSize c.

End HttpCache.

(** ** http-service.ts: values thrown, events, the environment *)

(** What a [catch] clause may receive. *)
Inductive Exn : Type :=
| ExnHttpServiceError (e : HttpServiceError)
| ExnTypeError (message : string)
| ExnDOMException (name message : string)
| ExnError (message : string)          (* any other [Error] *)
| ExnValue (v : JsValue).              (* a thrown value that is no [Error] *)

(** [error instanceof Error] *)
Definition instanceofError (error : Exn) : bool :=
  match error with
  | ExnValue _ => false
  | _ => true
  end.

(** [error.message] *)
Definition messageOf (error : Exn) : string :=
  match error with
  | ExnHttpServiceError e => err_message e
  | ExnTypeError m => m
  | ExnDOMException _ m => m
  | ExnError m => m
  | ExnValue _ => ""
  end.

(** What the service does to the outside world, in order. *)
Inductive Event : Type :=
| EvRequestInterceptor (i : nat) (config : RequestConfig)
| EvResponseInterceptor (i : nat) (response : HttpResponse)
| EvErrorInterceptor (i : nat) (error : HttpServiceError)
| EvGetToken
| EvRefreshToken
| EvOnTokenRefresh (token : string)
| EvOnAuthError (error : Exn)
| EvAddCsrfToken (headers : Headers)
| EvFetch (url : string) (headers : Headers)
| EvSleep (ms : JsNum).

Definition isFetch (ev : Event) : bool :=
  match ev with EvFetch _ _ => true | _ => false end.
Definition isGetToken (ev : Event) : bool :=
  match ev with EvGetToken => true | _ => false end.
Definition isAddCsrfToken (ev : Event) : bool :=
  match ev with EvAddCsrfToken _ => true | _ => false end.
Definition isRefreshToken (ev : Event) : bool :=
  match ev with EvRefreshToken => true | _ => false end.
Definition isSleep (ev : Event) : bool :=
  match ev with EvSleep _ => true | _ => false end.
Definition isErrorInterceptor (ev : Event) : bool :=
  match ev with EvErrorInterceptor _ _ => true | _ => false end.

Definition Trace : Type := list Event.

(** How many events of a kind a trace holds. *)
Definition occurrences (kind : Event -> bool) (w : Trace) : nat :=
  length (List.filter kind w).

(** A computation over a state [S] returns or throws; [None] is a recursion
    that ran out of fuel. *)
Definition M (S A : Type) : Type := S -> option (Completion Exn A * S).

Definition ret {S A : Type} (a : A) : M S A := fun w => Some (Return a, w).

Definition throw {S A : Type} (e : Exn) : M S A := fun w => Some (Throw e, w).

Definition outOfFuel {S A : Type} : M S A := fun _ => None.

Definition bind {S A B : Type} (m : M S A) (k : A -> M S B) : M S B :=
  fun w =>
    match m w with
    | None => None
    | Some (Return a, w') => k a w'
    | Some (Throw e, w') => Some (Throw e, w')
    end.

(** [try { m } catch (error) { handler error }] *)
Definition tryCatch {S A : Type} (m : M S A) (handler : Exn -> M S A) : M S A :=
  fun w =>
    match m w with
    | None => None
    | Some (Return a, w') => Some (Return a, w')
    | Some (Throw e, w') => handler e w'
    end.

(** [try { m } finally { cleanup }], for a [cleanup] that does not throw. *)
Definition tryFinally {S A : Type} (m : M S A) (cleanup : S -> S) : M S A :=
  fun w =>
    match m w with
    | None => None
    | Some (c, w') => Some (c, cleanup w')
    end.

(** The outcome of a call into caller-supplied code. *)
Definition await {S A : Type} (c : Completion Exn A) : M S A :=
  fun w => Some (c, w).

(** Code that only talks to the outside world runs on the trace. *)
Definition IO (A : Type) : Type := M Trace A.

Definition emit (ev : Event) : IO unit := fun w => Some (Return tt, w ++ [ev]).

(** The number of earlier events of a kind: the index of the next call. *)
Definition earlier (kind : Event -> bool) : IO nat :=
  fun w => Some (Return (occurrences kind w), w).

Notation "'let*' x ':=' m 'in' k" := (bind m (fun x => k))
  (at level 10, x name, m at level 100, k at level 200).
Notation "m1 ';;' m2" := (bind m1 (fun _ => m2))
  (at level 100, m2 at level 200, right associativity).

(** What [fetch] does: it resolves with a response, or rejects; when it
    rejects, [timeoutTriggered] tells whether the timeout timer had fired. *)
Inductive FetchOutcome : Type :=
| FetchResolves (response : Response)
| FetchRejects (error : Exn) (timeoutTriggered : bool).

Definition RequestInterceptor : Type := RequestConfig -> Completion Exn RequestConfig.
Definition ResponseInterceptor : Type := HttpResponse -> Completion Exn HttpResponse.
Definition ErrorInterceptor : Type :=
  HttpServiceError -> Completion Exn HttpServiceError.

(** [AuthConfig]: the n-th call of [getToken] or [refreshToken] has the
    outcome the function gives for [n]. *)
Record AuthConfig : Type := {
  getToken : option (nat -> Completion Exn string);
  refreshToken : option (nat -> Completion Exn string);
  onTokenRefresh : option (string -> Completion Exn unit);
  onAuthError : option (Exn -> Completion Exn unit)
}.

(** The CSRF manager of the service, by the two methods the service
    calls. [needsProtection] reads the method and the manager's fixed
    configuration. [addTokenToHeaders] is awaited: it asks the manager's
    [getToken], which reads its cache, the clock and whatever the configured
    token source is (the default one reads the document and requests
    ['/api/csrf-token'] itself), and then sets a header, which can throw;
    the [n]-th call, given the headers, has the outcome the function gives
    for [n]: the headers as the call leaves them, or what it throws. *)
Record CsrfManager : Type := {
  needsProtection : string -> bool;
  addTokenToHeaders : nat -> Headers -> Completion Exn Headers
}.

Record HttpServiceConfig : Type := {
  hc_baseURL : option string;
  hc_timeout : option Z;
  hc_headers : option HeadersInit;
  hc_retries : option Z;
  hc_retryDelay : option Z;
  hc_enableCache : option bool;
  hc_cacheTimeout : option Z;
  hc_enableDeduplication : option bool;
  hc_csrf : option CsrfManager      (* present when [csrf.enabled] *)
}.

(** [Required<HttpServiceConfig>] *)
Record RequiredHttpServiceConfig : Type := {
  baseURL : string;
  timeout : Z;
  headers : HeadersInit;
  retries : Z;
  retryDelay : Z;
  enableCache : bool;
  cacheTimeout : Z;
  enableDeduplication : bool
}.

(** The fields of an [HttpService] that a request reads, and what the
    service finds in the runtime it is loaded in: [headersTypeError name
    value] is the message of the [TypeError] with which the runtime's
    [headers.set(name, value)] refuses a name or a value. *)
Record HttpService : Type := {
  config : RequiredHttpServiceConfig;
  requestInterceptors : list RequestInterceptor;
  responseInterceptors : list ResponseInterceptor;
  errorInterceptors : list ErrorInterceptor;
  authConfig : option AuthConfig;
  csrfManager : option CsrfManager;
  headersTypeError : string -> string -> string
}.

(** The fields a request updates; [promises] counts the promises that
    [makeRequest] has returned, which names them. *)
Record ServiceState : Type := {
  cache : HttpCache.t;
  pendingRequests : gmap string nat;
  promises : nat
}.

(** [new HttpService(config)]. The timer that calls [cache.cleanup()] every
    minute is left out: it removes entries that [get] no longer serves. *)
Definition new_HttpService (c : HttpServiceConfig) : HttpService :=
  {| config :=
       {| baseURL := orDefaultString (hc_baseURL c) "";
          timeout := orDefault (hc_timeout c) 30000;
          headers := default [] (hc_headers c);
          retries := orDefault (hc_retries c) 3;
          retryDelay := orDefault (hc_retryDelay c) 1000;
          enableCache := default true (hc_enableCache c);
          cacheTimeout := orDefault (hc_cacheTimeout c) 300000;
          enableDeduplication := default true (hc_enableDeduplication c) |};
     requestInterceptors := [];
     responseInterceptors := [];
     errorInterceptors := [];
     authConfig := None;
     csrfManager := hc_csrf c;
     headersTypeError := fun _ _ => "Invalid header" |}.

Definition initialState : ServiceState :=
  {| cache := HttpCache.new None None; pendingRequests := ∅; promises := 0%nat |}.

(** [setAuth], [addRequestInterceptor], [addResponseInterceptor],
    [addErrorInterceptor] *)
Definition setAuth (a : AuthConfig) (this : HttpService) : HttpService :=
  {| config := config this;
     requestInterceptors := requestInterceptors this;
     responseInterceptors := responseInterceptors this;
     errorInterceptors := errorInterceptors this;
     authConfig := Some a;
     csrfManager := csrfManager this;
     headersTypeError := headersTypeError this |}.


Definition addResponseInterceptor (f : ResponseInterceptor) (this : HttpService)
  : HttpService :=
  {| config := config this;
     requestInterceptors := requestInterceptors this;
     responseInterceptors := responseInterceptors this ++ [f];
     errorInterceptors := errorInterceptors this;
     authConfig := authConfig this;
     csrfManager := csrfManager this;
     headersTypeError := headersTypeError this |}.

Definition addErrorInterceptor (f : ErrorInterceptor) (this : HttpService)
  : HttpService :=
  {| config := config this;
     requestInterceptors := requestInterceptors this;
     responseInterceptors := responseInterceptors this;
     errorInterceptors := errorInterceptors this ++ [f];
     authConfig := authConfig this;
     csrfManager := csrfManager this;
     headersTypeError := headersTypeError this |}.

(** The same service where [Headers] words its [TypeError] otherwise. *)
Definition inRuntime (message : string -> string -> string) (this : HttpService)
  : HttpService :=
  {| config := config this;
     requestInterceptors := requestInterceptors this;
     responseInterceptors := responseInterceptors this;
     errorInterceptors := errorInterceptors this;
     authConfig := authConfig this;
     csrfManager := csrfManager this;
     headersTypeError := message |}.

(** ** utils.ts: headers *)

Definition toLowerCaseChar (c : ascii) : ascii :=
  let n := N_of_ascii c in
  if ((65 <=? n) && (n <=? 90))%N then ascii_of_N (n + 32) else c.

Fixpoint toLowerCase (s : string) : string :=
  match s with
  | EmptyString => ""
  | String c rest => String (toLowerCaseChar c) (toLowerCase rest)
  end.

(** HTTP whitespace: tab, line feed, carriage return, space. *)
Definition isHttpWhitespace (c : ascii) : bool :=
  let n := N_of_ascii c in
  ((n =? 9) || (n =? 10) || (n =? 13) || (n =? 32))%N.

Fixpoint stripLeading (s : string) : string :=
  match s with
  | EmptyString => ""
  | String c rest => if isHttpWhitespace c then stripLeading rest else s
  end.

Fixpoint stripTrailing (s : string) : string :=
  match s with
  | EmptyString => ""
  | String c rest =>
      let rest' := stripTrailing rest in
      if isHttpWhitespace c && String.eqb rest' "" then "" else String c rest'
  end.

(** A value as [Headers] stores it: without the HTTP whitespace around it. *)
Definition normalizeValue (value : string) : string :=
  stripTrailing (stripLeading value).

(** A character of a token:
    [! # $ % & ' * + - . ^ _ ` | ~], a digit or a letter. *)
Definition isTokenChar (c : ascii) : bool :=
  let n := N_of_ascii c in
  ((n =? 33) || (35 <=? n) && (n <=? 39) || (n =? 42) || (n =? 43)
   || (n =? 45) || (n =? 46) || (48 <=? n) && (n <=? 57)
   || (65 <=? n) && (n <=? 90) || (94 <=? n) && (n <=? 122)
   || (n =? 124) || (n =? 126))%N.

(** A header name is a token. *)
Definition isHeaderName (name : string) : bool :=
  negb (String.eqb name "") && stringForall isTokenChar name.

(** A header value holds neither NUL nor a line break, and no character
    above U+00FF: in UTF-8, no byte from [0xC4] on. *)
Definition isHeaderValue (value : string) : bool :=
  stringForall
    (fun c => let n := N_of_ascii c in
              (negb (n =? 0) && negb (n =? 10) && negb (n =? 13) && (n <? 196))%N)
    value.

(** A new name goes to its place in the order of the names. *)
Fixpoint insertHeader (name value : string) (h : Headers) : Headers :=
  match h with
  | [] => [(name, value)]
  | (k, v) :: rest =>
      if String.ltb name k then (name, value) :: h
      else (k, v) :: insertHeader name value rest
  end.

(** The value replaces the one the name has, or the name is added. *)
Definition storeHeader (name value : string) (h : Headers) : Headers :=
  if MapHas name h then MapSet name value h else insertHeader name value h.

(** What [headers.set] accepts. *)
Definition validHeader (kv : string * string) : bool :=
  isHeaderName (fst kv) && isHeaderValue (normalizeValue (snd kv)).

(** [headers.set(name, value)]: the value is normalized; a name that is no
    header name or a value that is no header value makes it throw a
    [TypeError], given here by the name and the value refused. *)
Definition HeadersSet (name value : string) (h : Headers)
  : Completion (string * string) Headers :=
  if validHeader (name, value)
  then Return (storeHeader (toLowerCase name) (normalizeValue value) h)
  else Throw (name, value).

(** Names in ascending order. *)
Fixpoint ascending (names : list string) : bool :=
  match names with
  | a :: (b :: _) as rest => String.ltb a b && ascending rest
  | _ => true
  end.

(** [headers.has(name)] and [headers.get(name)], for a header name. *)
Definition HeadersHas (name : string) (h : Headers) : bool :=
  MapHas (toLowerCase name) h.

Definition HeadersGet (name : string) (h : Headers) : option string :=
  MapGet (toLowerCase name) h.

(** [processHeaders(headers, merged)]; [headers] are the pairs the loop
    goes through, whichever of the three forms they come in. The first
    [set] that throws ends the loop. *)
Definition processHeaders (headers : HeadersInit) (merged : Headers)
  : Completion (string * string) Headers :=
  fold_left
    (fun merged kv =>
       match merged with
       | Return merged => HeadersSet (fst kv) (snd kv) merged
       | Throw refused => Throw refused
       end)
    headers (Return merged).

(** [mergeHeaders(...headersList)] *)
Definition mergeHeaders (headersList : list (option HeadersInit))
  : Completion (string * string) Headers :=
  fold_left
    (fun merged headers =>
       match merged, headers with
       | Return merged, Some h => processHeaders h merged
       | _, _ => merged
       end)
    headersList (Return []).

(** [getContentType(data)], for the bodies the model has. *)
Definition getContentType (data : JsValue) : option string :=
  match data with
  | JsNull | JsUndefined => None
  | JsString _ => Some "text/plain"
  | _ => Some "application/json"
  end.

(** ** http-service.ts: the request pipeline *)

(** [s.replace(/\/$/, '')] *)
Fixpoint removeTrailingSlash (s : string) : string :=
  match s with
  | EmptyString => ""
  | String c rest =>
      if andb (Ascii.eqb c "/") (String.eqb rest "") then ""
      else String c (removeTrailingSlash rest)
  end.

(** [s.replace(/^\//, '')] *)
Definition removeLeadingSlash (s : string) : string :=
  match s with
  | String c rest => if Ascii.eqb c "/" then rest else s
  | EmptyString => ""
  end.

Section Service.

(** The transport: the outcome of the [n]-th call of [fetch] that
    [executeRequest] makes. *)
Variable fetch : nat -> string -> Headers -> FetchOutcome.

Variable this : HttpService.

(** [this.config] *)
Definition this_config : RequiredHttpServiceConfig := config this.

(** [createURL(url, params)] *)
Definition createURL (url : string)
           (params : option (list (string * ParamValue))) : string :=
  let fullURL :=
    if negb (String.eqb (baseURL this_config) "")
       && negb (startsWith "http" url)
    then
      let baseURL := removeTrailingSlash (baseURL this_config) in
      let cleanUrl := removeLeadingSlash url in
      baseURL +:+ "/" +:+ cleanUrl
    else url in
  buildURL fullURL params.

(** The [for ... of] loop of the three [apply...Interceptors] methods. *)
Fixpoint forInterceptors {A : Type} (event : nat -> A -> Event) (i : nat)
         (interceptors : list (A -> Completion Exn A)) (final : A) : IO A :=
  match interceptors with
  | [] => ret final
  | interceptor :: rest =>
      emit (event i final);;
      let* next := await (interceptor final) in
      forInterceptors event (S i) rest next
  end.

Definition applyRequestInterceptors (config : RequestConfig) : IO RequestConfig :=
  forInterceptors EvRequestInterceptor 0 (requestInterceptors this) config.

Definition applyResponseInterceptors (response : HttpResponse) : IO HttpResponse :=
  forInterceptors EvResponseInterceptor 0 (responseInterceptors this) response.

Definition applyErrorInterceptors (error : HttpServiceError) : IO HttpServiceError :=
  forInterceptors EvErrorInterceptor 0 (errorInterceptors this) error.

(** [getAuthToken()]; [null] is [None]. *)
Definition getAuthToken : IO (option string) :=
  match authConfig this with
  | Some {| getToken := Some getToken |} =>
      tryCatch
        (let* n := earlier isGetToken in
         emit EvGetToken;;
         let* token := await (getToken n) in
         ret (Some token))
        (fun _ => ret None)
  | _ => ret None
  end.

(** [refreshAuthToken()] *)
Definition refreshAuthToken : IO (option string) :=
  match authConfig this with
  | Some {| refreshToken := Some refreshToken;
            onTokenRefresh := onTokenRefresh;
            onAuthError := onAuthError |} =>
      tryCatch
        (let* n := earlier isRefreshToken in
         emit EvRefreshToken;;
         let* newToken := await (refreshToken n) in
         match onTokenRefresh with
         | Some callback => emit (EvOnTokenRefresh newToken);;
                            await (callback newToken)
         | None => ret tt
         end;;
         ret (Some newToken))
        (fun error =>
           match onAuthError with
           | Some callback => emit (EvOnAuthError error);;
                              await (callback error)
           | None => ret tt
           end;;
           ret None)
  | _ => ret None
  end.

(** A call of [mergeHeaders] or [headers.set] in the service: its
    [TypeError] has the message of the runtime. *)
Definition inService {A : Type} (c : Completion (string * string) A) : IO A :=
  match c with
  | Return a => ret a
  | Throw (name, value) =>
      throw (ExnTypeError (headersTypeError this name value))
  end.

(** [prepareHeaders(config)] *)
Definition prepareHeaders (config : RequestConfig) : IO Headers :=
  let* headers := inService (mergeHeaders [Some (headers this_config);
                                           cfg_headers config]) in
  let* headers :=
    if negb (cfg_skipAuth config) then
      let* token := getAuthToken in
      match token with
      | Some token =>
          if negb (String.eqb token "")
          then inService (HeadersSet "Authorization" ("Bearer " +:+ token) headers)
          else ret headers
      | None => ret headers
      end
    else ret headers in
  let* headers :=
    match csrfManager this with
    | Some csrf =>
        if negb (cfg_skipCsrf config) then
          let method := orDefaultString (cfg_method config) "GET" in
          if needsProtection csrf method then
            let* n := earlier isAddCsrfToken in
            emit (EvAddCsrfToken headers);;
            await (addTokenToHeaders csrf n headers)
          else ret headers
        else ret headers
    | None => ret headers
    end in
  if truthy (cfg_data config) && negb (HeadersHas "Content-Type" headers) then
    match getContentType (cfg_data config) with
    | Some contentType =>
        inService (HeadersSet "Content-Type" contentType headers)
    | None => ret headers
    end
  else ret headers.

(** [createCacheKey(url, config)] *)
Definition createCacheKey (url : string) (config : RequestConfig) : string :=
  let method := orDefaultString (cfg_method config) "GET" in
  let body := if truthy (cfg_data config)
              then JSON_stringify (cfg_data config) else "" in
  method +:+ ":" +:+ url +:+ ":" +:+ body.

(** [determineAbortErrorMessage(timeoutTriggered, config)] *)
Definition determineAbortErrorMessage (timeoutTriggered : bool)
           (config : RequestConfig) : string :=
  if timeoutTriggered then "Request timeout"
  else match cfg_signal config with
       | Some {| aborted := true |} => "Request aborted by user"
       | _ => "Request timeout"
       end.

(** [executeRequest(url, config, headers)]: one call of the transport.
    The timer that sets [timeoutTriggered] exists only when the caller
    gave no signal. *)
Definition executeRequest (url : string) (config : RequestConfig)
           (headers : Headers) : IO HttpResponse :=
  let shouldCreateTimeoutController :=
    match cfg_signal config with None => true | Some _ => false end in
  let* n := earlier isFetch in
  emit (EvFetch url headers);;
  match fetch n url headers with
  | FetchResolves response =>
      if negb (raw_ok response) then
        throw (ExnHttpServiceError
                 (createHttpError (raw_status response) (raw_statusText response)
                                  (Some response) (Some config)))
      else
        ret {| resp_data := raw_body response;
               resp_status := raw_status response;
               resp_statusText := raw_statusText response;
               resp_headers := raw_headers response;
               resp_config := config |}
  | FetchRejects error fired =>
      let timeoutTriggered := shouldCreateTimeoutController && fired in
      match error with
      | ExnDOMException name _ =>
          if String.eqb name "AbortError" then
            throw (ExnHttpServiceError
                     (new_AbortError
                        (determineAbortErrorMessage timeoutTriggered config)))
          else throw error
      | _ => throw error
      end
  end.

(** [error instanceof HttpServiceError && error.status === 401] *)
Definition isStatus401 (error : Exn) : bool :=
  match error with
  | ExnHttpServiceError e =>
      match err_status e with
      | Some s => s =? 401
      | None => false
      end
  | _ => false
  end.

(** [makeRequestWithAuth(url, config, attempt)] *)
Fixpoint makeRequestWithAuth (fuel : nat) (url : string)
         (config : RequestConfig) (attempt : Z) : IO HttpResponse :=
  match fuel with
  | O => outOfFuel
  | S fuel' =>
      tryCatch
        (let* headers := prepareHeaders config in
         executeRequest url config headers)
        (fun error =>
           if isStatus401 error && negb (cfg_skipAuth config) && (attempt =? 0)
           then
             let* newToken := refreshAuthToken in
             match newToken with
             | Some token =>
                 if negb (String.eqb token "")
                 then makeRequestWithAuth fuel' url config (attempt + 1)
                 else throw error
             | None => throw error
             end
           else throw error)
  end.

(** [wrapError(error, config)] *)
Definition wrapError (error : Exn) (config : RequestConfig) : HttpServiceError :=
  match error with
  | ExnHttpServiceError e => e
  | _ =>
      new_HttpServiceError
        (if instanceofError error then messageOf error
         else "Unknown error occurred")
        {| opt_status := None; opt_statusText := None; opt_response := None;
           opt_config := Some config; opt_isNetworkError := None;
           opt_isTimeoutError := None; opt_isAbortError := None |}
  end.

(** [handleRequestError(error, config)]: the first three cases throw. *)
Definition handleRequestError (error : Exn) (config : RequestConfig)
  : IO HttpServiceError :=
  let isAbortDOMException :=
    match error with
    | ExnDOMException name _ => String.eqb name "AbortError"
    | _ => false
    end in
  let isTypeError :=
    match error with ExnTypeError _ => true | _ => false end in
  if isAbortDOMException then
    throw (ExnHttpServiceError (new_AbortError "Request aborted"))
  else if isTypeError && includes "fetch" (messageOf error) then
    throw (ExnHttpServiceError (new_NetworkError "Network error occurred"))
  else if instanceofError error
          && (includes "Network" (messageOf error)
              || includes "network" (messageOf error)
              || includes "fetch" (messageOf error)) then
    throw (ExnHttpServiceError (new_NetworkError (messageOf error)))
  else
    let httpError := wrapError error config in
    applyErrorInterceptors httpError.

(** [shouldRetry(error)] *)
Definition shouldRetry (error : HttpServiceError) : bool :=
  let status := default 0 (err_status error) in   (* a falsy status *)
  if negb (status =? 0) && (400 <=? status) && (status <? 500) then false
  else isNetworkError error || isTimeoutError error
       || (negb (status =? 0) && (500 <=? status)).

(** [sleep(ms)] *)
Definition sleep (ms : JsNum) : IO unit := emit (EvSleep ms).

(** Fuel for the one recursive call [makeRequestWithAuth] can make. *)
Definition authFuel : nat := 2.

(** [makeRequest(url, config, attempt)] *)
Fixpoint makeRequest (fuel : nat) (url : string) (config : RequestConfig)
         (attempt : Z) : IO HttpResponse :=
  match fuel with
  | O => outOfFuel
  | S fuel' =>
      let retries := default (retries this_config) (cfg_retries config) in
      tryCatch
        (makeRequestWithAuth authFuel url config 0)
        (fun error =>
           let* processedError := handleRequestError error config in
           if (attempt <? retries) && shouldRetry processedError then
             let delay :=
               calculateBackoff attempt
                 (Some (orDefault (cfg_retryDelay config)
                                  (retryDelay this_config))) in
             sleep delay;;
             makeRequest fuel' url config (attempt + 1)
           else throw (ExnHttpServiceError processedError))
  end.

(** Fuel for every retry [makeRequest] can make from attempt 0. *)
Definition retryFuel (config : RequestConfig) : nat :=
  S (Z.to_nat (default (retries this_config) (cfg_retries config))).

End Service.

(** ** http-service.ts: [request], the cache and the pending table *)

(** The trace, the mutable fields of the service and the clock. *)
Record World : Type := {
  trace : Trace;
  service : ServiceState;
  now : Z
}.

Definition Svc (A : Type) : Type := M World A.

Definition liftIO {A : Type} (m : IO A) : Svc A :=
  fun w =>
    match m (trace w) with
    | None => None
    | Some (c, t) => Some (c, {| trace := t; service := service w; now := now w |})
    end.

(** Runs [m] and hands back how it completed: the promise [m] has settled. *)
Definition settled {A : Type} (m : IO A) : Svc (Completion Exn A) :=
  fun w =>
    match m (trace w) with
    | None => None
    | Some (c, t) =>
        Some (Return c, {| trace := t; service := service w; now := now w |})
    end.

Definition withService (f : ServiceState -> ServiceState) (w : World) : World :=
  {| trace := trace w; service := f (service w); now := now w |}.

Definition getService : Svc ServiceState := fun w => Some (Return (service w), w).

Definition modifyService (f : ServiceState -> ServiceState) : Svc unit :=
  fun w => Some (Return tt, withService f w).

(** [Date.now()] *)
Definition Date_now : Svc Z := fun w => Some (Return (now w), w).

Definition setCache (c : HttpCache.t) (st : ServiceState) : ServiceState :=
  {| cache := c; pendingRequests := pendingRequests st; promises := promises st |}.

Definition setPending (m : gmap string nat) (st : ServiceState) : ServiceState :=
  {| cache := cache st; pendingRequests := m; promises := promises st |}.

Definition newPromise (st : ServiceState) : ServiceState :=
  {| cache := cache st; pendingRequests := pendingRequests st;
     promises := S (promises st) |}.

(** How far [request] gets before it first waits for the transport. *)
Inductive Begun : Type :=
| CacheHit (cachedResponse : HttpResponse)
| Deduplicated (deduplicatedRequest : nat)
| Dispatched (requestPromise : nat) (fullURL : string)
             (processedConfig : RequestConfig) (cacheKey : string).

(** What a call of [request] that runs alone resolves with: a response, or
    whatever the promise of an earlier call will resolve with. *)
Inductive Requested : Type :=
| Responded (response : HttpResponse)
| SharesPromise (promise : nat).

Section Request.

Variable fetch : nat -> string -> Headers -> FetchOutcome.

Variable this : HttpService.

(** [config.method && config.method !== 'GET'] *)
Definition methodIsNotGet (config : RequestConfig) : bool :=
  match cfg_method config with
  | Some m => negb (String.eqb m "") && negb (String.eqb m "GET")
  | None => false
  end.

(** [getCachedResponse(fullURL, processedConfig)] *)
Definition getCachedResponse (fullURL : string) (processedConfig : RequestConfig)
  : Svc (option HttpResponse) :=
  if negb (enableCache (this_config this))
     || cfg_skipCache processedConfig
     || methodIsNotGet processedConfig
  then ret None
  else
    let* t := Date_now in
    let* st := getService in
    let '(cached, cache') :=
      HttpCache.get t fullURL (Some processedConfig) (cache st) in
    modifyService (setCache cache');;
    if truthy cached then
      ret (Some {| resp_data := cached;
                   resp_status := 200;
                   resp_statusText := "OK";
                   resp_headers := [];
                   resp_config := processedConfig |})
    else ret None.

(** [getDeduplicatedRequest(cacheKey, fullURL)] *)
Definition getDeduplicatedRequest (cacheKey fullURL : string)
  : Svc (option nat) :=
  let* st := getService in
  if negb (enableDeduplication (this_config this))
     || negb (bool_decide (is_Some (pendingRequests st !! cacheKey)))
  then ret None
  else ret (pendingRequests st !! cacheKey).

(** [cacheResponse(fullURL, response, processedConfig)] *)
Definition cacheResponse (fullURL : string) (response : HttpResponse)
           (processedConfig : RequestConfig) : Svc unit :=
  if enableCache (this_config this)
     && negb (cfg_skipCache processedConfig)
     && negb (methodIsNotGet processedConfig)
  then
    let cacheTimeout := orDefault (cfg_cacheTimeout processedConfig)
                                  (cacheTimeout (this_config this)) in
    let* t := Date_now in
    modifyService
      (fun st =>
         setCache (HttpCache.set t fullURL (resp_data response)
                                 (HttpCache.Options processedConfig)
                                 (Some cacheTimeout) (cache st)) st)
  else ret tt.

(** [request(url, config)] up to [await requestPromise]. [makeRequest] has
    been called and has returned the promise [requestPromise] when the
    answer is [Dispatched]. *)
Definition request_begin (url : string) (config : RequestConfig) : Svc Begun :=
  let* processedConfig := liftIO (applyRequestInterceptors this config) in
  let fullURL := createURL this url (cfg_params processedConfig) in
  let* cachedResponse := getCachedResponse fullURL processedConfig in
  match cachedResponse with
  | Some cachedResponse => ret (CacheHit cachedResponse)
  | None =>
      let cacheKey := createCacheKey fullURL processedConfig in
      let* deduplicatedRequest := getDeduplicatedRequest cacheKey fullURL in
      match deduplicatedRequest with
      | Some deduplicatedRequest => ret (Deduplicated deduplicatedRequest)
      | None =>
          let* st := getService in
          let requestPromise := promises st in
          modifyService newPromise;;
          (if enableDeduplication (this_config this)
           then modifyService
                  (fun st => setPending
                               (<[cacheKey := requestPromise]> (pendingRequests st)) st)
           else ret tt);;
          ret (Dispatched requestPromise fullURL processedConfig cacheKey)
      end
  end.

(** [request] from [await requestPromise] on, once the promise has
    settled with [outcome]: the [try] block and its [finally]. *)
Definition request_resume (outcome : Completion Exn HttpResponse)
           (fullURL : string) (processedConfig : RequestConfig)
           (cacheKey : string) : Svc HttpResponse :=
  tryFinally
    (let* response := await outcome in
     let* processedResponse :=
       liftIO (applyResponseInterceptors this response) in
     cacheResponse fullURL processedResponse processedConfig;;
     ret processedResponse)
    (withService
       (fun st =>
          if enableDeduplication (this_config this)
          then setPending (delete cacheKey (pendingRequests st)) st
          else st)).

(** [request(url, config)] for a call that runs alone: nothing else
    happens between its start and its end. *)
Definition request (url : string) (config : RequestConfig) : Svc Requested :=
  let* started := request_begin url config in
  match started with
  | CacheHit cachedResponse => ret (Responded cachedResponse)
  | Deduplicated deduplicatedRequest => ret (SharesPromise deduplicatedRequest)
  | Dispatched _ fullURL processedConfig cacheKey =>
      let* outcome :=
        settled (makeRequest fetch this (retryFuel this processedConfig)
                             fullURL processedConfig 0) in
      let* response :=
        request_resume outcome fullURL processedConfig cacheKey in
      ret (Responded response)
  end.

End Request.

(** ** Interleaved calls

    Calls of [request] on one service interleave at their [await]s. A call
    that has called [makeRequest] owns a flight: the promise [makeRequest]
    returned, outstanding until the dispatch settles, and kept until the
    call has awaited the response interceptors and run its [finally]. *)

Record Flight : Type := {
  fl_fullURL : string;
  fl_processedConfig : RequestConfig;
  fl_cacheKey : string;
  fl_outcome : option (Completion Exn HttpResponse)   (* [None]: outstanding *)
}.

Record System : Type := {
  world : World;
  flights : gmap nat Flight
}.

Inductive Action : Type :=
| Call (url : string) (config : RequestConfig)  (* a caller calls [request] *)
| Settle (promise : nat)       (* the dispatch behind a promise settles *)
| Resume (promise : nat)       (* its owner runs the rest of [request] *)
| Tick (ms : Z).               (* time passes *)

Section Interleaving.

Variable fetch : nat -> string -> Headers -> FetchOutcome.

Variable this : HttpService.

Definition initialSystem : System :=
  {| world := {| trace := []; service := initialState; now := 0 |};
     flights := ∅ |}.

(** One atomic step; [None] when the action is not enabled. [Settle] runs
    the whole of [makeRequest] at once: its retries touch neither the cache
    nor the pending table, so nothing another call does in between can
    tell. *)
Definition act (a : Action) (s : System) : option System :=
  match a with
  | Call url config =>
      match request_begin this url config (world s) with
      | Some (Return (Dispatched requestPromise fullURL processedConfig cacheKey),
              w') =>
          Some {| world := w';
                  flights :=
                    <[requestPromise :=
                        {| fl_fullURL := fullURL;
                           fl_processedConfig := processedConfig;
                           fl_cacheKey := cacheKey;
                           fl_outcome := None |}]> (flights s) |}
      | Some (_, w') => Some {| world := w'; flights := flights s |}
      | None => None
      end
  | Settle promise =>
      match flights s !! promise with
      | Some {| fl_fullURL := fullURL; fl_processedConfig := processedConfig;
                fl_cacheKey := cacheKey; fl_outcome := None |} =>
          match settled (makeRequest fetch this (retryFuel this processedConfig)
                                     fullURL processedConfig 0) (world s) with
          | Some (Return outcome, w') =>
              Some {| world := w';
                      flights :=
                        <[promise :=
                            {| fl_fullURL := fullURL;
                               fl_processedConfig := processedConfig;
                               fl_cacheKey := cacheKey;
                               fl_outcome := Some outcome |}]> (flights s) |}
          | _ => None
          end
      | _ => None
      end
  | Resume promise =>
      match flights s !! promise with
      | Some {| fl_fullURL := fullURL; fl_processedConfig := processedConfig;
                fl_cacheKey := cacheKey; fl_outcome := Some outcome |} =>
          match request_resume this outcome fullURL processedConfig cacheKey
                               (world s) with
          | Some (_, w') =>
              Some {| world := w'; flights := delete promise (flights s) |}
          | None => None
          end
      | _ => None
      end
  | Tick ms =>
      if 0 <=? ms then
        Some {| world := {| trace := trace (world s);
                            service := service (world s);
                            now := now (world s) + ms |};
                flights := flights s |}
      else None
  end.

Fixpoint run (actions : list Action) (s : System) : option System :=
  match actions with
  | [] => Some s
  | a :: rest =>
      match act a s with
      | Some s' => run rest s'
      | None => None
      end
  end.

Definition reachable (s : System) : Prop :=
  exists actions : list Action, run actions initialSystem = Some s.

(** The dispatch behind [promise] is outstanding with fingerprint [key]. *)
Definition outstanding (s : System) (promise : nat) (key : string) : Prop :=
  exists fl : Flight,
    flights s !! promise = Some fl
    /\ fl_cacheKey fl = key /\ fl_outcome fl = None.

End Interleaving.

(** ** What a run leaves in the trace *)

(** The events of one pass over an interceptor chain: one per interceptor
    called, until one throws. *)
Fixpoint interceptorEvents {A : Type} (event : nat -> A -> Event) (i : nat)
         (interceptors : list (A -> Completion Exn A)) (final : A) : list Event :=
  match interceptors with
  | [] => []
  | interceptor :: rest =>
      event i final ::
      match interceptor final with
      | Return next => interceptorEvents event (S i) rest next
      | Throw _ => []
      end
  end.

(** The events of [prepareHeaders]. *)
Definition isPreparing (ev : Event) : bool :=
  match ev with
  | EvGetToken | EvAddCsrfToken _ => true
  | _ => false
  end.

(** The [try] block of [makeRequestWithAuth]: one dispatch. *)
Definition dispatch (fetch : nat -> string -> Headers -> FetchOutcome)
           (this : HttpService) (url : string) (config : RequestConfig)
  : IO HttpResponse :=
  let* headers := prepareHeaders this config in
  executeRequest fetch url config headers.

(** Whether [authConfig.refreshToken] is there to be called. *)
Definition refreshConfigured (this : HttpService) : bool :=
  match authConfig this with
  | Some {| refreshToken := Some _ |} => true
  | _ => false
  end.

(** The fingerprint under which a call is deduplicated: the cache key of
    the resolved URL and the configuration the request interceptors made. *)
Definition fingerprint (this : HttpService) (url : string) (config : RequestConfig)
  : option string :=
  match applyRequestInterceptors this config [] with
  | Some (Return processedConfig, _) =>
      Some (createCacheKey (createURL this url (cfg_params processedConfig))
                           processedConfig)
  | _ => None
  end.

(** What links the flights to the pending table while deduplication is on:
    promise names are fresh, every flight is registered under its
    fingerprint, and every entry of the table is a flight. *)
Definition consistent (s : System) : Prop :=
  (forall (p : nat) (fl : Flight),
      flights s !! p = Some fl -> (p < promises (service (world s)))%nat)
  /\ (forall (p : nat) (fl : Flight),
         flights s !! p = Some fl ->
         pendingRequests (service (world s)) !! fl_cacheKey fl = Some p)
  /\ (forall (key : string) (p : nat),
         pendingRequests (service (world s)) !! key = Some p ->
         exists fl : Flight, flights s !! p = Some fl /\ fl_cacheKey fl = key).

(** Whether [getCachedResponse] and [cacheResponse] use the cache for a
    request: caching is on, the request has not set [skipCache], and its
    method is [GET] or absent. *)
Definition cacheable (this : HttpService) (processedConfig : RequestConfig)
  : bool :=
  enableCache (this_config this)
  && negb (cfg_skipCache processedConfig)
  && negb (methodIsNotGet processedConfig).

(** The envelope [getCachedResponse] builds around cached data. *)
Definition cachedEnvelope (data : JsValue) (processedConfig : RequestConfig)
  : HttpResponse :=
  {| resp_data := data; resp_status := 200; resp_statusText := "OK";
     resp_headers := []; resp_config := processedConfig |}.



(** What the last step of [prepareHeaders] makes of the headers: the
    content type of a truthy [data] is added unless there is one. *)
Definition withContentType (data : JsValue) (h : Headers) : Headers :=
  if truthy data && negb (HeadersHas "Content-Type" h)
  then match getContentType data with
       | Some contentType => storeHeader "content-type" contentType h
       | None => h
       end
  else h.

(** The value a header source gives a name, whatever the case of the name:
    the last pair for it wins. *)
Definition lookupLast (name : string) (source : HeadersInit) : option string :=
  fold_left
    (fun (found : option string) (kv : string * string) =>
       if String.eqb (toLowerCase (fst kv)) (toLowerCase name)
       then Some (snd kv) else found)
    source None.

(** How often a character occurs in a string. *)
Fixpoint countChar (c : ascii) (s : string) : nat :=
  match s with
  | EmptyString => 0%nat
  | String c' rest =>
      ((if Ascii.eqb c' c then 1 else 0) + countChar c rest)%nat
  end.

(** The characters an encoded component can hold: the unreserved ones and
    the percent sign. *)
Definition uriSafe (c : ascii) : bool := uriUnreserved c || Ascii.eqb c "%".

(** [s.endsWith('/')] *)
Fixpoint endsWithSlash (s : string) : bool :=
  match s with
  | EmptyString => false
  | String c rest =>
      if String.eqb rest "" then Ascii.eqb c "/" else endsWithSlash rest
  end.

(** [new HttpService({ baseURL })] *)
Definition serviceAt (base : string) : HttpService :=
  new_HttpService
    {| hc_baseURL := Some base; hc_timeout := None; hc_headers := None;
       hc_retries := None; hc_retryDelay := None; hc_enableCache := None;
       hc_cacheTimeout := None; hc_enableDeduplication := None;
       hc_csrf := None |}.

(** An auth configuration whose [getToken] always yields the same token. *)
Definition tokenAuth (token : string) : AuthConfig :=
  {| getToken := Some (fun _ => Return token);
     refreshToken := None;
     onTokenRefresh := None;
     onAuthError := None |}.

(** A [POST] whose caller sends its own [Authorization] and [content-type]. *)
Definition postWithOwnHeaders : RequestConfig :=
  {| cfg_method := Some "POST";
     cfg_headers := Some [("authorization", "Basic abc");
                          ("content-type", "text/csv")];
     cfg_body := JsUndefined;
     cfg_signal := None; cfg_url := None; cfg_timeout := None;
     cfg_retries := None; cfg_retryDelay := None; cfg_skipAuth := false;
     cfg_skipCache := false; cfg_skipCsrf := false; cfg_cacheTimeout := None;
     cfg_params := None; cfg_data := JsObject "[1,2]" |}.

(** A step that completes a dispatched call: no new call, no clock. *)
Definition completes (a : Action) : bool :=
  match a with
  | Settle _ | Resume _ => true
  | Call _ _ | Tick _ => false
  end.

(** ** csrf.ts *)

Module Csrf.

Record CsrfToken : Type := {
  value : string;
  expires : option Z
}.

(** A [CsrfManager]: the configuration after the constructor's defaults
    and the cached token. The [getToken] and [validateToken] functions of
    the configuration are the caller's (or read the document and the
    network): their results are given to the methods that call them. *)
Record t : Type := {
  enabled : bool;
  tokenHeader : string;
  tokenName : string;
  cachedToken : option CsrfToken
}.

(** [new CsrfManager(config)] *)
Definition new (enabled : bool) (tokenHeader tokenName : option string) : t :=
  {| enabled := enabled;
     tokenHeader := orDefaultString tokenHeader "X-CSRF-Token";
     tokenName := orDefaultString tokenName "csrf_token";
     cachedToken := None |}.

(** A character of the class [[a-zA-Z0-9_-]]. *)
Definition tokenChar (c : ascii) : bool :=
  let n := N_of_ascii c in
  ((65 <=? n) && (n <=? 90) || (97 <=? n) && (n <=? 122)
   || (48 <=? n) && (n <=? 57) || (n =? 95) || (n =? 45))%N.

(** [validateDefaultToken(token)]:
    [token.length > 0 && /^[a-zA-Z0-9_-]+$/.test(token)] *)
Definition validateDefaultToken (token : string) : bool :=
  (0 <? String.length token)%nat && stringForall tokenChar token.

(** [isTokenValid(token)]: [token.expires ? Date.now() < token.expires : true] *)
Definition isTokenValid (now : Z) (token : CsrfToken) : bool :=
  match expires token with
  | Some e => if e =? 0 then true else now <? e
  | None => true
  end.

(** [getToken()]. [now] is the time of the call, [fetched] what
    [config.getToken()] settles with, [validate] the configured validator
    and [fetchedAt] the time at which the validated token is cached. The
    second component tells whether [config.getToken] was called. *)
Definition getToken (now fetchedAt : Z) (fetched : Completion Exn string)
           (validate : string -> Completion Exn bool) (this : t)
  : option string * bool * t :=
  let refetch :=
    match fetched with
    | Return token =>
        if negb (String.eqb token "") then
          match validate token with
          | Return true =>
              (Some token, true,
               {| enabled := enabled this;
                  tokenHeader := tokenHeader this;
                  tokenName := tokenName this;
                  cachedToken :=
                    Some {| value := token;
                            expires := Some (fetchedAt + 30 * 60 * 1000) |} |})
          | Return false => (None, true, this)
          | Throw _ => (None, true, this)
          end
        else (None, true, this)
    | Throw _ => (None, true, this)
    end in
  if negb (enabled this) then (None, false, this)
  else
    match cachedToken this with
    | Some token =>
        if isTokenValid now token then (Some (value token), false, this)
        else refetch
    | None => refetch
    end.

(** [clearToken()] *)
Definition clearToken (this : t) : t :=
  {| enabled := enabled this; tokenHeader := tokenHeader this;
     tokenName := tokenName this; cachedToken := None |}.

(** [addTokenToHeaders(headers)]; it throws when [headers.set] does. *)
Definition addTokenToHeaders (now fetchedAt : Z) (fetched : Completion Exn string)
           (validate : string -> Completion Exn bool) (headers : Headers)
           (this : t) : Completion (string * string) Headers * t :=
  if negb (enabled this) then (Return headers, this)
  else
    let '(token, _, this') := getToken now fetchedAt fetched validate this in
    match token with
    | Some token =>
        if negb (String.eqb token "")
        then (HeadersSet (tokenHeader this) token headers, this')
        else (Return headers, this')
    | None => (Return headers, this')
    end.

(** The 64 characters tokens are made of. *)
Definition chars : string :=
  "ABCDEFGHIJKLMNOPQRSTUVWXYZabcdefghijklmnopqrstuvwxyz0123456789-_".

(** [result += chars[byte % chars.length]] *)
Definition charFor (byte : ascii) : string :=
  match String.get (N.to_nat (N_of_ascii byte
                              mod N.of_nat (String.length chars))) chars with
  | Some c => String c ""
  | None => "undefined"
  end.

(** [generateCsrfToken(length)] where [crypto.getRandomValues] exists;
    [array] is the [Uint8Array] of [length] bytes it has filled. *)
Definition generateCsrfToken (array : list ascii) : string :=
  fold_left (fun (result : string) (byte : ascii) => result +:+ charFor byte)
            array "".

(** The 256 values of a byte. *)
Definition allBytes : list ascii :=
  List.map ascii_of_nat (List.seq 0 256).

End Csrf.

(** ** plugins.ts: the circuit breaker *)

Module CircuitBreaker.

Inductive State : Type := CLOSED | OPEN | HALF_OPEN.

Record t : Type := {
  failureCount : Z;
  lastFailureTime : Z;
  state : State;
  threshold : Z;
  timeout : Z
}.

(** [new CircuitBreakerPlugin(threshold = 5, timeout = 60000)] *)
Definition new (threshold timeout : option Z) : t :=
  {| failureCount := 0;
     lastFailureTime := 0;
     state := CLOSED;
     threshold := default 5 threshold;
     timeout := default 60000 timeout |}.

Definition setState (s : State) (this : t) : t :=
  {| failureCount := failureCount this;
     lastFailureTime := lastFailureTime this;
     state := s;
     threshold := threshold this;
     timeout := timeout this |}.

(** [recordFailure()] *)
Definition recordFailure (now : Z) (this : t) : t :=
  let failureCount := failureCount this + 1 in
  {| failureCount := failureCount;
     lastFailureTime := now;
     state := if threshold this <=? failureCount then OPEN else state this;
     threshold := threshold this;
     timeout := timeout this |}.

(** [reset()] *)
Definition reset (this : t) : t :=
  {| failureCount := 0;
     lastFailureTime := lastFailureTime this;
     state := CLOSED;
     threshold := threshold this;
     timeout := timeout this |}.

(** The request interceptor [install] registers: the configuration is
    returned as it came, or the interceptor throws. *)
Definition requestInterceptor (now : Z) (this : t) : Completion string unit * t :=
  match state this with
  | OPEN =>
      if now - lastFailureTime this <? timeout this
      then (Throw "Circuit breaker is OPEN", this)
      else (Return tt, setState HALF_OPEN this)
  | _ => (Return tt, this)
  end.

(** The response interceptor *)
Definition responseInterceptor (this : t) : t :=
  match state this with
  | HALF_OPEN => reset this
  | _ => this
  end.

(** The error interceptor *)
Definition errorInterceptor (now : Z) (this : t) : t :=
  recordFailure now this.

(** What the service makes the plugin see, in order. *)
Inductive Signal : Type :=
| Request (now : Z)
| Response
| Failure (now : Z).

Definition isFailure (signal : Signal) : bool :=
  match signal with
  | Failure _ => true
  | _ => false
  end.

Definition handle (this : t) (signal : Signal) : t :=
  match signal with
  | Request now => snd (requestInterceptor now this)
  | Response => responseInterceptor this
  | Failure now => errorInterceptor now this
  end.

Definition run (signals : list Signal) (this : t) : t :=
  fold_left handle signals this.

End CircuitBreaker.

(** ** Scenarios

    The transports, services and requests the examples below run. *)

(** A transport response with the given status; [ok] as [fetch] sets it. *)
Definition respond (status : Z) (statusText : string) (body : JsValue)
  : FetchOutcome :=
  FetchResolves {| raw_ok := (200 <=? status) && (status <? 300);
                   raw_status := status;
                   raw_statusText := statusText;
                   raw_headers := [("content-type", "application/json")];
                   raw_body := body |}.

(** A transport that plays a script, like a mock with queued outcomes, and
    answers 200 once the script is over. *)
Definition script (outcomes : list FetchOutcome)
  : nat -> string -> Headers -> FetchOutcome :=
  fun n _ _ => nth n outcomes (respond 200 "OK" (JsObject "{}")).

(** [new HttpService()] *)
Definition defaultService : HttpService :=
  new_HttpService
    {| hc_baseURL := None; hc_timeout := None; hc_headers := None;
       hc_retries := None; hc_retryDelay := None; hc_enableCache := None;
       hc_cacheTimeout := None; hc_enableDeduplication := None;
       hc_csrf := None |}.

(** The configuration [get(url)] passes to [request]: [{ method: 'GET' }]. *)
Definition getConfig : RequestConfig :=
  {| cfg_method := Some "GET"; cfg_headers := None; cfg_body := JsUndefined;
     cfg_signal := None; cfg_url := None; cfg_timeout := None;
     cfg_retries := None; cfg_retryDelay := None; cfg_skipAuth := false;
     cfg_skipCache := false; cfg_skipCsrf := false; cfg_cacheTimeout := None;
     cfg_params := None; cfg_data := JsUndefined |}.

(** [post(url, data)]: [{ method: 'POST', data }]. *)
Definition postConfig (data : JsValue) : RequestConfig :=
  {| cfg_method := Some "POST"; cfg_headers := None; cfg_body := JsUndefined;
     cfg_signal := None; cfg_url := None; cfg_timeout := None;
     cfg_retries := None; cfg_retryDelay := None; cfg_skipAuth := false;
     cfg_skipCache := false; cfg_skipCsrf := false; cfg_cacheTimeout := None;
     cfg_params := None; cfg_data := data |}.

(** An auth configuration whose refresh always yields a token. *)
Definition refreshingAuth : AuthConfig :=
  {| getToken := None;
     refreshToken := Some (fun _ => Return "fresh-token");
     onTokenRefresh := None;
     onAuthError := None |}.

(** [new RequestQueue({ maxQueueSize })] *)
Definition queueOfSize (n : Z) : RequestQueue :=
  new_RequestQueue {| qc_maxConcurrent := None; qc_maxQueueSize := Some n;
                      qc_requestsPerSecond := None; qc_priorityFn := None |}.

(** An interceptor that passes the error on unchanged. *)
Definition passError : ErrorInterceptor := fun error => Return error.

(** A response interceptor that replaces the data. *)
Definition stampResponse : ResponseInterceptor :=
  fun response =>
    Return {| resp_data := JsString "stamped";
              resp_status := resp_status response;
              resp_statusText := resp_statusText response;
              resp_headers := resp_headers response;
              resp_config := resp_config response |}.


Definition initialWorld : World :=
  {| trace := []; service := initialState; now := 0 |}.

Definition authService : HttpService := setAuth refreshingAuth defaultService.

Definition unauthorized : FetchOutcome := respond 401 "Unauthorized" (JsObject "{}").

Definition unavailable : FetchOutcome :=
  respond 503 "Service Unavailable" (JsObject "{}").

Definition notFound : FetchOutcome := respond 404 "Not Found" (JsObject "{}").

Definition okResponse : FetchOutcome := respond 200 "OK" (JsObject "[1]").

(** The body of the 511 that a captive portal answers. *)
Definition networkAuthenticationRequired : FetchOutcome :=
  respond 511 "Network Authentication Required" (JsObject "{}").

(** [fetch] rejects because the timeout timer aborted it. *)
Definition timedOut : FetchOutcome :=
  FetchRejects (ExnDOMException "AbortError" "The operation was aborted.") true.

(** What [fetch] rejects with when the network is down. *)
Definition fetchFailed : FetchOutcome :=
  FetchRejects (ExnTypeError "fetch failed") false.

(** The trace and the outcome of a finished run. *)
Definition traceAfter {A : Type} (r : option (Completion Exn A * World))
  : option Trace :=
  (fun cw => trace (snd cw)) <$> r.

Definition outcomeOf {S A : Type} (r : option (Completion Exn A * S))
  : option (Completion Exn A) :=
  fst <$> r.

(** The service with one error interceptor registered. *)
Definition observedService : HttpService :=
  addErrorInterceptor passError defaultService.

(** The transport answers [201 Created] with a content type. *)
Definition created : FetchOutcome := respond 201 "Created" (JsObject "[1]").

(** The world after [get('/a')] on a fresh default service was answered
    [201 Created]: the cache holds the data. *)
Definition cachedWorld : World :=
  match request (script [created]) defaultService "/a" getConfig initialWorld with
  | Some (_, w) => w
  | None => initialWorld
  end.

(** The default service after [addResponseInterceptor]. *)
Definition stampingService : HttpService :=
  addResponseInterceptor stampResponse defaultService.

(** [post('/users', [1, 2])] *)
Definition postUser : RequestConfig := postConfig (JsObject "[1,2]").

(** [new HttpService({ enableDeduplication: false })] *)
Definition plainService : HttpService :=
  new_HttpService
    {| hc_baseURL := None; hc_timeout := None; hc_headers := None;
       hc_retries := None; hc_retryDelay := None; hc_enableCache := None;
       hc_cacheTimeout := None; hc_enableDeduplication := Some false;
       hc_csrf := None |}.

(** The same [POST] called twice on it, neither settled. *)
Definition twoPosts : System :=
  default initialSystem
          (run (script []) plainService
               [Call "/users" postUser; Call "/users" postUser] initialSystem).

(** Requests are ranked by their [timeout] option. *)
Definition byTimeout (config : RequestConfig) : Z :=
  default 0 (cfg_timeout config).

Definition rankedQueue : QueueConfig :=
  {| qc_maxConcurrent := Some 1; qc_maxQueueSize := Some 3;
     qc_requestsPerSecond := None; qc_priorityFn := Some byTimeout |}.

Definition ranked (priority : Z) : RequestConfig :=
  {| cfg_method := Some "GET"; cfg_headers := None; cfg_body := JsUndefined;
     cfg_signal := None; cfg_url := None; cfg_timeout := Some priority;
     cfg_retries := None; cfg_retryDelay := None; cfg_skipAuth := false;
     cfg_skipCache := false; cfg_skipCsrf := false; cfg_cacheTimeout := None;
     cfg_params := None; cfg_data := JsUndefined |}.

(** One request is executing; two of priority 1 and 5 wait. *)
Definition busyQueue : Throttle :=
  default (newThrottle rankedQueue 5000)
          (queueRun [QEnqueue (ranked 2); QEnqueue (ranked 1); QEnqueue (ranked 5)]
                    (newThrottle rankedQueue 5000)).

(** A [POST] has been dispatched on the stamping service and its dispatch
    has settled; its owner has not come to its [finally] yet. *)
Definition settledSystem : System :=
  default initialSystem
          (run (script []) stampingService
               [Call "/users" postUser; Settle 0%nat] initialSystem).



(** [get('/a', { skipCache: true })], and the system in which [get('/a')]
    has completed and the same [GET] that skips the cache is in flight. *)
Definition uncachedGet : RequestConfig :=
  {| cfg_method := Some "GET"; cfg_headers := None; cfg_body := JsUndefined;
     cfg_signal := None; cfg_url := None; cfg_timeout := None;
     cfg_retries := None; cfg_retryDelay := None; cfg_skipAuth := false;
     cfg_skipCache := true; cfg_skipCsrf := false; cfg_cacheTimeout := None;
     cfg_params := None; cfg_data := JsUndefined |}.

Definition refetchingSystem : System :=
  default initialSystem
          (run (script []) defaultService
               [Call "/a" getConfig; Settle 0%nat; Resume 0%nat;
                Call "/a" uncachedGet] initialSystem).

(** A response whose data is the number 0, and the world after it has
    been stored for ['/count']. *)
Definition zeroResponse : HttpResponse :=
  {| resp_data := JsNumber 0; resp_status := 200; resp_statusText := "OK";
     resp_headers := []; resp_config := getConfig |}.

Definition storedZero : World :=
  withService
    (fun st => setCache
                 (HttpCache.set 0 "/count" (JsNumber 0)
                    (HttpCache.Options getConfig) (Some 300000) (cache st)) st)
    initialWorld.

(* ================================================================== *)
(** * Properties *)

(** ** errors.ts *)

Lemma createHttpError_status status statusText response config :
  err_status (createHttpError status statusText response config) = Some status.
Proof.
  unfold createHttpError.
  repeat match goal with |- context [if ?b then _ else _] => destruct b end;
    reflexivity.
Qed.

Lemma createHttpError_message status statusText response config :
  err_message (createHttpError status statusText response config)
  = "HTTP " +:+ String_of_number status +:+ ": " +:+ statusText.
Proof.
  unfold createHttpError.
  repeat match goal with |- context [if ?b then _ else _] => destruct b end;
    reflexivity.
Qed.

Lemma String_of_number_threeDigits (status : Z) :
  100 <= status <= 999 -> String_of_number status = threeDigits status.
Proof.
  intros Hrange.
  assert (Hall : forallb
                   (fun n => String.eqb (String_of_number (100 + Z.of_nat n))
                                        (threeDigits (100 + Z.of_nat n)))
                   (List.seq 0 900) = true) by (vm_compute; reflexivity).
  rewrite forallb_forall in Hall.
  specialize (Hall (Z.to_nat (status - 100))).
  replace (100 + Z.of_nat (Z.to_nat (status - 100))) with status in Hall by lia.
  apply String.eqb_eq, Hall, in_seq. lia.
Qed.

(** C8 (amended). [createHttpError] classifies by the status: 400 gives a
    [ValidationError], 401 an [AuthenticationError], 403 an
    [AuthorizationError], any other status in [400,500) the generic
    [HttpServiceError], any status from 500 a [ServerError]. Every one of
    them carries the status and the message [HTTP <status>: <statusText>],
    the status printed as a number prints, which for a status of three
    digits is its digits; no flag is set. Kind, status and message depend
    on the status and its text alone, and the four specialised kinds keep
    nothing else; the generic kind also keeps the status text, the response
    and the configuration it was given, so the error as a whole is a
    function of all four arguments. The kinds and messages of seven
    statuses are computed. *)
Theorem createHttpError_classifies :
  forall (status : Z) (statusText : string)
         (response : option Response) (config : option RequestConfig),
    let e := createHttpError status statusText response config in
    let specialised :=
      (status =? 400) || (status =? 401) || (status =? 403) || (500 <=? status) in
    err_name e =
      (if status =? 400 then "ValidationError"
       else if status =? 401 then "AuthenticationError"
       else if status =? 403 then "AuthorizationError"
       else if (400 <=? status) && (status <? 500) then "HttpServiceError"
       else if 500 <=? status then "ServerError"
       else "HttpServiceError")
    /\ err_status e = Some status
    /\ err_message e = "HTTP " +:+ String_of_number status +:+ ": " +:+ statusText
    /\ (100 <= status <= 999 ->
        err_message e = "HTTP " +:+ threeDigits status +:+ ": " +:+ statusText)
    /\ (isNetworkError e, isTimeoutError e, isAbortError e) = (false, false, false)
    /\ (err_statusText e, err_response e, err_config e)
       = (if specialised then (None, None, None)
          else (Some statusText, response, config))
    /\ List.map
         (fun status =>
            let e := createHttpError status "Status" response config in
            (err_name e, err_message e))
         [400; 401; 403; 404; 429; 500; 503]
       = [("ValidationError", "HTTP 400: Status");
          ("AuthenticationError", "HTTP 401: Status");
          ("AuthorizationError", "HTTP 403: Status");
          ("HttpServiceError", "HTTP 404: Status");
          ("HttpServiceError", "HTTP 429: Status");
          ("ServerError", "HTTP 500: Status");
          ("ServerError", "HTTP 503: Status")].
Proof.
  intros status statusText response config e specialised. subst e specialised.
  split; [| split; [apply createHttpError_status
                   | split; [apply createHttpError_message | split]]].
  - unfold createHttpError.
    repeat match goal with |- context [if ?b then _ else _] => destruct b end;
      reflexivity.
  - intros Hrange. rewrite createHttpError_message.
    rewrite (String_of_number_threeDigits status Hrange). reflexivity.
  - split; [| split; [| reflexivity]].
    + unfold createHttpError.
      repeat match goal with |- context [if ?b then _ else _] => destruct b end;
        reflexivity.
    + unfold createHttpError.
      destruct (status =? 400); [reflexivity |].
      destruct (status =? 401); [reflexivity |].
      destruct (status =? 403); [reflexivity |].
      cbn [orb].
      destruct ((400 <=? status) && (status <? 500)) eqn:Hclient.
      * apply andb_prop in Hclient as [_ Hlt]. apply Z.ltb_lt in Hlt.
        replace (500 <=? status) with false
          by (symmetry; apply Z.leb_gt; lia).
        reflexivity.
      * destruct (500 <=? status); reflexivity.
Qed.

(** The error of a 404 and the one of a status beyond 21 digits. *)
Lemma createHttpError_404_not_found :
  err_message (createHttpError 404 "Not Found" None None) = "HTTP 404: Not Found".
Proof.
  apply (proj1 (proj2 (proj2 (proj2
           (createHttpError_classifies 404 "Not Found" None None))))).
  lia.
Defined.

(** Two errors of one status and status text that differ: the generic
    kind keeps the configuration, the server kind drops it. *)
Lemma createHttpError_keeps_response_and_config :
  createHttpError 404 "Not Found" None None
  <> createHttpError 404 "Not Found" None (Some getConfig)
  /\ err_config (createHttpError 404 "Not Found" None (Some getConfig))
     = Some getConfig
  /\ err_config (createHttpError 503 "Service Unavailable" None (Some getConfig))
     = None.
Proof.
  split; [| split; reflexivity].
  intros H. apply (f_equal err_config) in H. discriminate.
Qed.

Example createHttpError_prints_exponent :
  err_message (createHttpError (10 ^ 21) "Huge" None None) = "HTTP 1e+21: Huge"
  /\ err_message (createHttpError (2 ^ 64) "Huge" None None)
     = "HTTP 18446744073709552000: Huge".
Proof. split; vm_compute; reflexivity. Qed.

(** ** utils.ts *)

Example calculateBackoff_default : calculateBackoff 2 None = 4000.
Proof. reflexivity. Qed.

Lemma pow2_ge_32 (attempt : Z) : 5 <= attempt -> 32 <= 2 ^ attempt.
Proof.
  intros H. change 32 with (2 ^ 5). apply Z.pow_le_mono_r; lia.
Qed.

Lemma pow2_1024_large : 30000 < 2 ^ 1024.
Proof. vm_compute. reflexivity. Qed.

(** With a positive base delay the delay is the capped product, whatever
    the attempt: when the product overflows, the cap is what remains. *)
Lemma calculateBackoff_positive (attempt baseDelay : Z) :
  0 <= attempt -> 0 < baseDelay ->
  calculateBackoff attempt (Some baseDelay)
  = Num (Z.min (baseDelay * 2 ^ attempt) 30000).
Proof.
  intros Ha Hb. unfold calculateBackoff, timesPowerOfTwo.
  cbn [default from_option]. unfold id.
  pose proof pow2_1024_large as Hlarge.
  assert (Hpow : 0 < 2 ^ attempt) by (apply Z.pow_pos_nonneg; lia).
  destruct (1024 <=? attempt) eqn:Hinf.
  - apply Z.leb_le in Hinf.
    replace (baseDelay =? 0) with false by (symmetry; apply Z.eqb_neq; lia).
    replace (0 <? baseDelay) with true by (symmetry; apply Z.ltb_lt; lia).
    cbn [Math_min]. f_equal.
    assert (2 ^ 1024 <= 2 ^ attempt) by (apply Z.pow_le_mono_r; lia).
    nia.
  - replace (0 <=? attempt) with true by (symmetry; apply Z.leb_le; lia).
    cbv zeta.
    destruct (2 ^ 1024 <=? baseDelay * 2 ^ attempt) eqn:Hover.
    + apply Z.leb_le in Hover. cbn [Math_min]. f_equal. lia.
    + replace (baseDelay * 2 ^ attempt <=? - 2 ^ 1024) with false
        by (symmetry; apply Z.leb_gt; nia).
      reflexivity.
Qed.

(** C4 (amended). For a natural attempt number and a positive base delay
    the delay is [min(baseDelay * 2^attempt, 30000)]; the base delay is 1000
    when none is given; with base delay 1000 the attempts 0, 1, 2, 3 wait
    1000, 2000, 4000, 8000 and every attempt from 5 waits 30000. A base
    delay that is not positive is not capped from below: the delay is the
    product itself while a double holds it, [-Infinity] once it overflows,
    and [NaN] for base delay 0 from attempt 1024 on, where [2 ** attempt]
    is [Infinity]. *)
Theorem calculateBackoff_capped_exponential :
  (forall (attempt : nat) (baseDelay : Z),
      0 < baseDelay ->
      calculateBackoff (Z.of_nat attempt) (Some baseDelay)
      = Num (Z.min (baseDelay * 2 ^ Z.of_nat attempt) 30000))
  /\ (forall attempt : Z,
         calculateBackoff attempt None = calculateBackoff attempt (Some 1000))
  /\ List.map (fun attempt => calculateBackoff attempt (Some 1000)) [0; 1; 2; 3]
     = [Num 1000; Num 2000; Num 4000; Num 8000]
  /\ (forall attempt : nat,
         (5 <= attempt)%nat ->
         calculateBackoff (Z.of_nat attempt) (Some 1000) = Num 30000)
  /\ (forall (attempt : nat) (baseDelay : Z),
         baseDelay <= 0 ->
         calculateBackoff (Z.of_nat attempt) (Some baseDelay)
         = if (baseDelay =? 0) && (1024 <=? Z.of_nat attempt) then NaN
           else if baseDelay * 2 ^ Z.of_nat attempt <=? - 2 ^ 1024
                then NegInfinity
                else Num (baseDelay * 2 ^ Z.of_nat attempt)).
Proof.
  split; [| split; [| split; [| split]]].
  - intros attempt baseDelay Hb. apply calculateBackoff_positive; lia.
  - intros attempt. reflexivity.
  - reflexivity.
  - intros attempt H. rewrite calculateBackoff_positive by lia.
    pose proof (pow2_ge_32 (Z.of_nat attempt) ltac:(lia)). f_equal. lia.
  - intros attempt baseDelay Hb. unfold calculateBackoff, timesPowerOfTwo.
    cbn [default from_option]. unfold id.
    pose proof pow2_1024_large as Hlarge.
    assert (Hpow : 0 < 2 ^ Z.of_nat attempt) by (apply Z.pow_pos_nonneg; lia).
    destruct (1024 <=? Z.of_nat attempt) eqn:Hinf.
    + apply Z.leb_le in Hinf.
      assert (2 ^ 1024 <= 2 ^ Z.of_nat attempt)
        by (apply Z.pow_le_mono_r; lia).
      destruct (Z.eqb_spec baseDelay 0) as [-> | Hne]; [reflexivity |].
      replace (0 <? baseDelay) with false by (symmetry; apply Z.ltb_ge; lia).
      cbn [andb Math_min].
      replace (baseDelay * 2 ^ Z.of_nat attempt <=? - 2 ^ 1024) with true
        by (symmetry; apply Z.leb_le; nia).
      reflexivity.
    + rewrite andb_false_r.
      replace (0 <=? Z.of_nat attempt) with true
        by (symmetry; apply Z.leb_le; lia).
      cbv zeta.
      replace (2 ^ 1024 <=? baseDelay * 2 ^ Z.of_nat attempt) with false
        by (symmetry; apply Z.leb_gt; nia).
      destruct (baseDelay * 2 ^ Z.of_nat attempt <=? - 2 ^ 1024);
        [reflexivity |].
      cbn [Math_min]. f_equal. nia.
Qed.

(** The formula alone gives 0 where the code computes [0 * Infinity]. *)
Lemma calculateBackoff_of_zero_is_NaN :
  calculateBackoff 1024 (Some 0) = NaN
  /\ Z.min (0 * 2 ^ 1024) 30000 = 0
  /\ calculateBackoff 1024 (Some (-1)) = NegInfinity.
Proof. repeat split. Qed.

Example calculateBackoff_negative_attempt :
  calculateBackoff (-3) (Some 1000) = Num 125
  /\ calculateBackoff (-4) (Some 1000) = Fraction 125 1.
Proof. split; reflexivity. Qed.


Lemma buildURL_loop (entries : list (string * ParamValue)) :
  forall queryParams : list string,
    fold_left
      (fun (queryParams : list string) (entry : string * ParamValue) =>
         let '(key, value) := entry in
         match value with
         | PNull | PUndefined => queryParams
         | _ => queryParams ++
                  [encodeURIComponent key +:+ "="
                   +:+ encodeURIComponent (String_ value)]
         end)
      entries queryParams
    = queryParams ++ List.map encodePair (List.filter present entries).
Proof.
  induction entries as [| [key value] entries IH]; intros queryParams; simpl.
  - symmetry. apply app_nil_r.
  - rewrite IH. unfold present at 2. simpl.
    destruct value; simpl; try reflexivity;
      rewrite <- app_assoc; reflexivity.
Qed.


Example buildURL_skips_null :
  buildURL "https://x/y" (Some [("a", PNull); ("b", PUndefined)]) = "https://x/y".
Proof. reflexivity. Qed.

Example buildURL_encodes_key :
  buildURL "/s" (Some [("a b", PString "c&d"); ("n", PNull); ("t", PBoolean true)])
  = "/s?a%20b=c%26d&t=true".
Proof. reflexivity. Qed.

(** The delay of a late attempt, the delay where [2 ** attempt] is
    [Infinity], and the delay of a negative base delay. *)
Lemma calculateBackoff_attempt_7 :
  calculateBackoff 7 (Some 1000) = 30000
  /\ calculateBackoff 2000 (Some 250) = Num (Z.min (250 * 2 ^ 2000) 30000)
  /\ calculateBackoff 3 (Some (-5)) = Num (-40).
Proof.
  destruct calculateBackoff_capped_exponential
    as (Hformula & _ & _ & Hcapped & Hnegative).
  split; [apply (Hcapped 7%nat); lia |].
  split; [apply (Hformula 2000%nat 250); lia |].
  change 3 with (Z.of_nat 3).
  rewrite (Hnegative 3%nat (-5)) by lia. reflexivity.
Defined.

(** ** throttling.ts *)

Lemma new_RequestQueue_maxQueueSize (config : QueueConfig) :
  maxQueueSize (rq_config (new_RequestQueue config))
  = orDefault (qc_maxQueueSize config) 100.
Proof. reflexivity. Qed.

(** A queue built with [maxQueueSize: 0] holds up to 100 entries: the first
    [enqueue] is accepted and its request is started. *)
Lemma enqueue_maxQueueSize_zero_accepted :
  maxQueueSize (rq_config (queueOfSize 0)) = 100
  /\ fst (enqueue 1000 getConfig (queueOfSize 0))
     = Return (0%nat, Started {| qr_config := getConfig; qr_promise := 0%nat;
                                 qr_priority := 0; qr_timestamp := 1000 |})
  /\ fst (enqueue 1000 getConfig (queueOfSize 0)) <> Throw "Request queue is full".
Proof.
  split; [reflexivity | split; [reflexivity | discriminate]].
Qed.

(** C7 (amended). [enqueue] rejects at once with the queue-full error
    whenever the queue holds at least its effective maximum of entries, and
    only then; the effective maximum of a queue is the [maxQueueSize] it was
    built with, or 100 when that is absent or 0. *)
Theorem enqueue_rejects_at_effective_maximum :
  forall (built : QueueConfig) (q : RequestQueue) (now : Z) (config : RequestConfig),
    rq_config q = rq_config (new_RequestQueue built) ->
    (orDefault (qc_maxQueueSize built) 100 <= Z.of_nat (length (queue q)) ->
     enqueue now config q = (Throw "Request queue is full", q))
    /\ (Z.of_nat (length (queue q)) < orDefault (qc_maxQueueSize built) 100 ->
        exists promise action, fst (enqueue now config q) = Return (promise, action)).
Proof.
  intros built q now0 config Hbuilt. unfold enqueue. rewrite Hbuilt.
  rewrite new_RequestQueue_maxQueueSize. split; intros H.
  - apply Z.leb_le in H. rewrite H. reflexivity.
  - apply Z.leb_gt in H. rewrite H.
    match goal with |- context [processQueue ?n ?p] =>
      destruct (processQueue n p) as [q' action] end.
    eauto.
Qed.

(** A queue of size one that already holds an entry rejects the next. *)
Lemma enqueue_rejects_second_of_one :
  let q1 := snd (enqueue 0 getConfig (queueOfSize 1)) in
  length (queue q1) = 1%nat
  /\ enqueue 0 getConfig q1 = (Throw "Request queue is full", q1).
Proof.
  split; [reflexivity |].
  apply (enqueue_rejects_at_effective_maximum
           {| qc_maxConcurrent := None; qc_maxQueueSize := Some 1;
              qc_requestsPerSecond := None; qc_priorityFn := None |}
           (snd (enqueue 0 getConfig (queueOfSize 1))) 0 getConfig).
  - reflexivity.
  - simpl. lia.
Defined.

(** ** http-service.ts: the trace of the building blocks *)

Lemma occurrences_app (kind : Event -> bool) (w1 w2 : Trace) :
  occurrences kind (w1 ++ w2) = (occurrences kind w1 + occurrences kind w2)%nat.
Proof.
  unfold occurrences. rewrite List.filter_app, List.length_app. reflexivity.
Qed.

Ltac unfold_io :=
  unfold bind, tryCatch, tryFinally, ret, throw, await, emit, earlier, sleep in *.

Lemma forInterceptors_trace {A : Type} (event : nat -> A -> Event)
      (interceptors : list (A -> Completion Exn A)) :
  forall (i : nat) (final : A) (w : Trace),
  exists c : Completion Exn A,
    forInterceptors event i interceptors final w
    = Some (c, w ++ interceptorEvents event i interceptors final).
Proof.
  induction interceptors as [| interceptor rest IH]; intros i final w; simpl.
  - exists (Return final). unfold ret. rewrite app_nil_r. reflexivity.
  - unfold_io. destruct (interceptor final) as [next | e].
    + destruct (IH (S i) next (w ++ [event i final])) as [c Hc].
      exists c. rewrite Hc, <- app_assoc. reflexivity.
    + exists (Throw e). reflexivity.
Qed.

Lemma forInterceptors_returned {A : Type} (event : nat -> A -> Event)
      (interceptors : list (A -> Completion Exn A)) :
  forall (i : nat) (final result : A) (w w' : Trace),
    forInterceptors event i interceptors final w = Some (Return result, w') ->
    length (interceptorEvents event i interceptors final) = length interceptors.
Proof.
  induction interceptors as [| interceptor rest IH]; intros i final result w w' H;
    simpl in *; [reflexivity |].
  unfold_io. destruct (interceptor final) as [next | e]; [| discriminate].
  f_equal. eapply IH. exact H.
Qed.

Lemma interceptorEvents_kind {A : Type} (event : nat -> A -> Event)
      (kind : Event -> bool) (interceptors : list (A -> Completion Exn A)) :
  (forall i x, kind (event i x) = true) ->
  forall (i : nat) (final : A),
    occurrences kind (interceptorEvents event i interceptors final)
    = length (interceptorEvents event i interceptors final).
Proof.
  intros Hkind. unfold occurrences.
  induction interceptors as [| interceptor rest IH]; intros i final; simpl;
    [reflexivity |].
  rewrite Hkind. simpl. f_equal.
  destruct (interceptor final); [apply IH | reflexivity].
Qed.

Lemma getAuthToken_trace (this : HttpService) (w : Trace) :
  exists (token : option string) (evs : list Event),
    getAuthToken this w = Some (Return token, w ++ evs)
    /\ (evs = [] \/ evs = [EvGetToken]).
Proof.
  unfold getAuthToken.
  destruct (authConfig this) as [[[getToken |] ? ? ?] |]; unfold_io.
  - destruct (getToken (occurrences isGetToken w)) as [token | e].
    + exists (Some token), [EvGetToken]. auto.
    + exists None, [EvGetToken]. auto.
  - exists None, []. rewrite app_nil_r. auto.
  - exists None, []. rewrite app_nil_r. auto.
Qed.

Lemma preparing_occurrences (kind : Event -> bool) (evs : list Event) :
  (forall ev, isPreparing ev = true -> kind ev = false) ->
  forallb isPreparing evs = true ->
  occurrences kind evs = 0%nat.
Proof.
  intros Hkind. unfold occurrences.
  induction evs as [| ev evs IH]; cbn; [reflexivity |].
  intros H. apply andb_prop in H as [Hev Hevs].
  rewrite (Hkind ev Hev). auto.
Qed.

Lemma preparing_counts (evs : list Event) :
  forallb isPreparing evs = true ->
  occurrences isFetch evs = 0%nat
  /\ occurrences isRefreshToken evs = 0%nat
  /\ occurrences isSleep evs = 0%nat
  /\ occurrences isErrorInterceptor evs = 0%nat.
Proof.
  intros H.
  repeat split; apply preparing_occurrences; try exact H;
    intros []; (discriminate || reflexivity).
Qed.

Lemma inService_trace {A : Type} (this : HttpService)
      (c : Completion (string * string) A) (w : Trace) :
  exists c' : Completion Exn A,
    inService this c w = Some (c', w)
    /\ match c with
       | Return a => c' = Return a
       | Throw (name, value) =>
           c' = Throw (ExnTypeError (headersTypeError this name value))
       end.
Proof.
  destruct c as [a | [name value]]; cbn; eexists; split; reflexivity.
Qed.

Lemma prepareHeaders_trace (this : HttpService) (config : RequestConfig)
      (w : Trace) :
  exists (c : Completion Exn Headers) (evs : list Event),
    prepareHeaders this config w = Some (c, w ++ evs)
    /\ forallb isPreparing evs = true
    /\ (cfg_skipAuth config = true -> occurrences isGetToken evs = 0%nat).
Proof.
  unfold prepareHeaders. unfold bind at 1.
  destruct (inService_trace this
              (mergeHeaders [Some (headers (this_config this)); cfg_headers config])
              w) as (c0 & Hmerge & _).
  rewrite Hmerge. destruct c0 as [merged | e];
    [| exists (Throw e), []; rewrite app_nil_r; auto].
  unfold bind at 1.
  assert (Hauth :
            exists (c1 : Completion Exn Headers) (evs1 : list Event),
              (if negb (cfg_skipAuth config)
               then
                 let* token := getAuthToken this in
                 match token with
                 | Some token =>
                     if negb (String.eqb token "")
                     then inService this
                            (HeadersSet "Authorization" ("Bearer " +:+ token) merged)
                     else ret merged
                 | None => ret merged
                 end
               else ret merged) w = Some (c1, w ++ evs1)
              /\ forallb isPreparing evs1 = true
              /\ (cfg_skipAuth config = true -> evs1 = [])).
  { destruct (cfg_skipAuth config); cbn [negb].
    - exists (Return merged), []. rewrite app_nil_r. auto.
    - destruct (getAuthToken_trace this w) as (token & evs & Htoken & Hevs).
      unfold bind. rewrite Htoken.
      assert (Hp : forallb isPreparing evs = true)
        by (destruct Hevs as [-> | ->]; reflexivity).
      destruct token as [token |];
        [| exists (Return merged), evs; repeat split; auto; discriminate].
      destruct (negb (String.eqb token ""));
        [| exists (Return merged), evs; repeat split; auto; discriminate].
      destruct (inService_trace this
                  (HeadersSet "Authorization" ("Bearer " +:+ token) merged)
                  (w ++ evs)) as (c1 & Hset & _).
      exists c1, evs. repeat split; auto; discriminate. }
  destruct Hauth as (c1 & evs1 & Hrun1 & Hp1 & Hskip1). rewrite Hrun1.
  destruct c1 as [authorized | e].
  2: { exists (Throw e), evs1. repeat split; auto.
       intros Hs. rewrite (Hskip1 Hs). reflexivity. }
  unfold bind at 1.
  assert (Hcsrf :
            exists (c2 : Completion Exn Headers) (evs2 : list Event),
              match csrfManager this with
              | Some csrf =>
                  if negb (cfg_skipCsrf config) then
                    if needsProtection csrf
                         (orDefaultString (cfg_method config) "GET")
                    then
                      let* n := earlier isAddCsrfToken in
                      emit (EvAddCsrfToken authorized);;
                      await (addTokenToHeaders csrf n authorized)
                    else ret authorized
                  else ret authorized
              | None => ret authorized
              end (w ++ evs1) = Some (c2, (w ++ evs1) ++ evs2)
              /\ forallb isPreparing evs2 = true
              /\ occurrences isGetToken evs2 = 0%nat).
  { destruct (csrfManager this) as [csrf |];
      [| exists (Return authorized), []; rewrite app_nil_r; auto].
    destruct (negb (cfg_skipCsrf config));
      [| exists (Return authorized), []; rewrite app_nil_r; auto].
    destruct (needsProtection csrf (orDefaultString (cfg_method config) "GET"));
      [| exists (Return authorized), []; rewrite app_nil_r; auto].
    unfold_io. eexists. exists [EvAddCsrfToken authorized]. auto. }
  destruct Hcsrf as (c2 & evs2 & Hrun2 & Hp2 & Hg2). cbv zeta. rewrite Hrun2.
  rewrite <- app_assoc.
  assert (Hp : forallb isPreparing (evs1 ++ evs2) = true)
    by (rewrite forallb_app, Hp1, Hp2; reflexivity).
  assert (Hg : cfg_skipAuth config = true ->
               occurrences isGetToken (evs1 ++ evs2) = 0%nat)
    by (intros Hs; rewrite (Hskip1 Hs); exact Hg2).
  destruct c2 as [protected | e]; [| exists (Throw e), (evs1 ++ evs2); auto].
  destruct (truthy (cfg_data config) && negb (HeadersHas "Content-Type" protected));
    [| exists (Return protected), (evs1 ++ evs2); auto].
  destruct (getContentType (cfg_data config)) as [contentType |];
    [| exists (Return protected), (evs1 ++ evs2); auto].
  destruct (inService_trace this (HeadersSet "Content-Type" contentType protected)
                            (w ++ evs1 ++ evs2)) as (c3 & Hset & _).
  exists c3, (evs1 ++ evs2). auto.
Qed.

Lemma executeRequest_trace (fetch : nat -> string -> Headers -> FetchOutcome)
      (url : string) (config : RequestConfig) (headers : Headers) (w : Trace) :
  exists c : Completion Exn HttpResponse,
    executeRequest fetch url config headers w
    = Some (c, w ++ [EvFetch url headers]).
Proof.
  unfold executeRequest. unfold_io.
  repeat match goal with
         | |- context [match ?x with _ => _ end] => destruct x
         end;
    eexists; reflexivity.
Qed.

(** A dispatch prepares the headers and then calls the transport once,
    unless preparing the headers throws. *)
Lemma dispatch_trace (fetch : nat -> string -> Headers -> FetchOutcome)
      (this : HttpService) (url : string) (config : RequestConfig) (w : Trace) :
  exists evs : list Event,
    forallb isPreparing evs = true
    /\ (cfg_skipAuth config = true -> occurrences isGetToken evs = 0%nat)
    /\ ((exists e : Exn,
            prepareHeaders this config w = Some (Throw e, w ++ evs)
            /\ dispatch fetch this url config w = Some (Throw e, w ++ evs))
        \/ (exists (c : Completion Exn HttpResponse) (headers : Headers),
               prepareHeaders this config w = Some (Return headers, w ++ evs)
               /\ executeRequest fetch url config headers (w ++ evs)
                  = Some (c, w ++ evs ++ [EvFetch url headers])
               /\ dispatch fetch this url config w
                  = Some (c, w ++ evs ++ [EvFetch url headers]))).
Proof.
  unfold dispatch.
  destruct (prepareHeaders_trace this config w) as (c0 & evs & Hh & Hevs & Hg).
  exists evs. split; [exact Hevs |]. split; [exact Hg |].
  destruct c0 as [headers | e].
  - right.
    destruct (executeRequest_trace fetch url config headers (w ++ evs)) as [c Hc].
    exists c, headers. split; [exact Hh |].
    rewrite <- app_assoc in Hc. split; [exact Hc |].
    unfold bind. rewrite Hh, Hc. reflexivity.
  - left. exists e. split; [exact Hh |].
    unfold bind. rewrite Hh. reflexivity.
Qed.

Lemma refreshAuthToken_trace (this : HttpService) (w : Trace) :
  exists (c : Completion Exn (option string)) (evs : list Event),
    refreshAuthToken this w = Some (c, w ++ evs)
    /\ occurrences isRefreshToken evs = (if refreshConfigured this then 1 else 0)%nat
    /\ occurrences isFetch evs = 0%nat.
Proof.
  unfold refreshAuthToken, refreshConfigured.
  destruct (authConfig this) as [[? [refreshToken |] onTokenRefresh onAuthError] |];
    unfold_io;
    try (eexists; exists []; rewrite app_nil_r; repeat split; reflexivity).
  destruct (refreshToken (occurrences isRefreshToken w)) as [token | e].
  - destruct onTokenRefresh as [refreshed |].
    + destruct (refreshed token) as [[] | e'].
      * rewrite <- ?app_assoc. eexists; eexists.
        split; [reflexivity |]. split; reflexivity.
      * destruct onAuthError as [failed |]; [destruct (failed e') as [[] | e''] |];
          rewrite <- ?app_assoc; eexists; eexists;
          (split; [reflexivity |]); split; reflexivity.
    + eexists; eexists. split; [reflexivity |]. split; reflexivity.
  - destruct onAuthError as [failed |]; [destruct (failed e) as [[] | e'] |];
      rewrite <- ?app_assoc; eexists; eexists;
      (split; [reflexivity |]); split; reflexivity.
Qed.

Lemma dispatch_counts (fetch : nat -> string -> Headers -> FetchOutcome)
      (this : HttpService) (url : string) (config : RequestConfig)
      (w w' : Trace) (c : Completion Exn HttpResponse) :
  dispatch fetch this url config w = Some (c, w') ->
  (occurrences isFetch w <= occurrences isFetch w' <= occurrences isFetch w + 1)%nat
  /\ occurrences isRefreshToken w' = occurrences isRefreshToken w.
Proof.
  intros H.
  destruct (dispatch_trace fetch this url config w)
    as (evs & Hevs & _ & [(e & _ & Hrun) | (c0 & headers & _ & _ & Hrun)]);
    rewrite Hrun in H; injection H as _ <-;
    destruct (preparing_counts evs Hevs) as (Hf & Hr & _);
    rewrite !occurrences_app, Hf, Hr; cbn; lia.
Qed.

(** A dispatch that returns a response has called the transport. *)
Lemma dispatch_returned (fetch : nat -> string -> Headers -> FetchOutcome)
      (this : HttpService) (url : string) (config : RequestConfig)
      (w w' : Trace) (response : HttpResponse) :
  dispatch fetch this url config w = Some (Return response, w') ->
  occurrences isFetch w' = (occurrences isFetch w + 1)%nat.
Proof.
  intros H.
  destruct (dispatch_trace fetch this url config w)
    as (evs & Hevs & _ & [(e & _ & Hrun) | (c0 & headers & _ & _ & Hrun)]);
    rewrite Hrun in H; [discriminate |]. injection H as _ <-.
  destruct (preparing_counts evs Hevs) as (Hf & _).
  rewrite !occurrences_app, Hf. cbn. lia.
Qed.

Lemma dispatch_returns (fetch : nat -> string -> Headers -> FetchOutcome)
      (this : HttpService) (url : string) (config : RequestConfig) (w : Trace) :
  exists c w', dispatch fetch this url config w = Some (c, w').
Proof.
  destruct (dispatch_trace fetch this url config w)
    as (evs & _ & _ & [(e & _ & Hrun) | (c & headers & _ & _ & Hrun)]); eauto.
Qed.

Lemma makeRequestWithAuth_unfold
      (fetch : nat -> string -> Headers -> FetchOutcome) (this : HttpService)
      (fuel : nat) (url : string) (config : RequestConfig) (attempt : Z) :
  makeRequestWithAuth fetch this (S fuel) url config attempt
  = tryCatch
      (dispatch fetch this url config)
      (fun error =>
         if isStatus401 error && negb (cfg_skipAuth config) && (attempt =? 0)
         then
           let* newToken := refreshAuthToken this in
           match newToken with
           | Some token =>
               if negb (String.eqb token "")
               then makeRequestWithAuth fetch this fuel url config (attempt + 1)
               else throw error
           | None => throw error
           end
         else throw error).
Proof. reflexivity. Qed.

(** After the refresh, the second call of [makeRequestWithAuth] is one
    dispatch whose outcome stands. *)
Lemma makeRequestWithAuth_second
      (fetch : nat -> string -> Headers -> FetchOutcome) (this : HttpService)
      (fuel : nat) (url : string) (config : RequestConfig) (w : Trace) :
  makeRequestWithAuth fetch this (S fuel) url config (0 + 1) w
  = dispatch fetch this url config w.
Proof.
  rewrite makeRequestWithAuth_unfold. unfold tryCatch.
  destruct (dispatch fetch this url config w) as [[[response | error] w'] |];
    try reflexivity.
  change (0 + 1 =? 0) with false. rewrite andb_false_r. reflexivity.
Qed.

(** [makeRequestWithAuth] always settles on the fuel [makeRequest] gives it. *)
Lemma makeRequestWithAuth_returns
      (fetch : nat -> string -> Headers -> FetchOutcome) (this : HttpService)
      (url : string) (config : RequestConfig) (w : Trace) :
  exists c w', makeRequestWithAuth fetch this authFuel url config 0 w = Some (c, w').
Proof.
  unfold authFuel. rewrite makeRequestWithAuth_unfold. unfold tryCatch.
  destruct (dispatch_returns fetch this url config w) as (c & w1 & Hd).
  rewrite Hd. destruct c as [response | error]; [eauto |].
  destruct (isStatus401 error && negb (cfg_skipAuth config) && (0 =? 0));
    [| unfold throw; eauto].
  unfold bind.
  destruct (refreshAuthToken_trace this w1) as (r & evs & Hr & _).
  rewrite Hr. destruct r as [[token |] | e]; unfold throw; eauto.
  destruct (negb (String.eqb token "")); eauto.
  rewrite makeRequestWithAuth_second. apply dispatch_returns.
Qed.

(** C3 (amended). In one run of [makeRequestWithAuth] from attempt 0, that
    is once per backoff attempt, when the dispatch fails with status 401 and
    the request has not set [skipAuth]: [refreshAuthToken] runs once, calling
    the configured refresh function once when there is one; a truthy new
    token leads to exactly one more dispatch, whose outcome is the outcome of
    the run, so a second 401 propagates with no second refresh; without a new
    token the first 401 propagates. The run makes at most two dispatches. *)
Theorem refresh_once_per_auth_attempt :
  forall (fetch : nat -> string -> Headers -> FetchOutcome) (this : HttpService)
         (url : string) (config : RequestConfig) (w w1 : Trace) (error : Exn),
    cfg_skipAuth config = false ->
    dispatch fetch this url config w = Some (Throw error, w1) ->
    isStatus401 error = true ->
    exists (refreshed : Completion Exn (option string)) (w2 : Trace),
      refreshAuthToken this w1 = Some (refreshed, w2)
      /\ occurrences isRefreshToken w2
         = (occurrences isRefreshToken w
            + (if refreshConfigured this then 1 else 0))%nat
      /\ makeRequestWithAuth fetch this authFuel url config 0 w
         = match refreshed with
           | Return (Some token) =>
               if negb (String.eqb token "")
               then dispatch fetch this url config w2
               else Some (Throw error, w2)
           | Return None => Some (Throw error, w2)
           | Throw e => Some (Throw e, w2)
           end
      /\ forall (c : Completion Exn HttpResponse) (w' : Trace),
          makeRequestWithAuth fetch this authFuel url config 0 w = Some (c, w') ->
          occurrences isRefreshToken w' = occurrences isRefreshToken w2
          /\ (occurrences isFetch w' <= occurrences isFetch w + 2)%nat.
Proof.
  intros fetch this url config w w1 error Hskip Hfirst H401.
  destruct (refreshAuthToken_trace this w1) as (refreshed & evs & Hr & Hn & Hf).
  destruct (dispatch_counts _ _ _ _ _ _ _ Hfirst) as [Hfetch1 Hrefresh1].
  exists refreshed, (w1 ++ evs).
  assert (Hrun :
            makeRequestWithAuth fetch this authFuel url config 0 w
            = match refreshed with
              | Return (Some token) =>
                  if negb (String.eqb token "")
                  then dispatch fetch this url config (w1 ++ evs)
                  else Some (Throw error, w1 ++ evs)
              | Return None => Some (Throw error, w1 ++ evs)
              | Throw e => Some (Throw e, w1 ++ evs)
              end).
  { unfold authFuel. rewrite makeRequestWithAuth_unfold. unfold tryCatch.
    rewrite Hfirst, H401, Hskip. cbn [negb andb Z.eqb]. unfold bind.
    rewrite Hr. destruct refreshed as [[token |] | e]; try reflexivity.
    destruct (negb (String.eqb token "")); [| reflexivity].
    apply makeRequestWithAuth_second. }
  split; [exact Hr |]. split; [| split; [exact Hrun |]].
  - rewrite occurrences_app, Hn, Hrefresh1. reflexivity.
  - intros c w' Hc. rewrite Hrun in Hc.
    assert (Hfetch2 : (occurrences isFetch (w1 ++ evs)
                       <= occurrences isFetch w + 1)%nat)
      by (rewrite occurrences_app, Hf; lia).
    destruct refreshed as [[token |] | e];
      try (injection Hc as _ <-; split; [reflexivity | lia]).
    destruct (negb (String.eqb token ""));
      [| injection Hc as _ <-; split; [reflexivity | lia]].
    destruct (dispatch_counts _ _ _ _ _ _ _ Hc) as [Hf3 Hr3].
    split; [exact Hr3 | lia].
Qed.

(** A logical call that meets 401, 503 and 401 again refreshes the token
    twice and makes two auth-retried dispatches: the backoff retry starts
    [makeRequestWithAuth] again from attempt 0. *)
Lemma refresh_twice_in_one_call :
  traceAfter (request (script [unauthorized; unavailable; unauthorized; okResponse])
                      authService "/me" getConfig initialWorld)
  = Some [EvFetch "/me" []; EvRefreshToken; EvFetch "/me" [];
          EvSleep 1000;
          EvFetch "/me" []; EvRefreshToken; EvFetch "/me" []]
  /\ (occurrences isRefreshToken
        <$> traceAfter (request (script [unauthorized; unavailable;
                                         unauthorized; okResponse])
                                authService "/me" getConfig initialWorld))
     = Some 2%nat.
Proof. split; vm_compute; reflexivity. Qed.

(** Two 401s in a row: one refresh, two dispatches, the second 401 is thrown. *)
Lemma second_401_propagates :
  exists w' : Trace,
    makeRequestWithAuth (script [unauthorized; unauthorized]) authService
                        authFuel "/me" getConfig 0 []
    = Some (Throw (ExnHttpServiceError
                     (new_AuthenticationError "HTTP 401: Unauthorized" 401)), w')
    /\ occurrences isRefreshToken w' = 1%nat
    /\ occurrences isFetch w' = 2%nat.
Proof.
  destruct (refresh_once_per_auth_attempt
              (script [unauthorized; unauthorized]) authService "/me" getConfig
              [] [EvFetch "/me" []]
              (ExnHttpServiceError
                 (new_AuthenticationError "HTTP 401: Unauthorized" 401))
              eq_refl eq_refl eq_refl)
    as (refreshed & w2 & Hr & _ & Hrun & _).
  vm_compute in Hr. injection Hr as <- <-.
  eexists. split; [rewrite Hrun; vm_compute; reflexivity |].
  split; reflexivity.
Defined.

(** ** http-service.ts: error handling and the retry loop *)

Lemma handleRequestError_returns (this : HttpService) (error : Exn)
      (config : RequestConfig) (w : Trace) :
  exists c w', handleRequestError this error config w = Some (c, w').
Proof.
  unfold handleRequestError.
  repeat match goal with
         | |- context [if ?b then _ else _] => destruct b
         end;
    try (unfold throw; eauto).
  unfold applyErrorInterceptors.
  destruct (forInterceptors_trace EvErrorInterceptor (errorInterceptors this)
                                  0%nat (wrapError error config) w) as [c Hc].
  eauto.
Qed.

(** When [handleRequestError] returns, the whole chain of error
    interceptors has run on the wrapped error. *)
Lemma handleRequestError_returned (this : HttpService) (error : Exn)
      (config : RequestConfig) (w w' : Trace) (processedError : HttpServiceError) :
  handleRequestError this error config w = Some (Return processedError, w') ->
  w' = w ++ interceptorEvents EvErrorInterceptor 0 (errorInterceptors this)
                              (wrapError error config)
  /\ length (interceptorEvents EvErrorInterceptor 0 (errorInterceptors this)
                               (wrapError error config))
     = length (errorInterceptors this).
Proof.
  unfold handleRequestError.
  repeat match goal with
         | |- context [if ?b then _ else _] => destruct b
         end;
    try (unfold throw; discriminate).
  unfold applyErrorInterceptors. intros H. split.
  - destruct (forInterceptors_trace EvErrorInterceptor (errorInterceptors this)
                                    0%nat (wrapError error config) w) as [c Hc].
    rewrite Hc in H. injection H as _ <-. reflexivity.
  - eapply forInterceptors_returned. exact H.
Qed.

Lemma makeRequest_unfold
      (fetch : nat -> string -> Headers -> FetchOutcome) (this : HttpService)
      (fuel : nat) (url : string) (config : RequestConfig) (attempt : Z) :
  makeRequest fetch this (S fuel) url config attempt
  = tryCatch
      (makeRequestWithAuth fetch this authFuel url config 0)
      (fun error =>
         let* processedError := handleRequestError this error config in
         if (attempt <? default (retries (this_config this)) (cfg_retries config))
            && shouldRetry processedError
         then
           sleep (calculateBackoff attempt
                    (Some (orDefault (cfg_retryDelay config)
                                     (retryDelay (this_config this)))));;
           makeRequest fetch this fuel url config (attempt + 1)
         else throw (ExnHttpServiceError processedError)).
Proof. reflexivity. Qed.

(** [makeRequest] settles: the fuel covers every retry left. *)
Lemma makeRequest_returns
      (fetch : nat -> string -> Headers -> FetchOutcome) (this : HttpService)
      (url : string) (config : RequestConfig) :
  forall (fuel : nat) (attempt : Z) (w : Trace),
    (Z.to_nat (default (retries (this_config this)) (cfg_retries config) - attempt)
     < fuel)%nat ->
    exists c w', makeRequest fetch this fuel url config attempt w = Some (c, w').
Proof.
  induction fuel as [| fuel IH]; intros attempt w Hfuel; [lia |].
  rewrite makeRequest_unfold. unfold tryCatch.
  destruct (makeRequestWithAuth_returns fetch this url config w) as (c & w1 & Ha).
  rewrite Ha. destruct c as [response | error]; [eauto |].
  unfold bind at 1.
  destruct (handleRequestError_returns this error config w1) as (c & w2 & Hh).
  rewrite Hh. destruct c as [processedError | e]; [| eauto].
  destruct (attempt <? default (retries (this_config this)) (cfg_retries config))
    eqn:Hlt; cbn [andb]; [| unfold throw; eauto].
  destruct (shouldRetry processedError); [| unfold throw; eauto].
  unfold bind, sleep, emit. apply IH.
  apply Z.ltb_lt in Hlt. lia.
Qed.

Lemma makeRequest_settles
      (fetch : nat -> string -> Headers -> FetchOutcome) (this : HttpService)
      (url : string) (config : RequestConfig) (w : Trace) :
  exists c w',
    makeRequest fetch this (retryFuel this config) url config 0 w = Some (c, w').
Proof.
  apply makeRequest_returns. unfold retryFuel. rewrite Z.sub_0_r. lia.
Qed.

(** The retry predicate reads the flags and the status of the processed
    error ([0] standing for an absent status): no retry for a status in
    [400,500); otherwise a retry for a network error, a timeout error or a
    status from 500. *)
Lemma shouldRetry_spec (error : HttpServiceError) :
  let status := default 0 (err_status error) in
  shouldRetry error = true
  <-> ~ (400 <= status < 500)
      /\ (isNetworkError error = true \/ isTimeoutError error = true
          \/ 500 <= status).
Proof.
  cbv zeta. unfold shouldRetry.
  destruct (Z.eqb_spec (default 0 (err_status error)) 0),
           (Z.leb_spec 400 (default 0 (err_status error))),
           (Z.ltb_spec (default 0 (err_status error)) 500),
           (Z.leb_spec 500 (default 0 (err_status error))),
           (isNetworkError error), (isTimeoutError error);
    cbn; split; intros Hretry; try discriminate; try lia; try reflexivity;
    try (split; [lia | auto]);
    try (destruct Hretry as [Hno [Hyes | [Hyes | Hyes]]];
         first [discriminate | lia]).
Qed.

(** A rejection that [handleRequestError] rethrows ends [makeRequest] at
    once, whatever the attempt and the retries left. *)
Lemma makeRequest_rethrown_not_retried
      (fetch : nat -> string -> Headers -> FetchOutcome) (this : HttpService)
      (fuel : nat) (url : string) (config : RequestConfig) (attempt : Z)
      (w w1 w2 : Trace) (error rethrown : Exn) :
  makeRequestWithAuth fetch this authFuel url config 0 w = Some (Throw error, w1) ->
  handleRequestError this error config w1 = Some (Throw rethrown, w2) ->
  makeRequest fetch this (S fuel) url config attempt w = Some (Throw rethrown, w2).
Proof.
  intros Ha Hh. rewrite makeRequest_unfold. unfold tryCatch, bind.
  rewrite Ha, Hh. reflexivity.
Qed.

(** A [TypeError] of [fetch] is rethrown as a [NetworkError]: it never
    reaches [shouldRetry]. *)
Lemma handleRequestError_fetch_TypeError (this : HttpService)
      (config : RequestConfig) (w : Trace) :
  handleRequestError this (ExnTypeError "fetch failed") config w
  = Some (Throw (ExnHttpServiceError (new_NetworkError "Network error occurred")), w)
  /\ shouldRetry (new_NetworkError "Network error occurred") = true.
Proof. split; reflexivity. Qed.

Example server_error_retried_to_the_maximum :
  traceAfter (request (script [unavailable; unavailable; unavailable;
                               unavailable; unavailable])
                      defaultService "/users" getConfig initialWorld)
  = Some [EvFetch "/users" []; EvSleep 1000; EvFetch "/users" []; EvSleep 2000;
          EvFetch "/users" []; EvSleep 4000; EvFetch "/users" []].
Proof. vm_compute. reflexivity. Qed.

Example client_error_fails_on_first_attempt :
  traceAfter (request (script [notFound]) defaultService "/users/999" getConfig
                      initialWorld)
  = Some [EvFetch "/users/999" []].
Proof. vm_compute. reflexivity. Qed.

(** A timeout of the service's own timer becomes an [AbortError] with
    [isAbortError] set, not a timeout error: it is not retried either. *)
Example timeout_is_not_retried :
  traceAfter (request (script [timedOut; okResponse]) defaultService "/users"
                      getConfig initialWorld)
  = Some [EvFetch "/users" []]
  /\ outcomeOf (request (script [timedOut; okResponse]) defaultService "/users"
                        getConfig initialWorld)
     = Some (Throw (ExnHttpServiceError (new_AbortError "Request timeout"))).
Proof. split; vm_compute; reflexivity. Qed.

(** A 511 whose status text has the word [Network] in it is rethrown as a
    [NetworkError] too, and so is not retried. *)
Example status_511_is_not_retried :
  traceAfter (request (script [networkAuthenticationRequired; okResponse])
                      defaultService "/users" getConfig initialWorld)
  = Some [EvFetch "/users" []].
Proof. vm_compute. reflexivity. Qed.

(** C1 (the code at the failing input). The transport rejects with the
    [TypeError] of a failed [fetch]; the service allows 3 retries. The call
    makes one dispatch, does not sleep, and rejects with a [NetworkError]:
    the network failure is not retried. *)
Theorem network_exception_is_not_retried :
  retries (config defaultService) = 3
  /\ outcomeOf (request (script [fetchFailed; okResponse]) defaultService
                        "/users" getConfig initialWorld)
     = Some (Throw (ExnHttpServiceError (new_NetworkError "Network error occurred")))
  /\ traceAfter (request (script [fetchFailed; okResponse]) defaultService
                         "/users" getConfig initialWorld)
     = Some [EvFetch "/users" []].
Proof. repeat split; vm_compute; reflexivity. Qed.

(** With an error interceptor registered, a 503 that is then retried has
    gone through the interceptor before the backoff sleep. *)
Lemma error_interceptor_sees_retried_failure :
  traceAfter (request (script [unavailable; okResponse]) observedService
                      "/users" getConfig initialWorld)
  = Some [EvFetch "/users" [];
          EvErrorInterceptor 0 (new_ServerError "HTTP 503: Service Unavailable" 503);
          EvSleep 1000;
          EvFetch "/users" []]
  /\ (exists response,
         outcomeOf (request (script [unavailable; okResponse]) observedService
                            "/users" getConfig initialWorld)
         = Some (Return (Responded response))).
Proof. split; [vm_compute; reflexivity | eexists; vm_compute; reflexivity]. Qed.

(** C6 (amended). Every failure of an attempt that [handleRequestError]
    wraps goes through all registered error interceptors, in registration
    order, before the retry decision, which is taken on their result: a
    failure that is then retried has been through them like the final one. *)
Theorem error_interceptors_run_before_retry_decision :
  forall (fetch : nat -> string -> Headers -> FetchOutcome) (this : HttpService)
         (fuel : nat) (url : string) (config : RequestConfig) (attempt : Z)
         (w w1 w2 : Trace) (error : Exn) (processedError : HttpServiceError),
    makeRequestWithAuth fetch this authFuel url config 0 w = Some (Throw error, w1) ->
    handleRequestError this error config w1 = Some (Return processedError, w2) ->
    w2 = w1 ++ interceptorEvents EvErrorInterceptor 0 (errorInterceptors this)
                                 (wrapError error config)
    /\ occurrences isErrorInterceptor w2
       = (occurrences isErrorInterceptor w1 + length (errorInterceptors this))%nat
    /\ makeRequest fetch this (S fuel) url config attempt w
       = if (attempt <? default (retries (this_config this)) (cfg_retries config))
            && shouldRetry processedError
         then makeRequest fetch this fuel url config (attempt + 1)
                (w2 ++ [EvSleep (calculateBackoff attempt
                                   (Some (orDefault (cfg_retryDelay config)
                                            (retryDelay (this_config this)))))])
         else Some (Throw (ExnHttpServiceError processedError), w2).
Proof.
  intros fetch this fuel url config attempt w w1 w2 error processedError Ha Hh.
  destruct (handleRequestError_returned _ _ _ _ _ _ Hh) as [Hw2 Hlen].
  split; [exact Hw2 |]. split.
  - rewrite Hw2, occurrences_app.
    rewrite (interceptorEvents_kind EvErrorInterceptor isErrorInterceptor);
      [rewrite Hlen; reflexivity | reflexivity].
  - rewrite makeRequest_unfold. unfold tryCatch, bind at 1.
    rewrite Ha, Hh.
    destruct ((attempt <? default (retries (this_config this)) (cfg_retries config))
              && shouldRetry processedError); reflexivity.
Qed.

(** The 503 of the example above is retried after its interceptor ran. *)
Lemma retried_503_passed_interceptor :
  let w1 := [EvFetch "/users" []] in
  let w2 := w1 ++ [EvErrorInterceptor 0
                     (new_ServerError "HTTP 503: Service Unavailable" 503)] in
  makeRequest (script [unavailable; okResponse]) observedService 4 "/users"
              getConfig 0 []
  = makeRequest (script [unavailable; okResponse]) observedService 3 "/users"
                getConfig 1 (w2 ++ [EvSleep 1000]).
Proof.
  cbv zeta.
  apply (proj2 (proj2 (error_interceptors_run_before_retry_decision
                         (script [unavailable; okResponse]) observedService 3
                         "/users" getConfig 0 [] [EvFetch "/users" []]
                         ([EvFetch "/users" []]
                            ++ [EvErrorInterceptor 0
                                  (new_ServerError
                                     "HTTP 503: Service Unavailable" 503)])
                         (ExnHttpServiceError
                            (new_ServerError "HTTP 503: Service Unavailable" 503))
                         (new_ServerError "HTTP 503: Service Unavailable" 503)
                         eq_refl eq_refl))).
Defined.

(** ** A [Map] as the list of its entries *)

Lemma MapGet_cons {V : Type} (key k : string) (v : V) (m : list (string * V)) :
  MapGet key ((k, v) :: m) = if String.eqb k key then Some v else MapGet key m.
Proof. unfold MapGet. simpl. destruct (String.eqb k key); reflexivity. Qed.

Lemma MapGet_MapSet_eq {V : Type} (key : string) (v : V) (m : list (string * V)) :
  MapGet key (MapSet key v m) = Some v.
Proof.
  induction m as [| [k v'] m IH]; simpl.
  - rewrite MapGet_cons, String.eqb_refl. reflexivity.
  - destruct (String.eqb k key) eqn:Hk; rewrite MapGet_cons, Hk; auto.
Qed.

Lemma MapGet_MapSet_ne {V : Type} (key key' : string) (v : V)
      (m : list (string * V)) :
  key <> key' -> MapGet key' (MapSet key v m) = MapGet key' m.
Proof.
  intros Hne. induction m as [| [k v'] m IH]; simpl.
  - rewrite MapGet_cons. apply String.eqb_neq in Hne. rewrite Hne. reflexivity.
  - destruct (String.eqb_spec k key) as [-> | Hk]; rewrite !MapGet_cons.
    + apply String.eqb_neq in Hne. rewrite Hne. reflexivity.
    + rewrite IH. reflexivity.
Qed.

Lemma MapGet_MapDelete_eq {V : Type} (key : string) (m : list (string * V)) :
  MapGet key (MapDelete key m) = None.
Proof.
  unfold MapDelete. induction m as [| [k v] m IH]; simpl; [reflexivity |].
  destruct (String.eqb k key) eqn:Hk; simpl; [exact IH |].
  rewrite MapGet_cons, Hk. exact IH.
Qed.

Lemma MapGet_MapDelete_ne {V : Type} (key key' : string) (m : list (string * V)) :
  key <> key' -> MapGet key' (MapDelete key m) = MapGet key' m.
Proof.
  intros Hne. unfold MapDelete.
  induction m as [| [k v] m IH]; simpl; [reflexivity |].
  destruct (String.eqb_spec k key) as [-> | Hk]; simpl; rewrite !MapGet_cons.
  - apply String.eqb_neq in Hne. rewrite Hne. exact IH.
  - rewrite IH. reflexivity.
Qed.

Lemma MapGet_Some_In {V : Type} (key : string) (v : V) (m : list (string * V)) :
  MapGet key m = Some v -> In (key, v) m.
Proof.
  induction m as [| [k v'] m IH]; [discriminate |].
  rewrite MapGet_cons. destruct (String.eqb_spec k key) as [-> | Hk].
  - intros [= ->]. left. reflexivity.
  - intros H. right. auto.
Qed.

Lemma MapGet_None_keys {V : Type} (key : string) (m : list (string * V)) :
  MapGet key m = None <-> ~ In key (List.map fst m).
Proof.
  induction m as [| [k v] m IH]; simpl.
  - split; [intros _ [] | reflexivity].
  - rewrite MapGet_cons. destruct (String.eqb_spec k key) as [-> | Hk].
    + split; [discriminate | intros H; exfalso; apply H; left; reflexivity].
    + rewrite IH. split; [intros H [Heq | Hin]; auto | intros H Hin; auto].
Qed.

Lemma MapHas_keys {V : Type} (key : string) (m : list (string * V)) :
  MapHas key m = true <-> In key (List.map fst m).
Proof.
  unfold MapHas. destruct (MapGet key m) as [v |] eqn:Hget.
  - split; [intros _ | reflexivity].
    apply MapGet_Some_In in Hget. apply (List.in_map fst) in Hget. exact Hget.
  - split; [discriminate |]. intros Hin.
    apply MapGet_None_keys in Hget. contradiction.
Qed.

Lemma keys_MapDelete {V : Type} (key : string) (m : list (string * V)) :
  List.map fst (MapDelete key m)
  = List.filter (fun k => negb (String.eqb k key)) (List.map fst m).
Proof.
  unfold MapDelete. induction m as [| [k v] m IH]; simpl; [reflexivity |].
  destruct (String.eqb k key); simpl; congruence.
Qed.

Lemma keys_MapSet {V : Type} (key : string) (v : V) (m : list (string * V)) :
  List.map fst (MapSet key v m)
  = if MapHas key m then List.map fst m else List.map fst m ++ [key].
Proof.
  unfold MapHas. induction m as [| [k v'] m IH]; simpl; [reflexivity |].
  rewrite MapGet_cons. destruct (String.eqb k key) eqn:Hk; simpl; [reflexivity |].
  rewrite IH. destruct (MapGet key m); reflexivity.
Qed.

Lemma length_MapSet {V : Type} (key : string) (v : V) (m : list (string * V)) :
  length (MapSet key v m) = if MapHas key m then length m else S (length m).
Proof.
  rewrite <- (List.length_map fst (MapSet key v m)), keys_MapSet.
  destruct (MapHas key m); rewrite ?List.length_app, List.length_map; simpl; lia.
Qed.

Lemma length_MapDelete_le {V : Type} (key : string) (m : list (string * V)) :
  (length (MapDelete key m) <= length m)%nat.
Proof. unfold MapDelete. apply List.filter_length_le. Qed.

Lemma length_MapDelete_lt {V : Type} (key : string) (m : list (string * V)) :
  In key (List.map fst m) -> (length (MapDelete key m) < length m)%nat.
Proof.
  unfold MapDelete. induction m as [| [k v] m IH]; simpl; [intros [] |].
  destruct (String.eqb_spec k key) as [-> | Hk]; simpl.
  - intros _. pose proof (List.filter_length_le
                           (fun kv : string * V => negb (String.eqb (fst kv) key)) m).
    lia.
  - intros [Heq | Hin]; [contradiction |]. apply IH in Hin. lia.
Qed.

Lemma NoDup_keys_MapDelete {V : Type} (key : string) (m : list (string * V)) :
  List.NoDup (List.map fst m) -> List.NoDup (List.map fst (MapDelete key m)).
Proof. rewrite keys_MapDelete. apply List.NoDup_filter. Qed.

Lemma NoDup_keys_MapSet {V : Type} (key : string) (v : V) (m : list (string * V)) :
  List.NoDup (List.map fst m) -> List.NoDup (List.map fst (MapSet key v m)).
Proof.
  intros Hnd. rewrite keys_MapSet. destruct (MapHas key m) eqn:Hhas; [exact Hnd |].
  apply List.NoDup_app; [exact Hnd | |].
  - constructor; [intros [] | constructor].
  - intros k Hin [<- | []]. apply MapHas_keys in Hin. congruence.
Qed.

(** Deleting the key of an entry of a map with unique keys removes that
    entry and nothing else. *)
Lemma MapDelete_unique {V : Type} (key : string) (v : V)
      (l1 l2 : list (string * V)) :
  List.NoDup (List.map fst (l1 ++ (key, v) :: l2)) ->
  MapDelete key (l1 ++ (key, v) :: l2) = l1 ++ l2.
Proof.
  intros Hnd. unfold MapDelete.
  rewrite List.filter_app. simpl. rewrite String.eqb_refl. simpl.
  rewrite List.map_app in Hnd. simpl in Hnd.
  apply List.NoDup_remove_2 in Hnd.
  assert (Hkeep : forall l : list (string * V),
             ~ In key (List.map fst l) ->
             List.filter (fun kv => negb (String.eqb (fst kv) key)) l = l).
  { induction l as [| [k v0] l IH]; simpl; [reflexivity |].
    intros Hnot. destruct (String.eqb_spec k key) as [-> | Hk].
    - exfalso. apply Hnot. left. reflexivity.
    - simpl. rewrite IH; [reflexivity |]. intros Hin. apply Hnot. right. exact Hin. }
  rewrite !Hkeep; [reflexivity | |];
    intros Hin; apply Hnd; apply List.in_or_app; auto.
Qed.

(** ** cache.ts: what [set] leaves *)


Lemma set_shape (now : Z) (keyOrUrl : string) (data : JsValue)
      (optionsOrTtl : HttpCache.OptionsOrTtl) (ttl : option Z) (c : HttpCache.t) :
  let key := HttpCache.setKey keyOrUrl optionsOrTtl in
  let c1 := if (HttpCache.maxSize c <=? Z.of_nat (length (HttpCache.cache c)))
               && negb (MapHas key (HttpCache.cache c))
            then HttpCache.evictLRU c else c in
  HttpCache.set now keyOrUrl data optionsOrTtl ttl c
  = HttpCache.withCache c1
      (MapSet key {| ce_data := data; ce_timestamp := now;
                     ce_ttl := HttpCache.setTtl optionsOrTtl ttl c;
                     ce_lastAccessed := Some now |} (HttpCache.cache c1)).
Proof. destruct optionsOrTtl; reflexivity. Qed.

(** ** http-service.ts: the cache *)

Lemma getCachedResponse_inv (this : HttpService) (fullURL : string)
      (processedConfig : RequestConfig) (w w' : World)
      (c : Completion Exn (option HttpResponse)) :
  getCachedResponse this fullURL processedConfig w = Some (c, w') ->
  trace w' = trace w /\ now w' = now w
  /\ pendingRequests (service w') = pendingRequests (service w)
  /\ promises (service w') = promises (service w)
  /\ exists o, c = Return o.
Proof.
  unfold getCachedResponse.
  destruct (negb (enableCache (this_config this)) || cfg_skipCache processedConfig
            || methodIsNotGet processedConfig).
  - unfold ret. intros [= <- <-]. eauto 10.
  - unfold bind, Date_now, getService, modifyService, ret.
    destruct (HttpCache.get (now w) fullURL (Some processedConfig)
                            (cache (service w))) as [cached cache'].
    destruct (truthy cached); intros [= <- <-]; cbn; eauto 10.
Qed.

Lemma cacheResponse_data_only (this : HttpService) (fullURL : string)
      (response1 response2 : HttpResponse) (processedConfig : RequestConfig) :
  resp_data response1 = resp_data response2 ->
  cacheResponse this fullURL response1 processedConfig
  = cacheResponse this fullURL response2 processedConfig.
Proof. unfold cacheResponse. intros ->. reflexivity. Qed.

(** C10. A response that [getCachedResponse] serves has status 200, status
    text [OK], no headers, and the cached payload as its data; what is
    stored for a response is its data alone, so the status text and headers
    of the response that filled the cache are gone. *)
Theorem cache_hit_has_synthesized_metadata :
  forall (this : HttpService) (fullURL : string) (processedConfig : RequestConfig)
         (w w' : World) (cachedResponse : HttpResponse),
    getCachedResponse this fullURL processedConfig w
    = Some (Return (Some cachedResponse), w') ->
    resp_status cachedResponse = 200
    /\ resp_statusText cachedResponse = "OK"
    /\ resp_headers cachedResponse = []
    /\ (exists entry : CacheEntry,
           MapGet (HttpCache.generateKeyLegacy fullURL processedConfig)
                  (HttpCache.cache (cache (service w))) = Some entry
           /\ resp_data cachedResponse = ce_data entry)
    /\ (forall response1 response2 : HttpResponse,
           resp_data response1 = resp_data response2 ->
           cacheResponse this fullURL response1 processedConfig
           = cacheResponse this fullURL response2 processedConfig).
Proof.
  intros this fullURL processedConfig w w' cachedResponse H.
  repeat split; try (intros; apply cacheResponse_data_only; assumption).
  all: unfold getCachedResponse in H;
    destruct (negb (enableCache (this_config this))
              || cfg_skipCache processedConfig
              || methodIsNotGet processedConfig); [discriminate |];
    unfold bind, Date_now, getService, modifyService, ret in H;
    unfold HttpCache.get in H;
    destruct (MapGet (HttpCache.generateKeyLegacy fullURL processedConfig)
                     (HttpCache.cache (cache (service w)))) as [entry |] eqn:He;
    [| discriminate];
    destruct (ce_ttl entry <? now w - ce_timestamp entry); [discriminate |];
    destruct (truthy (ce_data entry)); [| discriminate];
    injection H as <- _; try reflexivity.
  exists entry. split; reflexivity.
Qed.

(** The cache filled by a [201 Created] with a content type serves
    [200 OK] without headers. *)
Lemma cached_201_served_as_200 :
  exists (cachedResponse : HttpResponse) (w' : World),
    getCachedResponse defaultService "/a" getConfig cachedWorld
    = Some (Return (Some cachedResponse), w')
    /\ resp_status cachedResponse = 200
    /\ resp_statusText cachedResponse = "OK"
    /\ resp_headers cachedResponse = [].
Proof.
  destruct (getCachedResponse defaultService "/a" getConfig cachedWorld)
    as [[[[cachedResponse |] | e] w'] |] eqn:H;
    try (vm_compute in H; discriminate).
  exists cachedResponse, w'. split; [reflexivity |].
  destruct (cache_hit_has_synthesized_metadata _ _ _ _ _ _ H)
    as (Hs & Ht & Hh & _).
  auto.
Defined.

Lemma liftIO_inv {A : Type} (m : IO A) (w w' : World) (c : Completion Exn A) :
  liftIO m w = Some (c, w') ->
  m (trace w) = Some (c, trace w')
  /\ service w' = service w /\ now w' = now w.
Proof.
  unfold liftIO. destruct (m (trace w)) as [[c0 t] |]; [| discriminate].
  intros [= <- <-]. auto.
Qed.

Lemma get_after_set (now now' ttl : Z) (url : string) (data : JsValue)
      (options : RequestConfig) (c : HttpCache.t) :
  now' - now <= ttl ->
  fst (HttpCache.get now' url (Some options)
         (HttpCache.set now url data (HttpCache.Options options) (Some ttl) c))
  = data.
Proof.
  intros Hlive.
  assert (Hfresh : (ttl <? now' - now) = false) by (apply Z.ltb_ge; lia).
  rewrite set_shape. unfold HttpCache.get.
  cbn [HttpCache.cache HttpCache.withCache HttpCache.setKey HttpCache.setTtl
       default].
  rewrite MapGet_MapSet_eq. cbn [ce_ttl ce_timestamp ce_data].
  unfold id. rewrite Hfresh. reflexivity.
Qed.

Lemma getCachedResponse_uncacheable (this : HttpService) (fullURL : string)
      (processedConfig : RequestConfig) (w : World) :
  cacheable this processedConfig = false ->
  getCachedResponse this fullURL processedConfig w = Some (Return None, w).
Proof.
  unfold cacheable, getCachedResponse. intros H.
  destruct (enableCache (this_config this)), (cfg_skipCache processedConfig),
           (methodIsNotGet processedConfig); try discriminate; reflexivity.
Qed.

Lemma getCachedResponse_cacheable (this : HttpService) (fullURL : string)
      (processedConfig : RequestConfig) (w : World) :
  cacheable this processedConfig = true ->
  getCachedResponse this fullURL processedConfig w
  = let got := HttpCache.get (now w) fullURL (Some processedConfig)
                             (cache (service w)) in
    Some (Return (if truthy (fst got)
                  then Some (cachedEnvelope (fst got) processedConfig)
                  else None),
          withService (setCache (snd got)) w).
Proof.
  unfold cacheable, getCachedResponse. intros H.
  destruct (enableCache (this_config this)), (cfg_skipCache processedConfig),
           (methodIsNotGet processedConfig); try discriminate.
  cbn [negb orb]. unfold bind, Date_now, getService, modifyService, ret.
  destruct (HttpCache.get (now w) fullURL (Some processedConfig)
                          (cache (service w))) as [cached cache'].
  cbn [fst snd]. destruct (truthy cached); reflexivity.
Qed.

Lemma cacheResponse_uncacheable (this : HttpService) (fullURL : string)
      (response : HttpResponse) (processedConfig : RequestConfig) (w : World) :
  cacheable this processedConfig = false ->
  cacheResponse this fullURL response processedConfig w = Some (Return tt, w).
Proof.
  unfold cacheable, cacheResponse. intros ->. reflexivity.
Qed.

Lemma cacheResponse_cacheable (this : HttpService) (fullURL : string)
      (response : HttpResponse) (processedConfig : RequestConfig) (w : World) :
  cacheable this processedConfig = true ->
  cacheResponse this fullURL response processedConfig w
  = Some (Return tt,
          withService
            (fun st =>
               setCache
                 (HttpCache.set (now w) fullURL (resp_data response)
                    (HttpCache.Options processedConfig)
                    (Some (orDefault (cfg_cacheTimeout processedConfig)
                                     (cacheTimeout (this_config this))))
                    (cache st)) st) w).
Proof.
  unfold cacheable, cacheResponse. intros ->. reflexivity.
Qed.


Lemma request_resume_cache (this : HttpService)
      (outcome : Completion Exn HttpResponse) (fullURL : string)
      (processedConfig : RequestConfig) (cacheKey : string) (w w' : World)
      (c : Completion Exn HttpResponse) :
  request_resume this outcome fullURL processedConfig cacheKey w = Some (c, w') ->
  cache (service w') = cache (service w)
  \/ (cacheable this processedConfig = true
      /\ exists (data : JsValue) (ttl : Z),
          cache (service w')
          = HttpCache.set (now w) fullURL data (HttpCache.Options processedConfig)
                          (Some ttl) (cache (service w))).
Proof.
  unfold request_resume, tryFinally, bind at 1, await.
  destruct outcome as [response | e].
  2: { intros [= <- <-]. left. cbn.
       destruct (enableDeduplication (this_config this)); reflexivity. }
  unfold bind at 1.
  destruct (forInterceptors_trace EvResponseInterceptor
              (responseInterceptors this) 0%nat response (trace w)) as [c0 Hc].
  unfold liftIO, applyResponseInterceptors. rewrite Hc.
  destruct c0 as [processedResponse | e].
  2: { intros [= <- <-]. left. cbn.
       destruct (enableDeduplication (this_config this)); reflexivity. }
  unfold bind.
  destruct (cacheable this processedConfig) eqn:Hcb.
  - rewrite cacheResponse_cacheable by exact Hcb. unfold ret.
    intros [= <- <-]. right. split; [reflexivity |].
    eexists; eexists. cbn.
    destruct (enableDeduplication (this_config this)); reflexivity.
  - rewrite cacheResponse_uncacheable by exact Hcb. unfold ret.
    intros [= <- <-]. left. cbn.
    destruct (enableDeduplication (this_config this)); reflexivity.
Qed.










Lemma interceptorEvents_none {A : Type} (event : nat -> A -> Event)
      (kind : Event -> bool) (interceptors : list (A -> Completion Exn A)) :
  (forall i x, kind (event i x) = false) ->
  forall (i : nat) (final : A),
    occurrences kind (interceptorEvents event i interceptors final) = 0%nat.
Proof.
  intros Hkind. unfold occurrences.
  induction interceptors as [| interceptor rest IH]; intros i final; simpl;
    [reflexivity |].
  rewrite Hkind. destruct (interceptor final); [apply IH | reflexivity].
Qed.




(** ** http-service.ts: the pending table *)

Lemma applyRequestInterceptors_pure (this : HttpService) (config : RequestConfig)
      (w w' : Trace) (c : Completion Exn RequestConfig) :
  applyRequestInterceptors this config w = Some (c, w') ->
  exists t, applyRequestInterceptors this config [] = Some (c, t).
Proof.
  unfold applyRequestInterceptors.
  generalize 0%nat at 1 2. generalize config, w, (@nil Event).
  induction (requestInterceptors this) as [| f l IH];
    intros config0 w0 v0 i H; simpl in *.
  - unfold ret in *. injection H as <- _. eauto.
  - unfold_io. destruct (f config0) as [next | e].
    + eapply IH. exact H.
    + injection H as <- _. eauto.
Qed.

(** What [request] has done to the service when it first waits. *)
Lemma request_begin_inv (this : HttpService) (url : string)
      (config : RequestConfig) (w w' : World) (c : Completion Exn Begun) :
  request_begin this url config w = Some (c, w') ->
  match c with
  | Throw _ | Return (CacheHit _) =>
      pendingRequests (service w') = pendingRequests (service w)
      /\ promises (service w') = promises (service w)
  | Return (Deduplicated p) =>
      pendingRequests (service w') = pendingRequests (service w)
      /\ promises (service w') = promises (service w)
      /\ enableDeduplication (this_config this) = true
      /\ exists key, fingerprint this url config = Some key
                     /\ pendingRequests (service w) !! key = Some p
  | Return (Dispatched p fullURL processedConfig cacheKey) =>
      p = promises (service w)
      /\ promises (service w') = S p
      /\ fingerprint this url config = Some cacheKey
      /\ (if enableDeduplication (this_config this)
          then pendingRequests (service w) !! cacheKey = None
               /\ pendingRequests (service w')
                  = <[cacheKey := p]> (pendingRequests (service w))
          else pendingRequests (service w') = pendingRequests (service w))
  end.
Proof.
  unfold request_begin. unfold bind at 1.
  destruct (liftIO (applyRequestInterceptors this config) w)
    as [[[processedConfig | e] w1] |] eqn:Hreq; [| | discriminate].
  2: { intros [= <- <-]. destruct (liftIO_inv _ _ _ _ Hreq) as (_ & -> & _). auto. }
  destruct (liftIO_inv _ _ _ _ Hreq) as (Hio & Hs1 & _).
  destruct (applyRequestInterceptors_pure _ _ _ _ _ Hio) as [t Hpure].
  assert (Hfp : fingerprint this url config
                = Some (createCacheKey
                          (createURL this url (cfg_params processedConfig))
                          processedConfig))
    by (unfold fingerprint; rewrite Hpure; reflexivity).
  unfold bind at 1.
  destruct (getCachedResponse this
              (createURL this url (cfg_params processedConfig))
              processedConfig w1) as [[c2 w2] |] eqn:Hcache; [| discriminate].
  destruct (getCachedResponse_inv _ _ _ _ _ _ Hcache)
    as (_ & _ & Hp2 & Hq2 & [o ->]).
  rewrite Hs1 in Hp2, Hq2.
  destruct o as [cachedResponse |].
  { unfold ret. intros [= <- <-]. auto. }
  unfold getDeduplicatedRequest, bind, getService, modifyService, ret.
  destruct (enableDeduplication (this_config this)) eqn:Hdedup; cbn [negb orb].
  - destruct (pendingRequests (service w2)
                !! createCacheKey (createURL this url (cfg_params processedConfig))
                                  processedConfig) as [p |] eqn:Hlook;
      cbn [bool_decide negb].
    + rewrite bool_decide_eq_true_2 by eauto. cbn [negb].
      intros [= <- <-]. rewrite <- Hp2. eauto 10.
    + rewrite bool_decide_eq_false_2 by (intros [? ?]; discriminate). cbn [negb].
      intros [= <- <-]. cbn. rewrite <- Hp2, <- Hq2. auto.
  - intros [= <- <-]. cbn. rewrite <- Hp2, <- Hq2. auto.
Qed.

Lemma cacheResponse_inv (this : HttpService) (fullURL : string)
      (response : HttpResponse) (processedConfig : RequestConfig)
      (w w' : World) (c : Completion Exn unit) :
  cacheResponse this fullURL response processedConfig w = Some (c, w') ->
  c = Return tt /\ trace w' = trace w
  /\ pendingRequests (service w') = pendingRequests (service w)
  /\ promises (service w') = promises (service w).
Proof.
  unfold cacheResponse.
  destruct (enableCache (this_config this) && negb (cfg_skipCache processedConfig)
            && negb (methodIsNotGet processedConfig));
    unfold bind, Date_now, modifyService, ret; intros [= <- <-]; auto.
Qed.

(** The [finally] of [request] runs whatever the outcome: the call resumes,
    and the entry under its key is gone. *)
Lemma request_resume_inv (this : HttpService)
      (outcome : Completion Exn HttpResponse) (fullURL : string)
      (processedConfig : RequestConfig) (cacheKey : string) (w : World) :
  exists (c : Completion Exn HttpResponse) (w' : World),
    request_resume this outcome fullURL processedConfig cacheKey w = Some (c, w')
    /\ promises (service w') = promises (service w)
    /\ pendingRequests (service w')
       = if enableDeduplication (this_config this)
         then delete cacheKey (pendingRequests (service w))
         else pendingRequests (service w).
Proof.
  unfold request_resume, tryFinally, bind at 1, await.
  destruct outcome as [response | e].
  - unfold bind at 1.
    destruct (forInterceptors_trace EvResponseInterceptor
                (responseInterceptors this) 0%nat response (trace w)) as [c Hc].
    unfold liftIO, applyResponseInterceptors. rewrite Hc.
    destruct c as [processedResponse | e].
    + unfold bind.
      destruct (cacheResponse this fullURL processedResponse processedConfig
                  {| trace := trace w ++ interceptorEvents EvResponseInterceptor 0
                                           (responseInterceptors this) response;
                     service := service w; now := now w |})
        as [[c1 w1] |] eqn:Hcache.
      * destruct (cacheResponse_inv _ _ _ _ _ _ _ Hcache) as (-> & _ & Hp & Hq).
        unfold ret. eexists; eexists. split; [reflexivity |]. cbn in *.
        destruct (enableDeduplication (this_config this)); cbn;
          rewrite ?Hp, ?Hq; auto.
      * exfalso. unfold cacheResponse in Hcache.
        destruct (enableCache (this_config this)
                  && negb (cfg_skipCache processedConfig)
                  && negb (methodIsNotGet processedConfig)); discriminate.
    + eexists; eexists. split; [reflexivity |]. cbn.
      destruct (enableDeduplication (this_config this)); auto.
  - eexists; eexists. split; [reflexivity |]. cbn.
    destruct (enableDeduplication (this_config this)); auto.
Qed.

Section PendingTable.

Variable fetch : nat -> string -> Headers -> FetchOutcome.
Variable this : HttpService.
Hypothesis deduplicating : enableDeduplication (this_config this) = true.

Lemma consistent_initial : consistent initialSystem.
Proof.
  unfold consistent, initialSystem. cbn.
  repeat split; intros *; rewrite lookup_empty; discriminate.
Qed.

Lemma consistent_Call (url : string) (config : RequestConfig) (s s' : System) :
  consistent s -> act fetch this (Call url config) s = Some s' -> consistent s'.
Proof.
  intros (Hfresh & Hreg & Htab) Hact. cbn in Hact.
  destruct (request_begin this url config (world s)) as [[c w'] |] eqn:Hb;
    [| discriminate].
  pose proof (request_begin_inv _ _ _ _ _ _ Hb) as Hinv.
  destruct c as [[cachedResponse | p | p fullURL processedConfig cacheKey] | e];
    injection Hact as <-; unfold consistent; cbn.
  - destruct Hinv as [-> ->]. auto.
  - destruct Hinv as (-> & -> & _). auto.
  - destruct Hinv as (-> & -> & _ & Hpend). rewrite deduplicating in Hpend.
    destruct Hpend as [Hnone ->].
    split; [| split].
    + intros q fl. rewrite lookup_insert. case_decide.
      * intros _. subst. lia.
      * intros Hq. apply Hfresh in Hq. lia.
    + intros q fl. rewrite lookup_insert. case_decide.
      * intros [= <-]. subst. cbn. apply lookup_insert_eq.
      * intros Hq. rewrite lookup_insert_ne; [eauto |].
        intros Heq. apply Hreg in Hq. congruence.
    + intros key q. rewrite lookup_insert. case_decide.
      * intros [= <-]. subst. eexists. rewrite lookup_insert_eq. eauto.
      * intros Hq. destruct (Htab _ _ Hq) as (fl & Hfl & Hkey).
        exists fl. split; [| exact Hkey].
        rewrite lookup_insert_ne; [exact Hfl |].
        intros Heq. apply Hfresh in Hfl. lia.
  - destruct Hinv as [-> ->]. auto.
Qed.

Lemma consistent_Settle (p : nat) (s s' : System) :
  consistent s -> act fetch this (Settle p) s = Some s' -> consistent s'.
Proof.
  intros (Hfresh & Hreg & Htab) Hact. unfold act in Hact.
  destruct (flights s !! p) as [[fullURL processedConfig cacheKey [outcome |]] |]
    eqn:Hp; try discriminate.
  unfold settled in Hact.
  destruct (makeRequest fetch this (retryFuel this processedConfig) fullURL
                        processedConfig 0 (trace (world s))) as [[c t] |];
    [| discriminate].
  injection Hact as <-. unfold consistent; cbn.
  split; [| split].
  - intros q fl. rewrite lookup_insert. case_decide; [| apply Hfresh].
    intros _. subst. eapply Hfresh. exact Hp.
  - intros q fl. rewrite lookup_insert. case_decide; [| apply Hreg].
    intros [= <-]. subst. cbn. apply (Hreg _ _ Hp).
  - intros key q Hq. destruct (Htab _ _ Hq) as (fl & Hfl & Hkey).
    rewrite lookup_insert. case_decide; [| eauto].
    subst. rewrite Hp in Hfl. injection Hfl as <-. eauto.
Qed.

Lemma consistent_Resume (p : nat) (s s' : System) :
  consistent s -> act fetch this (Resume p) s = Some s' -> consistent s'.
Proof.
  intros (Hfresh & Hreg & Htab) Hact. unfold act in Hact.
  destruct (flights s !! p) as [[fullURL processedConfig cacheKey [outcome |]] |]
    eqn:Hp; try discriminate.
  destruct (request_resume_inv this outcome fullURL processedConfig cacheKey
                               (world s)) as (c & w' & Hres & Hq & Hpend).
  rewrite Hres in Hact. injection Hact as <-.
  rewrite deduplicating in Hpend.
  pose proof (Hreg _ _ Hp) as Hpk. cbn in Hpk.
  unfold consistent; cbn. rewrite Hq, Hpend.
  split; [| split].
  - intros q fl Hfl. apply lookup_delete_Some in Hfl as [_ Hfl]. eauto.
  - intros q fl Hfl. apply lookup_delete_Some in Hfl as [Hne Hfl].
    rewrite lookup_delete_ne; [eauto |].
    intros Heq. apply Hreg in Hfl. congruence.
  - intros key q Hlook. apply lookup_delete_Some in Hlook as [Hne Hlook].
    destruct (Htab _ _ Hlook) as (fl & Hfl & Hkey).
    exists fl. split; [| exact Hkey].
    rewrite lookup_delete_ne; [exact Hfl |].
    intros Heq. subst q. rewrite Hp in Hfl. injection Hfl as <-.
    cbn in Hkey. congruence.
Qed.

Lemma consistent_act (a : Action) (s s' : System) :
  consistent s -> act fetch this a s = Some s' -> consistent s'.
Proof.
  destruct a as [url config | p | p | ms].
  - apply consistent_Call.
  - apply consistent_Settle.
  - apply consistent_Resume.
  - intros H Hact. cbn in Hact. destruct (0 <=? ms); [| discriminate].
    injection Hact as <-. exact H.
Qed.

Lemma consistent_run (actions : list Action) :
  forall s s' : System,
    consistent s -> run fetch this actions s = Some s' -> consistent s'.
Proof.
  induction actions as [| a rest IH]; intros s s' Hs Hrun; cbn in Hrun.
  - injection Hrun as <-. exact Hs.
  - destruct (act fetch this a s) as [s1 |] eqn:Hact; [| discriminate].
    eapply IH; [| exact Hrun]. eapply consistent_act; eauto.
Qed.

Lemma reachable_consistent (s : System) :
  reachable fetch this s -> consistent s.
Proof.
  intros [actions Hrun]. eapply consistent_run; [| exact Hrun].
  apply consistent_initial.
Qed.

End PendingTable.

(** [request] makes no transport call before it first waits. *)
Lemma request_begin_fetches (this : HttpService) (url : string)
      (config : RequestConfig) (w w' : World) (c : Completion Exn Begun) :
  request_begin this url config w = Some (c, w') ->
  occurrences isFetch (trace w') = occurrences isFetch (trace w).
Proof.
  unfold request_begin. unfold bind at 1.
  destruct (liftIO (applyRequestInterceptors this config) w)
    as [[[processedConfig | e] w1] |] eqn:Hreq; [| | discriminate];
    destruct (liftIO_inv _ _ _ _ Hreq) as (Hio & _ & _);
    unfold applyRequestInterceptors in Hio;
    destruct (forInterceptors_trace EvRequestInterceptor (requestInterceptors this)
                                    0%nat config (trace w)) as [c0 Hc];
    rewrite Hc in Hio; injection Hio as _ Ht1;
    assert (H1 : occurrences isFetch (trace w1) = occurrences isFetch (trace w))
      by (rewrite <- Ht1, occurrences_app,
            (interceptorEvents_none EvRequestInterceptor isFetch) by reflexivity;
          lia).
  2: { intros [= <- <-]. exact H1. }
  unfold bind at 1.
  destruct (getCachedResponse this
              (createURL this url (cfg_params processedConfig))
              processedConfig w1) as [[c2 w2] |] eqn:Hcache; [| discriminate].
  destruct (getCachedResponse_inv _ _ _ _ _ _ Hcache) as (Ht2 & _ & _ & _ & [o ->]).
  destruct o as [cachedResponse |].
  { unfold ret. intros [= <- <-]. rewrite Ht2. exact H1. }
  unfold getDeduplicatedRequest, bind, getService, modifyService, ret.
  repeat match goal with
         | |- context [if ?b then _ else _] => destruct b
         | |- context [match ?x with Some _ => _ | None => _ end] => destruct x
         end;
    intros [= <- <-]; cbn; rewrite Ht2; exact H1.
Qed.

Lemma reachable_act (fetch : nat -> string -> Headers -> FetchOutcome)
      (this : HttpService) (a : Action) (s s' : System) :
  reachable fetch this s -> act fetch this a s = Some s' -> reachable fetch this s'.
Proof.
  intros [actions Hrun] Hact. exists (actions ++ [a]).
  revert Hrun. generalize initialSystem.
  induction actions as [| a0 rest IH]; intros s0 Hrun; cbn in *.
  - injection Hrun as ->. rewrite Hact. reflexivity.
  - destruct (act fetch this a0 s0); [eauto | discriminate].
Qed.

(** A call whose fingerprint is in the pending table goes no further than
    the cache and the table. *)
Lemma request_begin_pending (this : HttpService) (url : string)
      (config : RequestConfig) (w : World) (key : string) (p : nat) :
  enableDeduplication (this_config this) = true ->
  fingerprint this url config = Some key ->
  pendingRequests (service w) !! key = Some p ->
  exists (b : Begun) (w' : World),
    request_begin this url config w = Some (Return b, w')
    /\ ((exists cachedResponse : HttpResponse, b = CacheHit cachedResponse)
        \/ b = Deduplicated p)
    /\ (forall (processedConfig : RequestConfig) (t : Trace),
           applyRequestInterceptors this config [] = Some (Return processedConfig, t) ->
           let cached :=
             fst (HttpCache.get (now w)
                    (createURL this url (cfg_params processedConfig))
                    (Some processedConfig) (cache (service w))) in
           b = if cacheable this processedConfig && truthy cached
               then CacheHit (cachedEnvelope cached processedConfig)
               else Deduplicated p).
Proof.
  intros Hdedup Hfp Hlook. unfold fingerprint in Hfp.
  destruct (applyRequestInterceptors this config [])
    as [[[processedConfig | e] t0] |] eqn:Hpure; try discriminate.
  injection Hfp as <-.
  destruct (forInterceptors_trace EvRequestInterceptor (requestInterceptors this)
                                  0%nat config (trace w)) as [c Hc].
  fold (applyRequestInterceptors this config) in Hc.
  destruct (applyRequestInterceptors_pure _ _ _ _ _ Hc) as [t1 Hpure'].
  assert (c = Return processedConfig) as -> by congruence.
  unfold request_begin. unfold bind at 1. unfold liftIO. rewrite Hc.
  unfold bind at 1.
  set (fullURL := createURL this url (cfg_params processedConfig)) in *.
  set (w1 := {| trace := trace w ++ interceptorEvents EvRequestInterceptor 0
                                      (requestInterceptors this) config;
                service := service w; now := now w |}).
  assert (Hshared : forall w2 : World,
             pendingRequests (service w2) = pendingRequests (service w) ->
             (let* deduplicatedRequest :=
                getDeduplicatedRequest this
                  (createCacheKey fullURL processedConfig) fullURL in
              match deduplicatedRequest with
              | Some deduplicatedRequest => ret (Deduplicated deduplicatedRequest)
              | None =>
                  let* st := getService in
                  let requestPromise := promises st in
                  modifyService newPromise;;
                  (if enableDeduplication (this_config this)
                   then modifyService
                          (fun st =>
                             setPending
                               (<[createCacheKey fullURL processedConfig
                                  := requestPromise]> (pendingRequests st)) st)
                   else ret tt);;
                  ret (Dispatched requestPromise fullURL processedConfig
                                  (createCacheKey fullURL processedConfig))
              end) w2
             = Some (Return (Deduplicated p), w2)).
  { intros w2 Hp2.
    unfold getDeduplicatedRequest, bind, getService, ret.
    rewrite Hdedup, Hp2, Hlook. cbn [negb orb].
    rewrite bool_decide_eq_true_2 by eauto. reflexivity. }
  destruct (cacheable this processedConfig) eqn:Hcb.
  - rewrite getCachedResponse_cacheable by exact Hcb. cbv zeta.
    cbn [now service w1].
    destruct (truthy (fst (HttpCache.get (now w) fullURL (Some processedConfig)
                                         (cache (service w))))) eqn:Htruthy.
    + eexists; eexists. split; [reflexivity |]. split; [eauto |].
      intros processedConfig' t Hrun.
      assert (processedConfig' = processedConfig) as -> by congruence.
      fold fullURL. cbv zeta. rewrite Hcb, Htruthy. reflexivity.
    + rewrite Hshared by reflexivity.
      eexists; eexists. split; [reflexivity |]. split; [auto |].
      intros processedConfig' t Hrun.
      assert (processedConfig' = processedConfig) as -> by congruence.
      fold fullURL. cbv zeta. rewrite Hcb, Htruthy. reflexivity.
  - rewrite getCachedResponse_uncacheable by exact Hcb.
    rewrite Hshared by reflexivity.
    eexists; eexists. split; [reflexivity |]. split; [auto |].
    intros processedConfig' t Hrun.
    assert (processedConfig' = processedConfig) as -> by congruence.
    cbv zeta. rewrite Hcb. reflexivity.
Qed.

(** C2 (amended). With deduplication on, in every state the service can
    reach: (1) at most one dispatch is outstanding per fingerprint; (2) a
    call that is answered with a promise of the pending table gets the
    promise registered under its fingerprint, a flight of that fingerprint,
    and neither a promise nor a transport call is made for it; (3) when the
    call that owns a settled dispatch resumes, whatever the outcome, its
    entry leaves the table; (4) a call that finds no entry under its
    fingerprint is served from the cache or dispatches afresh under a new
    promise; (5) a call whose fingerprint is in the pending table is
    served from the cache, when its request is cacheable and the cache
    has live, truthy data for it, and otherwise receives the promise
    registered there: either way no promise is made, no transport call is
    made and the table stays as it is. *)
Theorem one_flight_per_fingerprint :
  forall (fetch : nat -> string -> Headers -> FetchOutcome) (this : HttpService)
         (s : System),
    enableDeduplication (this_config this) = true ->
    reachable fetch this s ->
    (forall (p q : nat) (key : string),
        outstanding s p key -> outstanding s q key -> p = q)
    /\ (forall (url : string) (config : RequestConfig) (p : nat) (w' : World),
           request_begin this url config (world s)
           = Some (Return (Deduplicated p), w') ->
           (exists (key : string) (fl : Flight),
               fingerprint this url config = Some key
               /\ pendingRequests (service (world s)) !! key = Some p
               /\ flights s !! p = Some fl /\ fl_cacheKey fl = key)
           /\ promises (service w') = promises (service (world s))
           /\ occurrences isFetch (trace w')
              = occurrences isFetch (trace (world s))
           /\ act fetch this (Call url config) s
              = Some {| world := w'; flights := flights s |})
    /\ (forall (p : nat) (fl : Flight) (outcome : Completion Exn HttpResponse),
           flights s !! p = Some fl ->
           fl_outcome fl = Some outcome ->
           exists s' : System,
             act fetch this (Resume p) s = Some s'
             /\ reachable fetch this s'
             /\ pendingRequests (service (world s')) !! fl_cacheKey fl = None
             /\ flights s' !! p = None)
    /\ (forall (url : string) (config : RequestConfig) (key : string)
               (b : Begun) (w' : World),
           fingerprint this url config = Some key ->
           pendingRequests (service (world s)) !! key = None ->
           request_begin this url config (world s) = Some (Return b, w') ->
           (exists cachedResponse, b = CacheHit cachedResponse)
           \/ (exists fullURL processedConfig,
                  b = Dispatched (promises (service (world s)))
                                 fullURL processedConfig key
                  /\ flights s !! promises (service (world s)) = None))
    /\ (forall (url : string) (config : RequestConfig) (key : string) (p : nat),
           fingerprint this url config = Some key ->
           pendingRequests (service (world s)) !! key = Some p ->
           exists (b : Begun) (w' : World),
             request_begin this url config (world s) = Some (Return b, w')
             /\ ((exists cachedResponse : HttpResponse,
                     b = CacheHit cachedResponse)
                 \/ b = Deduplicated p)
             /\ (forall (processedConfig : RequestConfig) (t : Trace),
                    applyRequestInterceptors this config []
                    = Some (Return processedConfig, t) ->
                    let cached :=
                      fst (HttpCache.get (now (world s))
                             (createURL this url (cfg_params processedConfig))
                             (Some processedConfig)
                             (cache (service (world s)))) in
                    b = if cacheable this processedConfig && truthy cached
                        then CacheHit (cachedEnvelope cached processedConfig)
                        else Deduplicated p)
             /\ promises (service w') = promises (service (world s))
             /\ pendingRequests (service w') = pendingRequests (service (world s))
             /\ occurrences isFetch (trace w')
                = occurrences isFetch (trace (world s))
             /\ act fetch this (Call url config) s
                = Some {| world := w'; flights := flights s |}).
Proof.
  intros fetch this s Hdedup Hreach.
  destruct (reachable_consistent fetch this Hdedup s Hreach)
    as (Hfresh & Hreg & Htab).
  split; [| split; [| split; [| split]]].
  - intros p q key (flp & Hp & Hkp & _) (flq & Hq & Hkq & _).
    apply Hreg in Hp, Hq. rewrite Hkp in Hp. rewrite Hkq in Hq. congruence.
  - intros url config p w' Hb.
    pose proof (request_begin_inv _ _ _ _ _ _ Hb) as (Hpend & Hprom & _ & key & Hfp & Hlook).
    split; [| split; [exact Hprom | split]].
    + destruct (Htab _ _ Hlook) as (fl & Hfl & Hkey). eauto 10.
    + eapply request_begin_fetches. exact Hb.
    + cbn. rewrite Hb. reflexivity.
  - intros p fl outcome Hfl Hout.
    destruct fl as [fullURL processedConfig cacheKey o]. cbn in Hout. subst o.
    destruct (request_resume_inv this outcome fullURL processedConfig cacheKey
                                 (world s)) as (c & w' & Hres & _ & Hpend).
    rewrite Hdedup in Hpend.
    assert (Hact : act fetch this (Resume p) s
                   = Some {| world := w'; flights := delete p (flights s) |})
      by (unfold act; rewrite Hfl, Hres; reflexivity).
    eexists. split; [exact Hact |]. split; [| split].
    + eapply reachable_act; eauto.
    + cbn. rewrite Hpend. apply lookup_delete_eq.
    + cbn. apply lookup_delete_eq.
  - intros url config key b w' Hfp Hnone Hb.
    pose proof (request_begin_inv _ _ _ _ _ _ Hb) as Hinv.
    destruct b as [cachedResponse | p | p fullURL processedConfig cacheKey].
    + left. eauto.
    + destruct Hinv as (_ & _ & _ & key' & Hfp' & Hlook). congruence.
    + destruct Hinv as (-> & _ & Hfp' & _). right.
      exists fullURL, processedConfig. split; [congruence |].
      destruct (flights s !! promises (service (world s))) as [fl |] eqn:Hfl;
        [| reflexivity].
      apply Hfresh in Hfl. lia.
  - intros url config key p Hfp Hlook.
    destruct (request_begin_pending this url config (world s) key p
                                    Hdedup Hfp Hlook)
      as (b & w' & Hb & Hcase & Hnot).
    exists b, w'. split; [exact Hb |]. split; [exact Hcase |].
    split; [exact Hnot |].
    pose proof (request_begin_inv _ _ _ _ _ _ Hb) as Hinv.
    pose proof (request_begin_fetches _ _ _ _ _ _ Hb) as Hfetch.
    assert (Hact : act fetch this (Call url config) s
                   = Some {| world := w'; flights := flights s |}).
    { cbn. rewrite Hb. destruct Hcase as [[cachedResponse ->] | ->]; reflexivity. }
    destruct Hcase as [[cachedResponse ->] | ->].
    + destruct Hinv as [Hpend Hprom]. auto.
    + destruct Hinv as (Hpend & Hprom & _). auto.
Qed.

(** The dispatch of the [POST] has settled and its owner is still awaiting
    the response interceptors: the entry is still in the table, and the same
    [POST] issued now is handed the settled promise instead of a new
    dispatch; no promise is made for it. *)
Lemma call_after_settlement_joins_settled_promise :
  (exists (fl : Flight) (response : HttpResponse),
      flights settledSystem !! 0%nat = Some fl
      /\ fl_outcome fl = Some (Return response))
  /\ pendingRequests (service (world settledSystem)) !! "POST:/users:[1,2]"
     = Some 0%nat
  /\ outcomeOf (request_begin stampingService "/users" postUser
                              (world settledSystem))
     = Some (Return (Deduplicated 0%nat))
  /\ (promises ∘ service ∘ snd
        <$> request_begin stampingService "/users" postUser (world settledSystem))
     = Some 1%nat.
Proof.
  split; [| repeat split; vm_compute; reflexivity].
  eexists. eexists. split; vm_compute; reflexivity.
Qed.

(** After a [GET] has completed, the same [GET] is served from the cache:
    it makes no dispatch either. *)
Example call_after_completion_served_from_cache :
  exists cachedResponse : HttpResponse,
    outcomeOf (request_begin defaultService "/a" getConfig cachedWorld)
    = Some (Return (CacheHit cachedResponse)).
Proof. eexists. vm_compute. reflexivity. Qed.

(** The cache is asked before the pending table: while the [GET] that
    skips the cache is in flight under the fingerprint of [get('/a')], a
    plain [get('/a')] is served from the cache and not handed the promise. *)
Example cache_hit_comes_before_pending_entry :
  fingerprint defaultService "/a" getConfig = Some "GET:/a:"
  /\ pendingRequests (service (world refetchingSystem)) !! "GET:/a:" = Some 1%nat
  /\ (exists cachedResponse : HttpResponse,
         outcomeOf (request_begin defaultService "/a" getConfig
                                  (world refetchingSystem))
         = Some (Return (CacheHit cachedResponse)))
  /\ outcomeOf (request_begin defaultService "/a" uncachedGet
                              (world refetchingSystem))
     = Some (Return (Deduplicated 1%nat)).
Proof.
  split; [vm_compute; reflexivity |]. split; [vm_compute; reflexivity |].
  split; [eexists |]; vm_compute; reflexivity.
Qed.

Lemma settledSystem_reachable : reachable (script []) stampingService settledSystem.
Proof.
  exists [Call "/users" postUser; Settle 0%nat]. vm_compute. reflexivity.
Qed.

(** The same [POST] issued while the settled one is still in the table is
    handed promise 0 and makes neither a promise nor a transport call; when
    the owner of the settled [POST] has run its [finally], the entry is
    gone. *)
Lemma pending_post_is_shared_then_removed :
  exists (w' : World) (s' : System),
    request_begin stampingService "/users" postUser (world settledSystem)
    = Some (Return (Deduplicated 0%nat), w')
    /\ promises (service w') = 1%nat
    /\ occurrences isFetch (trace w')
       = occurrences isFetch (trace (world settledSystem))
    /\ act (script []) stampingService (Resume 0%nat) settledSystem = Some s'
    /\ pendingRequests (service (world s')) !! "POST:/users:[1,2]" = None.
Proof.
  destruct (flights settledSystem !! 0%nat)
    as [[fullURL processedConfig cacheKey [outcome |]] |] eqn:Hfl;
    try (vm_compute in Hfl; discriminate).
  assert (Hkey : cacheKey = "POST:/users:[1,2]")
    by (vm_compute in Hfl; congruence).
  destruct (one_flight_per_fingerprint (script []) stampingService settledSystem
                                       eq_refl settledSystem_reachable)
    as (_ & _ & Hresume & _ & Hshare).
  destruct (Hshare "/users" postUser "POST:/users:[1,2]" 0%nat
                   ltac:(vm_compute; reflexivity) ltac:(vm_compute; reflexivity))
    as (b & w' & Hb & _ & Hexact & Hprom & _ & Hfetch & _).
  assert (Hshared : b = Deduplicated 0%nat)
    by (rewrite (Hexact postUser [] eq_refl); reflexivity).
  rewrite Hshared in Hb.
  destruct (Hresume _ _ outcome Hfl eq_refl) as (s' & Hact & _ & Hgone & _).
  exists w', s'. cbn in Hgone. rewrite Hkey in Hgone.
  split; [exact Hb |]. split; [rewrite Hprom; vm_compute; reflexivity |]. auto.
Defined.

(* ================================================================== *)
(** * Further properties *)

(** ** cache.ts *)

Lemma MapSet_after_MapDelete {V : Type} (key : string) (v : V)
      (m : list (string * V)) :
  MapSet key v (MapDelete key m) = MapDelete key m ++ [(key, v)].
Proof.
  unfold MapDelete. induction m as [| [k v'] m IH]; simpl; [reflexivity |].
  destruct (String.eqb k key) eqn:Hk; simpl; [exact IH |].
  rewrite Hk, IH. reflexivity.
Qed.

(** X1. What [set] stores is what [get] returns until the time to live
    has passed, for both ways of naming the entry, and the read stamps the
    entry: [get] leaves it with the time of the read as its access time,
    re-inserted as the last entry of the [Map], and every other entry as
    it was. *)
Theorem cache_set_get_roundtrip :
  forall (now now' ttl : Z) (url : string) (data : JsValue)
         (options : RequestConfig) (c : HttpCache.t),
    now' - now <= ttl ->
    let stamped := {| ce_data := data; ce_timestamp := now; ce_ttl := ttl;
                      ce_lastAccessed := Some now' |} in
    (let stored := HttpCache.set now url data (HttpCache.Options options)
                                 (Some ttl) c in
     let key := HttpCache.generateKeyLegacy url options in
     MapGet key (HttpCache.cache stored)
     = Some {| ce_data := data; ce_timestamp := now; ce_ttl := ttl;
               ce_lastAccessed := Some now |}
     /\ HttpCache.get now' url (Some options) stored
        = (data,
           HttpCache.withCache stored
             (MapDelete key (HttpCache.cache stored) ++ [(key, stamped)])))
    /\ (ttl <> 0 ->
        let stored := HttpCache.set now url data (HttpCache.Ttl ttl) None c in
        MapGet url (HttpCache.cache stored)
        = Some {| ce_data := data; ce_timestamp := now; ce_ttl := ttl;
                  ce_lastAccessed := Some now |}
        /\ HttpCache.get now' url None stored
           = (data,
              HttpCache.withCache stored
                (MapDelete url (HttpCache.cache stored) ++ [(url, stamped)]))).
Proof.
  intros now0 now' ttl url data options c Hlive.
  assert (Hfresh : (ttl <? now' - now0) = false) by (apply Z.ltb_ge; lia).
  cbv zeta.
  split; [| intros Httl; apply Z.eqb_neq in Httl];
    rewrite set_shape; unfold HttpCache.get; cbv zeta;
    cbn [HttpCache.cache HttpCache.withCache HttpCache.setKey HttpCache.setTtl
         default];
    rewrite ?Httl, !MapGet_MapSet_eq; cbn [ce_ttl ce_timestamp ce_data];
    unfold id; rewrite Hfresh, MapSet_after_MapDelete; split; reflexivity.
Qed.

Lemma cache_roundtrip_at_expiry :
  let stored := HttpCache.set 0 "/a" (JsString "v") (HttpCache.Options getConfig)
                              (Some 5000) (HttpCache.new None None) in
  HttpCache.get 5000 "/a" (Some getConfig) stored
  = (JsString "v",
     HttpCache.withCache stored
       [("GET:/a:", {| ce_data := JsString "v"; ce_timestamp := 0;
                       ce_ttl := 5000; ce_lastAccessed := Some 5000 |})]).
Proof.
  cbv zeta.
  pose proof (cache_set_get_roundtrip 0 5000 5000 "/a" (JsString "v")
                getConfig (HttpCache.new None None) ltac:(lia)) as H.
  cbv zeta in H. destruct H as [[_ H] _]. rewrite H. reflexivity.
Defined.

(** A read moves the entry behind the entries stored after it. *)
Example read_entry_goes_last :
  let full :=
    HttpCache.set 2 "b" (JsNumber 2) HttpCache.NoOptions None
      (HttpCache.set 1 "a" (JsNumber 1) HttpCache.NoOptions None
         (HttpCache.new None None)) in
  List.map (fun kv => (fst kv, ce_lastAccessed (snd kv)))
           (HttpCache.cache (snd (HttpCache.get 4 "a" None full)))
  = [("b", Some 2); ("a", Some 4)].
Proof. vm_compute. reflexivity. Qed.

(** X2. An entry whose time to live has passed is not served: [get]
    returns [undefined], [has] returns [false], and both remove the entry
    and nothing else. *)
Theorem cache_expired_entry_is_dropped :
  forall (now : Z) (key : string) (c : HttpCache.t) (entry : CacheEntry),
    MapGet key (HttpCache.cache c) = Some entry ->
    ce_ttl entry < now - ce_timestamp entry ->
    let c' := HttpCache.withCache c (MapDelete key (HttpCache.cache c)) in
    HttpCache.get now key None c = (JsUndefined, c')
    /\ HttpCache.has now key None c = (false, c')
    /\ MapGet key (HttpCache.cache c') = None
    /\ (forall key', key <> key' ->
           MapGet key' (HttpCache.cache c') = MapGet key' (HttpCache.cache c)).
Proof.
  intros now0 key c entry Hget Hold. cbv zeta.
  apply Z.ltb_lt in Hold.
  unfold HttpCache.get, HttpCache.has. rewrite Hget, Hold.
  repeat split.
  - apply MapGet_MapDelete_eq.
  - intros key' Hne. apply MapGet_MapDelete_ne. exact Hne.
Qed.

Lemma cache_entry_dropped_after_ttl :
  let c := HttpCache.set 0 "k" (JsString "v") (HttpCache.Ttl 1000) None
                         (HttpCache.new None None) in
  HttpCache.get 1001 "k" None c
  = (JsUndefined, HttpCache.withCache c (MapDelete "k" (HttpCache.cache c))).
Proof.
  cbv zeta.
  apply (cache_expired_entry_is_dropped
           1001 "k"
           (HttpCache.set 0 "k" (JsString "v") (HttpCache.Ttl 1000) None
                          (HttpCache.new None None))
           {| ce_data := JsString "v"; ce_timestamp := 0; ce_ttl := 1000;
              ce_lastAccessed := Some 0 |}).
  - reflexivity.
  - simpl. lia.
Defined.

(** The loop of [evictLRU] picks the first entry of least access time. *)
Lemma evictLRU_loop (l : list (string * CacheEntry)) :
  l <> [] ->
  exists (l1 : list (string * CacheEntry)) (key : string) (entry : CacheEntry)
         (l2 : list (string * CacheEntry)),
    l = l1 ++ (key, entry) :: l2
    /\ (forall x, In x l1 ->
                  HttpCache.accessTime entry < HttpCache.accessTime (snd x))
    /\ (forall x, In x l2 ->
                  HttpCache.accessTime entry <= HttpCache.accessTime (snd x))
    /\ fold_left
         (fun (acc : option string * option Z) (kv : string * CacheEntry) =>
            let '(oldestKey, oldestTime) := acc in
            let entry := snd kv in
            let accessTime :=
              match ce_lastAccessed entry with
              | Some la => if la =? 0 then ce_timestamp entry else la
              | None => ce_timestamp entry
              end in
            match oldestTime with
            | None => (Some (fst kv), Some accessTime)
            | Some t0 => if accessTime <? t0
                         then (Some (fst kv), Some accessTime) else acc
            end)
         l (None, None)
       = (Some key, Some (HttpCache.accessTime entry)).
Proof.
  induction l as [| [k e] l IH] using rev_ind; [congruence |]. intros _.
  rewrite fold_left_app.
  destruct l as [| x l'].
  - exists [], k, e, []. repeat split; intros ? [].
  - destruct (IH ltac:(discriminate)) as (l1 & key & entry & l2 & Hl & H1 & H2 & Hf).
    rewrite Hf. cbn [fold_left snd fst].
    change (match ce_lastAccessed e with
            | Some la => if la =? 0 then ce_timestamp e else la
            | None => ce_timestamp e
            end) with (HttpCache.accessTime e).
    destruct (Z.ltb_spec (HttpCache.accessTime e) (HttpCache.accessTime entry))
      as [Hlt | Hge].
    + exists (x :: l'), k, e, []. split; [reflexivity |].
      split; [| split; [intros ? [] | reflexivity]].
      intros y Hy. rewrite Hl in Hy. apply in_app_or in Hy.
      destruct Hy as [Hy | [<- | Hy]].
      * apply H1 in Hy. lia.
      * cbn. lia.
      * apply H2 in Hy. lia.
    + exists l1, key, entry, (l2 ++ [(k, e)]).
      split; [| split; [| split; [| reflexivity]]].
      * rewrite Hl, <- app_assoc. reflexivity.
      * exact H1.
      * intros y Hy. apply in_app_or in Hy. destruct Hy as [Hy | [<- | []]].
        -- apply H2. exact Hy.
        -- cbn. lia.
Qed.

Lemma evictLRU_first_minimum :
  forall c : HttpCache.t,
    HttpCache.cache c <> [] ->
    List.NoDup (List.map fst (HttpCache.cache c)) ->
    List.Forall (fun key => key <> "") (List.map fst (HttpCache.cache c)) ->
    exists (l1 : list (string * CacheEntry)) (key : string) (entry : CacheEntry)
           (l2 : list (string * CacheEntry)),
      HttpCache.cache c = l1 ++ (key, entry) :: l2
      /\ HttpCache.cache (HttpCache.evictLRU c) = l1 ++ l2
      /\ (forall x, In x l1 ->
                    HttpCache.accessTime entry < HttpCache.accessTime (snd x))
      /\ (forall x, In x l2 ->
                    HttpCache.accessTime entry <= HttpCache.accessTime (snd x)).
Proof.
  intros c Hne Hnd Hkeys.
  destruct (evictLRU_loop (HttpCache.cache c) Hne)
    as (l1 & key & entry & l2 & Hl & H1 & H2 & Hf).
  exists l1, key, entry, l2. split; [exact Hl |]. split; [| auto].
  unfold HttpCache.evictLRU.
  match goal with
  | |- context [fold_left ?f (HttpCache.cache c) (None, None)] =>
      replace (fold_left f (HttpCache.cache c) (None, None))
        with (Some key, Some (HttpCache.accessTime entry))
        by (symmetry; exact Hf)
  end.
  assert (Hkey : key <> "").
  { rewrite List.Forall_forall in Hkeys. apply Hkeys. rewrite Hl, List.map_app.
    apply in_or_app. right. left. reflexivity. }
  apply String.eqb_neq in Hkey. rewrite Hkey.
  cbn [HttpCache.cache HttpCache.withCache].
  rewrite Hl. apply MapDelete_unique. rewrite <- Hl. exact Hnd.
Qed.

(** What [evictLRU] does to a [Map] with entries, whatever its keys. *)
Lemma evictLRU_shape (c : HttpCache.t) :
  HttpCache.cache c <> [] ->
  List.NoDup (List.map fst (HttpCache.cache c)) ->
  exists (l1 : list (string * CacheEntry)) (key : string) (entry : CacheEntry)
         (l2 : list (string * CacheEntry)),
    HttpCache.cache c = l1 ++ (key, entry) :: l2
    /\ (forall x, In x l1 ->
                  HttpCache.accessTime entry < HttpCache.accessTime (snd x))
    /\ (forall x, In x l2 ->
                  HttpCache.accessTime entry <= HttpCache.accessTime (snd x))
    /\ HttpCache.evictLRU c
       = if String.eqb key "" then c else HttpCache.withCache c (l1 ++ l2).
Proof.
  intros Hne Hnd.
  destruct (evictLRU_loop (HttpCache.cache c) Hne)
    as (l1 & key & entry & l2 & Hl & H1 & H2 & Hf).
  exists l1, key, entry, l2. split; [exact Hl |].
  split; [exact H1 |]. split; [exact H2 |].
  unfold HttpCache.evictLRU.
  match goal with
  | |- context [fold_left ?f (HttpCache.cache c) (None, None)] =>
      replace (fold_left f (HttpCache.cache c) (None, None))
        with (Some key, Some (HttpCache.accessTime entry))
        by (symmetry; exact Hf)
  end.
  destruct (String.eqb key ""); [reflexivity |].
  f_equal. rewrite Hl. apply MapDelete_unique. rewrite <- Hl. exact Hnd.
Qed.

(** X3. Of a [Map] with entries, [evictLRU] picks the first entry of
    least access time: every entry before it was accessed later, every
    entry after it not earlier. It removes that entry and no other, unless
    the key of that entry is the empty string: then it removes nothing. An
    empty [Map] stays as it is. *)
Theorem evictLRU_removes_least_recently_used :
  forall c : HttpCache.t,
    List.NoDup (List.map fst (HttpCache.cache c)) ->
    match HttpCache.cache c with
    | [] => HttpCache.evictLRU c = c
    | _ :: _ =>
        exists (l1 : list (string * CacheEntry)) (key : string)
               (entry : CacheEntry) (l2 : list (string * CacheEntry)),
          HttpCache.cache c = l1 ++ (key, entry) :: l2
          /\ (forall x, In x l1 ->
                        HttpCache.accessTime entry < HttpCache.accessTime (snd x))
          /\ (forall x, In x l2 ->
                        HttpCache.accessTime entry <= HttpCache.accessTime (snd x))
          /\ HttpCache.evictLRU c
             = if String.eqb key "" then c
               else HttpCache.withCache c (l1 ++ l2)
    end.
Proof.
  intros c Hnd.
  destruct (HttpCache.cache c) as [| kv rest] eqn:Hcache.
  - unfold HttpCache.evictLRU. rewrite Hcache. reflexivity.
  - rewrite <- Hcache in Hnd |- *. apply evictLRU_shape; [| exact Hnd].
    rewrite Hcache. discriminate.
Qed.

(** Of three entries the one read longest ago goes, not the oldest one. *)
Lemma evictLRU_spares_entry_just_read :
  let full :=
    HttpCache.set 3 "c" (JsNumber 3) HttpCache.NoOptions None
      (HttpCache.set 2 "b" (JsNumber 2) HttpCache.NoOptions None
         (HttpCache.set 1 "a" (JsNumber 1) HttpCache.NoOptions None
            (HttpCache.new None None))) in
  let read := snd (HttpCache.get 4 "a" None full) in
  List.map fst (HttpCache.cache read) = ["b"; "c"; "a"]
  /\ List.map fst (HttpCache.cache (HttpCache.evictLRU read)) = ["c"; "a"]
  /\ exists (l1 : list (string * CacheEntry)) (key : string)
            (entry : CacheEntry) (l2 : list (string * CacheEntry)),
      HttpCache.cache read = l1 ++ (key, entry) :: l2
      /\ (forall x, In x l1 ->
                    HttpCache.accessTime entry < HttpCache.accessTime (snd x))
      /\ (forall x, In x l2 ->
                    HttpCache.accessTime entry <= HttpCache.accessTime (snd x))
      /\ HttpCache.evictLRU read
         = if String.eqb key "" then read
           else HttpCache.withCache read (l1 ++ l2).
Proof.
  cbv zeta. split; [reflexivity |]. split; [reflexivity |].
  assert (Hnd : List.NoDup ["b"; "c"; "a"])
    by (repeat constructor; cbn; intuition discriminate).
  match goal with
  | |- context [HttpCache.evictLRU ?c] =>
      exact (evictLRU_removes_least_recently_used c Hnd)
  end.
Defined.

(** The least recently used entry under the empty key is not evicted. *)
Example evictLRU_keeps_the_empty_key :
  let full :=
    HttpCache.set 2 "b" (JsNumber 2) HttpCache.NoOptions None
      (HttpCache.set 1 "" (JsNumber 1) HttpCache.NoOptions None
         (HttpCache.new None None)) in
  HttpCache.evictLRU full = full.
Proof. vm_compute. reflexivity. Qed.

Lemma filter_twice {A : Type} (p q : A -> bool) (l : list A) :
  List.filter p (List.filter q l) = List.filter (fun x => q x && p x) l.
Proof.
  induction l as [| a l IH]; simpl; [reflexivity |].
  destruct (q a); simpl; [destruct (p a) |]; congruence.
Qed.

Lemma unique_key_entry {V : Type} (m : list (string * V)) (x y : string * V) :
  List.NoDup (List.map fst m) -> In x m -> In y m -> fst x = fst y -> x = y.
Proof.
  induction m as [| a m IH]; simpl; [intros _ [] |].
  intros Hnd Hx Hy Hk. apply List.NoDup_cons_iff in Hnd as [Hnot Hnd].
  destruct Hx as [-> | Hx], Hy as [-> | Hy]; auto.
  - exfalso. apply Hnot. rewrite Hk. apply List.in_map. exact Hy.
  - exfalso. apply Hnot. rewrite <- Hk. apply List.in_map. exact Hx.
Qed.

Lemma cleanup_loop (now : Z) (l : list (string * CacheEntry)) :
  forall m : list (string * CacheEntry),
    fold_left
      (fun (m : list (string * CacheEntry)) (kv : string * CacheEntry) =>
         if ce_ttl (snd kv) <? now - ce_timestamp (snd kv)
         then MapDelete (fst kv) m else m)
      l m
    = List.filter
        (fun kv => negb (existsb (fun x => HttpCache.expired now (snd x)
                                           && String.eqb (fst kv) (fst x)) l))
        m.
Proof.
  induction l as [| x l IH]; intros m; cbn [fold_left existsb].
  - induction m as [| a m IHm]; simpl; [reflexivity | f_equal; exact IHm].
  - rewrite IH. unfold HttpCache.expired at 2.
    destruct (ce_ttl (snd x) <? now - ce_timestamp (snd x)); cbn [andb orb].
    + unfold MapDelete. rewrite filter_twice. apply List.filter_ext.
      intros kv. rewrite negb_orb. reflexivity.
    + reflexivity.
Qed.

(** X4. [cleanup] removes exactly the entries whose time to live has
    passed, and keeps the others in their order. *)
Theorem cleanup_removes_exactly_expired :
  forall (now : Z) (c : HttpCache.t),
    List.NoDup (List.map fst (HttpCache.cache c)) ->
    HttpCache.cache (HttpCache.cleanup now c)
    = List.filter (fun kv => negb (HttpCache.expired now (snd kv)))
                  (HttpCache.cache c).
Proof.
  intros now0 c Hnd. unfold HttpCache.cleanup.
  cbn [HttpCache.cache HttpCache.withCache]. rewrite cleanup_loop.
  apply List.filter_ext_in. intros kv Hkv. f_equal.
  destruct (HttpCache.expired now0 (snd kv)) eqn:Hexp.
  - apply List.existsb_exists. exists kv. rewrite Hexp, String.eqb_refl. auto.
  - destruct (existsb _ (HttpCache.cache c)) eqn:Hex; [| reflexivity].
    apply List.existsb_exists in Hex as (x & Hx & Hb).
    apply andb_prop in Hb as [Hxe Hk]. apply String.eqb_eq in Hk.
    rewrite (unique_key_entry _ kv x Hnd Hkv Hx Hk) in Hexp. congruence.
Qed.

Lemma cleanup_keeps_live_entry :
  let c := HttpCache.set 500 "new" (JsNumber 2) (HttpCache.Ttl 1000) None
             (HttpCache.set 0 "old" (JsNumber 1) (HttpCache.Ttl 1000) None
                (HttpCache.new None None)) in
  List.map fst (HttpCache.cache (HttpCache.cleanup 1200 c)) = ["new"].
Proof.
  cbv zeta.
  rewrite cleanup_removes_exactly_expired; [reflexivity |].
  repeat constructor; cbn; intuition discriminate.
Defined.

Lemma bounded_MapDelete (c : HttpCache.t) (key : string) :
  HttpCache.bounded c ->
  HttpCache.bounded (HttpCache.withCache c (MapDelete key (HttpCache.cache c))).
Proof.
  intros (Hnd & Hkeys & Hlen). unfold HttpCache.bounded.
  cbn [HttpCache.cache HttpCache.withCache HttpCache.maxSize].
  split; [apply NoDup_keys_MapDelete; exact Hnd |]. split.
  - rewrite keys_MapDelete. apply List.Forall_forall. intros k Hk.
    apply List.filter_In in Hk as [Hk _].
    rewrite List.Forall_forall in Hkeys. auto.
  - pose proof (length_MapDelete_le key (HttpCache.cache c)). lia.
Qed.

Lemma bounded_get (now : Z) (keyOrUrl : string) (options : option RequestConfig)
      (c : HttpCache.t) :
  HttpCache.bounded c ->
  HttpCache.bounded (snd (HttpCache.get now keyOrUrl options c))
  /\ HttpCache.maxSize (snd (HttpCache.get now keyOrUrl options c))
     = HttpCache.maxSize c.
Proof.
  intros Hb. unfold HttpCache.get.
  set (key := match options with
              | Some o => HttpCache.generateKeyLegacy keyOrUrl o
              | None => keyOrUrl
              end).
  destruct (MapGet key (HttpCache.cache c)) as [entry |] eqn:Hget; [| auto].
  destruct (ce_ttl entry <? now - ce_timestamp entry); cbn [snd].
  - split; [apply bounded_MapDelete; exact Hb | reflexivity].
  - split; [| reflexivity].
    pose proof (bounded_MapDelete c key Hb) as (Hnd & Hkeys & Hlen).
    destruct Hb as (Hnd0 & Hkeys0 & Hlen0).
    cbn [HttpCache.cache HttpCache.withCache HttpCache.maxSize] in *.
    assert (Hin : In key (List.map fst (HttpCache.cache c))).
    { apply MapGet_Some_In in Hget. apply (List.in_map fst) in Hget. exact Hget. }
    assert (Hgone : MapHas key (MapDelete key (HttpCache.cache c)) = false).
    { unfold MapHas. rewrite MapGet_MapDelete_eq. reflexivity. }
    unfold HttpCache.bounded.
    cbn [HttpCache.cache HttpCache.withCache HttpCache.maxSize].
    split; [apply NoDup_keys_MapSet; exact Hnd |]. split.
    + rewrite keys_MapSet, Hgone. apply List.Forall_app. split; [exact Hkeys |].
      constructor; [| constructor].
      rewrite List.Forall_forall in Hkeys0. auto.
    + rewrite length_MapSet, Hgone.
      pose proof (length_MapDelete_lt key (HttpCache.cache c) Hin). lia.
Qed.

Lemma bounded_evictLRU (c : HttpCache.t) :
  HttpCache.bounded c ->
  HttpCache.cache c <> [] ->
  HttpCache.bounded (HttpCache.evictLRU c)
  /\ (length (HttpCache.cache (HttpCache.evictLRU c))
      < length (HttpCache.cache c))%nat
  /\ HttpCache.maxSize (HttpCache.evictLRU c) = HttpCache.maxSize c
  /\ (forall k, In k (List.map fst (HttpCache.cache (HttpCache.evictLRU c))) ->
                In k (List.map fst (HttpCache.cache c))).
Proof.
  intros Hb Hne. destruct Hb as (Hnd & Hkeys & Hlen).
  destruct (evictLRU_first_minimum c Hne Hnd Hkeys)
    as (l1 & key & entry & l2 & Hl & He & _).
  assert (Hmax : HttpCache.maxSize (HttpCache.evictLRU c) = HttpCache.maxSize c).
  { unfold HttpCache.evictLRU.
    repeat match goal with
           | |- context [let '(_, _) := ?x in _] => destruct x
           | |- context [match ?x with _ => _ end] => destruct x
           end; reflexivity. }
  assert (Hsub : forall k, In k (List.map fst (l1 ++ l2)) ->
                           In k (List.map fst (l1 ++ (key, entry) :: l2))).
  { intros k. rewrite !List.map_app, !List.in_app_iff. simpl. tauto. }
  unfold HttpCache.bounded. rewrite He, Hmax, Hl in *.
  repeat split.
  - rewrite List.map_app in *. simpl in Hnd.
    apply List.NoDup_remove_1 in Hnd. exact Hnd.
  - apply List.Forall_forall. intros k Hk.
    rewrite List.Forall_forall in Hkeys. auto.
  - rewrite List.length_app in *. simpl in Hlen. lia.
  - rewrite !List.length_app. simpl. lia.
  - exact Hsub.
Qed.

Lemma bounded_set (now : Z) (keyOrUrl : string) (data : JsValue)
      (optionsOrTtl : HttpCache.OptionsOrTtl) (ttl : option Z) (c : HttpCache.t) :
  HttpCache.bounded c ->
  1 <= HttpCache.maxSize c ->
  HttpCache.setKey keyOrUrl optionsOrTtl <> "" ->
  HttpCache.bounded (HttpCache.set now keyOrUrl data optionsOrTtl ttl c)
  /\ HttpCache.maxSize (HttpCache.set now keyOrUrl data optionsOrTtl ttl c)
     = HttpCache.maxSize c.
Proof.
  intros Hb Hmax Hkey. rewrite set_shape. cbv zeta.
  set (key := HttpCache.setKey keyOrUrl optionsOrTtl) in *.
  set (entry := {| ce_data := data; ce_timestamp := now;
                   ce_ttl := HttpCache.setTtl optionsOrTtl ttl c;
                   ce_lastAccessed := Some now |}).
  destruct (MapHas key (HttpCache.cache c)) eqn:Hhas;
    [rewrite andb_false_r | rewrite andb_true_r].
  - destruct Hb as (Hnd & Hkeys & Hlen). unfold HttpCache.bounded.
    cbn [HttpCache.cache HttpCache.withCache HttpCache.maxSize].
    rewrite keys_MapSet, length_MapSet, Hhas. auto.
  - destruct (Z.leb_spec (HttpCache.maxSize c)
                         (Z.of_nat (length (HttpCache.cache c)))) as [Hfull | Hroom].
    + assert (Hne : HttpCache.cache c <> [])
        by (destruct (HttpCache.cache c); [simpl in Hfull; lia | discriminate]).
      destruct (bounded_evictLRU c Hb Hne) as ((Hnd & Hkeys & Hlen) & Hlt & Hm & Hsub).
      assert (Hhas' : MapHas key (HttpCache.cache (HttpCache.evictLRU c)) = false).
      { destruct (MapHas key (HttpCache.cache (HttpCache.evictLRU c))) eqn:H;
          [| reflexivity].
        apply MapHas_keys in H. apply Hsub in H. apply MapHas_keys in H. congruence. }
      unfold HttpCache.bounded.
      cbn [HttpCache.cache HttpCache.withCache HttpCache.maxSize].
      rewrite keys_MapSet, length_MapSet, Hhas', Hm.
      destruct Hb as (_ & _ & Hlen0).
      repeat split.
      * pose proof (NoDup_keys_MapSet key entry _ Hnd) as Hset.
        rewrite keys_MapSet, Hhas' in Hset. exact Hset.
      * apply List.Forall_app. split; [exact Hkeys | repeat constructor; exact Hkey].
      * lia.
    + destruct Hb as (Hnd & Hkeys & Hlen). unfold HttpCache.bounded.
      cbn [HttpCache.cache HttpCache.withCache HttpCache.maxSize].
      rewrite keys_MapSet, length_MapSet, Hhas.
      repeat split.
      * pose proof (NoDup_keys_MapSet key entry _ Hnd) as Hset.
        rewrite keys_MapSet, Hhas in Hset. exact Hset.
      * apply List.Forall_app. split; [exact Hkeys | repeat constructor; exact Hkey].
      * lia.
Qed.

Lemma bounded_cleanup (now : Z) (c : HttpCache.t) :
  HttpCache.bounded c -> HttpCache.bounded (HttpCache.cleanup now c).
Proof.
  unfold HttpCache.cleanup.
  assert (H : forall l m,
             HttpCache.bounded (HttpCache.withCache c m) ->
             HttpCache.bounded
               (HttpCache.withCache c
                  (fold_left
                     (fun (m : list (string * CacheEntry)) (kv : string * CacheEntry) =>
                        if ce_ttl (snd kv) <? now - ce_timestamp (snd kv)
                        then MapDelete (fst kv) m else m) l m))).
  { induction l as [| x l IH]; intros m Hm; cbn [fold_left]; [exact Hm |].
    apply IH. destruct (ce_ttl (snd x) <? now - ce_timestamp (snd x)); [| exact Hm].
    apply (bounded_MapDelete (HttpCache.withCache c m) (fst x) Hm). }
  intros Hb. apply H. destruct c. exact Hb.
Qed.

(** X5. The cache keeps its bound: from a cache with unique non-empty keys
    and at most [maxSize] entries, every operation leaves such a cache, as
    long as [set] is given a key that is not the empty string. *)
Theorem cache_never_exceeds_maxSize :
  forall (now : Z) (keyOrUrl : string) (data : JsValue)
         (optionsOrTtl : HttpCache.OptionsOrTtl) (ttl : option Z)
         (options : option RequestConfig) (c : HttpCache.t),
    HttpCache.bounded c ->
    1 <= HttpCache.maxSize c ->
    (HttpCache.setKey keyOrUrl optionsOrTtl <> "" ->
     HttpCache.bounded (HttpCache.set now keyOrUrl data optionsOrTtl ttl c)
     /\ HttpCache.size (HttpCache.set now keyOrUrl data optionsOrTtl ttl c)
        <= HttpCache.maxSize c)
    /\ HttpCache.bounded (snd (HttpCache.get now keyOrUrl options c))
    /\ HttpCache.bounded (snd (HttpCache.has now keyOrUrl options c))
    /\ HttpCache.bounded (snd (HttpCache.delete keyOrUrl options c))
    /\ HttpCache.bounded (HttpCache.cleanup now c)
    /\ HttpCache.bounded (HttpCache.clear c).
Proof.
  intros now0 keyOrUrl data optionsOrTtl ttl options c Hb Hmax.
  split; [| split; [| split; [| split; [| split]]]].
  - intros Hkey.
    destruct (bounded_set now0 keyOrUrl data optionsOrTtl ttl c Hb Hmax Hkey)
      as [Hb' Hm].
    split; [exact Hb' |]. destruct Hb' as (_ & _ & Hlen).
    unfold HttpCache.size. lia.
  - apply bounded_get. exact Hb.
  - unfold HttpCache.has.
    destruct (MapGet _ (HttpCache.cache c)) as [entry |]; [| exact Hb].
    destruct (ce_ttl entry <? now0 - ce_timestamp entry); [| exact Hb].
    apply bounded_MapDelete. exact Hb.
  - apply bounded_MapDelete. exact Hb.
  - apply bounded_cleanup. exact Hb.
  - destruct Hb as (_ & _ & Hlen). unfold HttpCache.bounded, HttpCache.clear.
    cbn. repeat split; [constructor | constructor | lia].
Qed.

(** A cache of one entry that is full replaces its entry. *)
Lemma full_cache_replaces_entry :
  let one := HttpCache.set 0 "a" (JsNumber 1) HttpCache.NoOptions None
                           (HttpCache.new None (Some 1)) in
  HttpCache.size (HttpCache.set 1 "b" (JsNumber 2) HttpCache.NoOptions None one)
  <= 1.
Proof.
  cbv zeta.
  assert (Hb : HttpCache.bounded
                 (HttpCache.set 0 "a" (JsNumber 1) HttpCache.NoOptions None
                                (HttpCache.new None (Some 1)))).
  { unfold HttpCache.bounded.
    split; [| split; [| apply Z.leb_le; vm_compute; reflexivity]].
    - cbn. constructor; [intros [] | constructor].
    - cbn. constructor; [discriminate | constructor]. }
  destruct (cache_never_exceeds_maxSize
              1 "b" (JsNumber 2) HttpCache.NoOptions None None _ Hb
              ltac:(apply Z.leb_le; vm_compute; reflexivity)) as [Hset _].
  destruct (Hset ltac:(discriminate)) as [_ Hsize]. exact Hsize.
Defined.

(** The empty string as a key escapes eviction: [if (oldestKey)] takes it
    for no key, and the cache grows past [maxSize]. *)
Example empty_key_is_never_evicted :
  let one := HttpCache.set 0 "" (JsNumber 1) HttpCache.NoOptions None
                           (HttpCache.new None (Some 1)) in
  HttpCache.size (HttpCache.set 1 "b" (JsNumber 2) HttpCache.NoOptions None one)
  = 2.
Proof. reflexivity. Qed.

(** ** http-service.ts: the cache of a service *)

(** X6. What a cacheable response stores is served to the same request
    until its cache timeout has passed, with status 200, provided the data
    is truthy; data that is falsy ([0], the empty string, [false], [null])
    is stored but never served. *)
Theorem cached_response_served_iff_truthy :
  forall (this : HttpService) (fullURL : string) (response : HttpResponse)
         (processedConfig : RequestConfig) (w w1 w2 : World),
    cacheable this processedConfig = true ->
    cacheResponse this fullURL response processedConfig w = Some (Return tt, w1) ->
    service w2 = service w1 ->
    now w2 - now w <= orDefault (cfg_cacheTimeout processedConfig)
                                (cacheTimeout (this_config this)) ->
    outcomeOf (getCachedResponse this fullURL processedConfig w2)
    = Some (Return (if truthy (resp_data response)
                    then Some (cachedEnvelope (resp_data response) processedConfig)
                    else None)).
Proof.
  intros this fullURL response processedConfig w w1 w2 Hc Hstore Hsame Hlive.
  rewrite cacheResponse_cacheable in Hstore by exact Hc.
  injection Hstore as <-.
  rewrite getCachedResponse_cacheable by exact Hc. cbv zeta.
  rewrite Hsame. cbn [service withService cache setCache].
  rewrite get_after_set by exact Hlive. reflexivity.
Qed.

(** A cached [0] is not served. *)
Lemma cached_zero_is_not_served :
  outcomeOf (getCachedResponse defaultService "/count" getConfig storedZero)
  = Some (Return None).
Proof.
  apply (cached_response_served_iff_truthy
           defaultService "/count" zeroResponse getConfig
           initialWorld storedZero storedZero).
  - reflexivity.
  - reflexivity.
  - reflexivity.
  - cbn. lia.
Defined.




Lemma request_begin_uncacheable (this : HttpService) (url : string)
      (config processedConfig : RequestConfig) (w w1 w' : World)
      (c : Completion Exn Begun) :
  liftIO (applyRequestInterceptors this config) w
  = Some (Return processedConfig, w1) ->
  cacheable this processedConfig = false ->
  request_begin this url config w = Some (c, w') ->
  cache (service w') = cache (service w)
  /\ (forall cachedResponse, c <> Return (CacheHit cachedResponse))
  /\ (forall p fullURL processedConfig' cacheKey,
         c = Return (Dispatched p fullURL processedConfig' cacheKey) ->
         processedConfig' = processedConfig).
Proof.
  intros Hreq Hc. destruct (liftIO_inv _ _ _ _ Hreq) as (_ & Hs1 & _).
  unfold request_begin. unfold bind at 1. rewrite Hreq.
  unfold bind at 1. rewrite getCachedResponse_uncacheable by exact Hc.
  unfold getDeduplicatedRequest, bind, getService, modifyService, ret.
  repeat match goal with
         | |- context [if ?b then _ else _] => destruct b
         | |- context [match ?x with Some _ => _ | None => _ end] => destruct x
         end;
    intros [= <- <-]; cbn; rewrite Hs1;
    (split; [reflexivity | split; [discriminate | ]]);
    intros ? ? ? ?; try discriminate; intros [= _ _ <- _]; reflexivity.
Qed.

(** X8. A request that is not cacheable (a method other than [GET],
    [skipCache], or caching turned off) neither reads nor writes the cache:
    it is never answered with a cache hit, and a call that runs alone leaves
    the cache as it was. *)
Theorem uncacheable_request_leaves_cache :
  forall (fetch : nat -> string -> Headers -> FetchOutcome) (this : HttpService)
         (url : string) (config processedConfig : RequestConfig)
         (w w1 w' : World) (c : Completion Exn Requested),
    liftIO (applyRequestInterceptors this config) w
    = Some (Return processedConfig, w1) ->
    cacheable this processedConfig = false ->
    request fetch this url config w = Some (c, w') ->
    cache (service w') = cache (service w)
    /\ (forall cachedResponse w2,
           request_begin this url config w
           <> Some (Return (CacheHit cachedResponse), w2)).
Proof.
  intros fetch this url config processedConfig w w1 w' c Hreq Hc.
  unfold request. unfold bind at 1.
  destruct (request_begin this url config w) as [[b w2] |] eqn:Hb;
    [| discriminate].
  destruct (request_begin_uncacheable _ _ _ _ _ _ _ _ Hreq Hc Hb)
    as (Hcache & Hnohit & Hpc).
  intros Hrun. split.
  2: { intros cachedResponse w3 [= -> _]. eapply Hnohit. reflexivity. }
  revert Hrun.
  destruct b as [[cachedResponse | p | p fullURL pc cacheKey] | e].
  - exfalso. eapply Hnohit. reflexivity.
  - unfold ret. intros [= <- <-]. exact Hcache.
  - rewrite (Hpc _ _ _ _ eq_refl). clear Hpc.
    unfold bind at 1, settled.
    destruct (makeRequest fetch this (retryFuel this processedConfig) fullURL
                          processedConfig 0 (trace w2)) as [[outcome t] |];
      [| discriminate].
    unfold bind at 1.
    destruct (request_resume this outcome fullURL processedConfig cacheKey
                {| trace := t; service := service w2; now := now w2 |})
      as [[r w3] |] eqn:Hres; [| discriminate].
    intros Hrun.
    assert (Hw' : w' = w3) by (destruct r; injection Hrun; auto).
    subst w'.
    destruct (request_resume_cache _ _ _ _ _ _ _ _ Hres) as [-> | [Hyes _]];
      [exact Hcache | congruence].
  - intros [= <- <-]. exact Hcache.
Qed.

(** A [POST] that runs alone on a service with a filled cache. *)
Lemma post_leaves_cache :
  (fun r => cache (service (snd r)))
    <$> request (script []) defaultService "/users" postUser cachedWorld
  = Some (cache (service cachedWorld)).
Proof.
  destruct (request (script []) defaultService "/users" postUser cachedWorld)
    as [[c w'] |] eqn:Hrun; [| vm_compute in Hrun; discriminate].
  cbn. f_equal.
  eapply (proj1 (uncacheable_request_leaves_cache
                   (script []) defaultService "/users" postUser postUser
                   cachedWorld cachedWorld w' c eq_refl eq_refl Hrun)).
Defined.

(** ** http-service.ts: which failures are retried *)

Lemma createHttpError_flags status statusText response config :
  isNetworkError (createHttpError status statusText response config) = false
  /\ isTimeoutError (createHttpError status statusText response config) = false
  /\ isAbortError (createHttpError status statusText response config) = false.
Proof.
  unfold createHttpError.
  repeat match goal with |- context [if ?b then _ else _] => destruct b end;
    repeat split; reflexivity.
Qed.

(** X9. An error built from an HTTP status is retry-eligible exactly when
    the status is 500 or more. *)
Theorem http_status_error_retried_iff_5xx :
  forall (status : Z) (statusText : string)
         (response : option Response) (config : option RequestConfig),
    shouldRetry (createHttpError status statusText response config)
    = (500 <=? status).
Proof.
  intros status statusText response config. unfold shouldRetry.
  destruct (createHttpError_flags status statusText response config)
    as (-> & -> & _).
  rewrite createHttpError_status. cbn [default from_option id orb].
  unfold id.
  destruct (Z.eqb_spec status 0), (Z.leb_spec 400 status),
           (Z.ltb_spec status 500), (Z.leb_spec 500 status);
    cbn; try reflexivity; lia.
Qed.

(** X10. Without error interceptors, a failure that carries a status in
    [400,500) ends the call on the spot, whatever attempts remain: what
    [makeRequest] throws is that failure itself, or, when its message has
    [Network], [network] or [fetch] in it, a [NetworkError] with the same
    message and no status; no backoff sleep and no further dispatch
    follow. *)
Theorem client_error_is_never_retried :
  forall (fetch : nat -> string -> Headers -> FetchOutcome) (this : HttpService)
         (fuel : nat) (url : string) (config : RequestConfig) (attempt status : Z)
         (w w1 : Trace) (e : HttpServiceError),
    errorInterceptors this = [] ->
    makeRequestWithAuth fetch this authFuel url config 0 w
    = Some (Throw (ExnHttpServiceError e), w1) ->
    err_status e = Some status ->
    400 <= status < 500 ->
    makeRequest fetch this (S fuel) url config attempt w
    = Some (Throw (ExnHttpServiceError
                     (if includes "Network" (err_message e)
                         || includes "network" (err_message e)
                         || includes "fetch" (err_message e)
                      then new_NetworkError (err_message e)
                      else e)),
            w1).
Proof.
  intros fetch this fuel url config attempt status w w1 e Hnone Hauth Hs Hrange.
  rewrite makeRequest_unfold. unfold tryCatch. rewrite Hauth.
  unfold bind, handleRequestError.
  cbn [instanceofError messageOf andb].
  destruct (includes "Network" (err_message e) || includes "network" (err_message e)
            || includes "fetch" (err_message e)); [reflexivity |].
  unfold applyErrorInterceptors. rewrite Hnone. cbn [forInterceptors wrapError].
  unfold ret.
  assert (Hno : shouldRetry e = false).
  { unfold shouldRetry. rewrite Hs. cbn [default from_option]. unfold id.
    destruct (Z.eqb_spec status 0), (Z.leb_spec 400 status),
             (Z.ltb_spec status 500); cbn; try reflexivity; lia. }
  rewrite Hno, andb_false_r. reflexivity.
Qed.

Lemma not_found_is_not_retried :
  makeRequest (script [notFound; okResponse]) defaultService 4 "/users/9"
              getConfig 0 []
  = Some (Throw (ExnHttpServiceError
                   (createHttpError 404 "Not Found"
                      (Some {| raw_ok := false; raw_status := 404;
                               raw_statusText := "Not Found";
                               raw_headers := [("content-type", "application/json")];
                               raw_body := JsObject "{}" |})
                      (Some getConfig))),
          [EvFetch "/users/9" []]).
Proof.
  rewrite (client_error_is_never_retried
             (script [notFound; okResponse]) defaultService 3 "/users/9"
             getConfig 0 404 [] [EvFetch "/users/9" []]
             (createHttpError 404 "Not Found"
                (Some {| raw_ok := false; raw_status := 404;
                         raw_statusText := "Not Found";
                               raw_headers := [("content-type", "application/json")];
                         raw_body := JsObject "{}" |})
                (Some getConfig))).
  - reflexivity.
  - reflexivity.
  - reflexivity.
  - reflexivity.
  - lia.
Defined.

(** A 404 whose status text has the word [network] in it is rejected as a
    [NetworkError] without status. *)
Example not_found_with_network_in_its_text :
  makeRequest (script [respond 404 "No network route" (JsObject "{}")])
              defaultService 4 "/users/9" getConfig 0 []
  = Some (Throw (ExnHttpServiceError
                   (new_NetworkError "HTTP 404: No network route")),
          [EvFetch "/users/9" []]).
Proof. vm_compute. reflexivity. Qed.

(** X11. With [skipAuth] set, [makeRequestWithAuth] is one dispatch and
    nothing else: what the dispatch returns or throws, a 401 included, is
    the outcome as it comes. The token provider is not asked and nothing is
    refreshed. Either preparing the headers throws and the transport is not
    called at all, or [executeRequest] calls it once with the prepared
    headers. *)
Theorem skipAuth_means_single_dispatch :
  forall (fetch : nat -> string -> Headers -> FetchOutcome) (this : HttpService)
         (fuel : nat) (url : string) (config : RequestConfig) (attempt : Z)
         (w : Trace),
    cfg_skipAuth config = true ->
    makeRequestWithAuth fetch this (S fuel) url config attempt w
    = dispatch fetch this url config w
    /\ exists (c : Completion Exn HttpResponse) (w' : Trace),
        dispatch fetch this url config w = Some (c, w')
        /\ occurrences isGetToken w' = occurrences isGetToken w
        /\ occurrences isRefreshToken w' = occurrences isRefreshToken w
        /\ ((exists e : Exn,
                prepareHeaders this config w = Some (Throw e, w')
                /\ c = Throw e
                /\ occurrences isFetch w' = occurrences isFetch w)
            \/ (exists (headers : Headers) (w1 : Trace),
                   prepareHeaders this config w = Some (Return headers, w1)
                   /\ executeRequest fetch url config headers w1 = Some (c, w')
                   /\ w' = w1 ++ [EvFetch url headers]
                   /\ occurrences isFetch w1 = occurrences isFetch w)).
Proof.
  intros fetch this fuel url config attempt w Hskip. split.
  - rewrite makeRequestWithAuth_unfold. unfold tryCatch.
    destruct (dispatch fetch this url config w) as [[[response | error] w'] |];
      try reflexivity.
    rewrite Hskip. cbn [negb]. rewrite andb_false_r. reflexivity.
  - destruct (dispatch_trace fetch this url config w)
      as (evs & Hevs & Hg & [(e & Hprep & Hrun) | (c & headers & Hprep & Hexec & Hrun)]);
      destruct (preparing_counts evs Hevs) as (Hf & Hr & _);
      specialize (Hg Hskip).
    + exists (Throw e), (w ++ evs). split; [exact Hrun |].
      split; [rewrite occurrences_app, Hg; lia |].
      split; [rewrite occurrences_app, Hr; lia |].
      left. exists e. split; [exact Hprep |]. split; [reflexivity |].
      rewrite occurrences_app, Hf. lia.
    + exists c, (w ++ evs ++ [EvFetch url headers]). split; [exact Hrun |].
      split; [rewrite !occurrences_app, Hg; cbn; lia |].
      split; [rewrite !occurrences_app, Hr; cbn; lia |].
      right. exists headers, (w ++ evs). split; [exact Hprep |].
      split; [exact Hexec |].
      split; [apply app_assoc | rewrite occurrences_app, Hf; lia].
Qed.

Lemma skipAuth_401_is_thrown :
  makeRequestWithAuth (script [unauthorized]) authService authFuel "/me"
    {| cfg_method := Some "GET"; cfg_headers := None; cfg_body := JsUndefined;
       cfg_signal := None; cfg_url := None; cfg_timeout := None;
       cfg_retries := None; cfg_retryDelay := None; cfg_skipAuth := true;
       cfg_skipCache := false; cfg_skipCsrf := false; cfg_cacheTimeout := None;
       cfg_params := None; cfg_data := JsUndefined |} 0 []
  = dispatch (script [unauthorized]) authService "/me"
      {| cfg_method := Some "GET"; cfg_headers := None; cfg_body := JsUndefined;
         cfg_signal := None; cfg_url := None; cfg_timeout := None;
         cfg_retries := None; cfg_retryDelay := None; cfg_skipAuth := true;
         cfg_skipCache := false; cfg_skipCsrf := false; cfg_cacheTimeout := None;
         cfg_params := None; cfg_data := JsUndefined |} [].
Proof.
  apply (skipAuth_means_single_dispatch
           (script [unauthorized]) authService 1 "/me"
           {| cfg_method := Some "GET"; cfg_headers := None;
              cfg_body := JsUndefined; cfg_signal := None; cfg_url := None;
              cfg_timeout := None; cfg_retries := None;
              cfg_retryDelay := None; cfg_skipAuth := true;
              cfg_skipCache := false; cfg_skipCsrf := false;
              cfg_cacheTimeout := None; cfg_params := None;
              cfg_data := JsUndefined |} 0 [] eq_refl).
Defined.

(** A header name with a space in it: [mergeHeaders] throws, the
    transport is not called, and the [TypeError] comes back wrapped. *)
Example invalid_header_name_prevents_the_call :
  makeRequest (script [okResponse]) defaultService 4 "/users"
    {| cfg_method := Some "GET"; cfg_headers := Some [("X Bad", "1")];
       cfg_body := JsUndefined; cfg_signal := None; cfg_url := None;
       cfg_timeout := None; cfg_retries := None; cfg_retryDelay := None;
       cfg_skipAuth := false; cfg_skipCache := false; cfg_skipCsrf := false;
       cfg_cacheTimeout := None; cfg_params := None; cfg_data := JsUndefined |}
    0 []
  = Some (Throw (ExnHttpServiceError
                   (new_HttpServiceError "Invalid header"
                      {| opt_status := None; opt_statusText := None;
                         opt_response := None;
                         opt_config :=
                           Some {| cfg_method := Some "GET";
                                   cfg_headers := Some [("X Bad", "1")];
                                   cfg_body := JsUndefined; cfg_signal := None;
                                   cfg_url := None; cfg_timeout := None;
                                   cfg_retries := None; cfg_retryDelay := None;
                                   cfg_skipAuth := false; cfg_skipCache := false;
                                   cfg_skipCsrf := false;
                                   cfg_cacheTimeout := None; cfg_params := None;
                                   cfg_data := JsUndefined |};
                         opt_isNetworkError := None; opt_isTimeoutError := None;
                         opt_isAbortError := None |})),
          []).
Proof. vm_compute. reflexivity. Qed.

(** ** http-service.ts: the backoff schedule *)

Lemma filter_isSleep_app (w1 w2 : Trace) :
  List.filter isSleep (w1 ++ w2) = List.filter isSleep w1 ++ List.filter isSleep w2.
Proof. apply List.filter_app. Qed.

Lemma dispatch_sleeps (fetch : nat -> string -> Headers -> FetchOutcome)
      (this : HttpService) (url : string) (config : RequestConfig)
      (w w' : Trace) (c : Completion Exn HttpResponse) :
  dispatch fetch this url config w = Some (c, w') ->
  List.filter isSleep w' = List.filter isSleep w.
Proof.
  intros H.
  assert (Hquiet : forall evs, forallb isPreparing evs = true ->
                               List.filter isSleep evs = []).
  { intros evs Hevs. apply List.length_zero_iff_nil.
    apply (preparing_counts evs Hevs). }
  destruct (dispatch_trace fetch this url config w)
    as (evs & Hevs & _ & [(e & _ & Hrun) | (c0 & headers & _ & _ & Hrun)]);
    rewrite Hrun in H; injection H as _ <-;
    rewrite !filter_isSleep_app, (Hquiet evs Hevs); cbn;
    rewrite ?app_nil_r; reflexivity.
Qed.

Lemma refreshAuthToken_sleeps (this : HttpService) (w w' : Trace)
      (c : Completion Exn (option string)) :
  refreshAuthToken this w = Some (c, w') ->
  List.filter isSleep w' = List.filter isSleep w.
Proof.
  unfold refreshAuthToken.
  destruct (authConfig this) as [[? [refreshToken |] onTokenRefresh onAuthError] |];
    unfold_io; try (intros [= <- <-]; reflexivity).
  destruct (refreshToken (occurrences isRefreshToken w)) as [token | e].
  - destruct onTokenRefresh as [refreshed |].
    + destruct (refreshed token) as [[] | e'].
      * intros [= <- <-]. rewrite !filter_isSleep_app. cbn.
        rewrite !app_nil_r. reflexivity.
      * destruct onAuthError as [failed |]; [destruct (failed e') as [[] | e''] |];
          intros [= <- <-]; rewrite !filter_isSleep_app; cbn;
          rewrite !app_nil_r; reflexivity.
    + intros [= <- <-]. rewrite !filter_isSleep_app. cbn.
      rewrite !app_nil_r. reflexivity.
  - destruct onAuthError as [failed |]; [destruct (failed e) as [[] | e'] |];
      intros [= <- <-]; rewrite !filter_isSleep_app; cbn;
      rewrite !app_nil_r; reflexivity.
Qed.

(** One backoff attempt: at most two dispatches, no sleep. *)
Lemma makeRequestWithAuth_counts
      (fetch : nat -> string -> Headers -> FetchOutcome) (this : HttpService)
      (url : string) (config : RequestConfig) (w w' : Trace)
      (c : Completion Exn HttpResponse) :
  makeRequestWithAuth fetch this authFuel url config 0 w = Some (c, w') ->
  List.filter isSleep w' = List.filter isSleep w
  /\ (occurrences isFetch w <= occurrences isFetch w')%nat
  /\ (occurrences isFetch w' <= occurrences isFetch w + 2)%nat.
Proof.
  unfold authFuel. rewrite makeRequestWithAuth_unfold. unfold tryCatch.
  destruct (dispatch fetch this url config w) as [[[response | error] w1] |] eqn:Hd;
    [| | discriminate];
    destruct (dispatch_counts _ _ _ _ _ _ _ Hd) as [Hf1 _];
    pose proof (dispatch_sleeps _ _ _ _ _ _ _ Hd) as Hs1.
  - intros [= <- <-]. split; [exact Hs1 | lia].
  - destruct (isStatus401 error && negb (cfg_skipAuth config) && (0 =? 0)).
    2: { unfold throw. intros [= <- <-]. split; [exact Hs1 | lia]. }
    unfold bind.
    destruct (refreshAuthToken this w1) as [[r w2] |] eqn:Hr; [| discriminate].
    pose proof (refreshAuthToken_sleeps _ _ _ _ Hr) as Hs2.
    destruct (refreshAuthToken_trace this w1) as (r' & evs & Hr' & _ & Hf2).
    rewrite Hr in Hr'. injection Hr' as _ ->.
    assert (Hfw2 : occurrences isFetch (w1 ++ evs) = occurrences isFetch w1)
      by (rewrite occurrences_app, Hf2; lia).
    destruct r as [[token |] | e]; unfold throw;
      try (intros [= <- <-]; split; [congruence | lia]).
    destruct (negb (String.eqb token ""));
      [| intros [= <- <-]; split; [congruence | lia]].
    rewrite makeRequestWithAuth_second. intros Hd2.
    destruct (dispatch_counts _ _ _ _ _ _ _ Hd2) as [Hf3 _].
    pose proof (dispatch_sleeps _ _ _ _ _ _ _ Hd2) as Hs3.
    split; [congruence | lia].
Qed.

Lemma handleRequestError_counts (this : HttpService) (error : Exn)
      (config : RequestConfig) (w w' : Trace) (c : Completion Exn HttpServiceError) :
  handleRequestError this error config w = Some (c, w') ->
  List.filter isSleep w' = List.filter isSleep w
  /\ occurrences isFetch w' = occurrences isFetch w.
Proof.
  unfold handleRequestError.
  repeat match goal with
         | |- context [if ?b then _ else _] => destruct b
         end;
    try (unfold throw; intros [= <- <-]; auto).
  unfold applyErrorInterceptors. intros H.
  destruct (forInterceptors_trace EvErrorInterceptor (errorInterceptors this)
                                  0%nat (wrapError error config) w) as [c0 Hc].
  rewrite Hc in H. injection H as _ <-.
  assert (Hnone : forall kind : Event -> bool,
             (forall i x, kind (EvErrorInterceptor i x) = false) ->
             List.filter kind
               (interceptorEvents EvErrorInterceptor 0 (errorInterceptors this)
                                  (wrapError error config)) = []).
  { intros kind Hkind. apply List.length_zero_iff_nil.
    apply (interceptorEvents_none EvErrorInterceptor kind _ Hkind). }
  rewrite filter_isSleep_app, occurrences_app. unfold occurrences.
  rewrite !Hnone by reflexivity. rewrite app_nil_r. cbn. auto.
Qed.

(** X12. The sleeps of a call follow the backoff schedule: from attempt
    [a] the call sleeps [n] times, for [calculateBackoff a], [a+1], ... in
    this order, where [n] is at most the retries left; [executeRequest]
    calls the transport at most [2(n+1)] times. *)
Theorem sleeps_follow_backoff_schedule :
  forall (fetch : nat -> string -> Headers -> FetchOutcome) (this : HttpService)
         (url : string) (config : RequestConfig) (fuel : nat) (attempt : Z)
         (w w' : Trace) (c : Completion Exn HttpResponse),
    makeRequest fetch this fuel url config attempt w = Some (c, w') ->
    exists n : nat,
      List.filter isSleep w'
      = List.filter isSleep w
        ++ List.map
             (fun i => EvSleep
                         (calculateBackoff (attempt + Z.of_nat i)
                            (Some (orDefault (cfg_retryDelay config)
                                             (retryDelay (this_config this))))))
             (List.seq 0 n)
      /\ Z.of_nat n
         <= Z.max 0 (default (retries (this_config this)) (cfg_retries config)
                     - attempt)
      /\ (occurrences isFetch w <= occurrences isFetch w')%nat
      /\ (occurrences isFetch w' <= occurrences isFetch w + 2 * (n + 1))%nat.
Proof.
  intros fetch this url config.
  induction fuel as [| fuel IH]; intros attempt w w' c; [discriminate |].
  rewrite makeRequest_unfold. unfold tryCatch.
  destruct (makeRequestWithAuth fetch this authFuel url config 0 w)
    as [[[response | error] w1] |] eqn:Ha; [| | discriminate];
    destruct (makeRequestWithAuth_counts _ _ _ _ _ _ _ Ha) as (Hs1 & Hlo1 & Hhi1).
  - intros [= <- <-]. exists 0%nat. cbn [List.seq List.map].
    rewrite app_nil_r. repeat split; try lia. exact Hs1.
  - unfold bind at 1.
    destruct (handleRequestError this error config w1) as [[[pe | e] w2] |] eqn:Hh;
      [| | discriminate];
      destruct (handleRequestError_counts _ _ _ _ _ _ Hh) as [Hs2 Hf2].
    2: { intros [= <- <-]. exists 0%nat. cbn [List.seq List.map].
         rewrite app_nil_r. repeat split; try lia. congruence. }
    destruct (Z.ltb_spec attempt
                (default (retries (this_config this)) (cfg_retries config)))
      as [Hlt | Hge]; cbn [andb].
    2: { unfold throw. intros [= <- <-]. exists 0%nat. cbn [List.seq List.map].
         rewrite app_nil_r. repeat split; try lia. congruence. }
    destruct (shouldRetry pe).
    2: { unfold throw. intros [= <- <-]. exists 0%nat. cbn [List.seq List.map].
         rewrite app_nil_r. repeat split; try lia. congruence. }
    unfold bind, sleep, emit. intros Hrest.
    destruct (IH _ _ _ _ Hrest) as (n & Hsl & Hn & Hlo & Hhi).
    exists (S n). rewrite Hsl, filter_isSleep_app, Hs2, Hs1.
    rewrite occurrences_app in Hlo, Hhi. cbn in Hlo, Hhi.
    split; [| split; [lia | split; lia]].
    cbn [List.filter isSleep List.seq List.map]. rewrite <- app_assoc.
    f_equal. cbn [app]. rewrite Z.add_0_r. f_equal.
    rewrite <- List.seq_shift, List.map_map. apply List.map_ext.
    intros i. do 2 f_equal. lia.
Qed.

(** The schedule of the call that meets 503 three times and then 200. *)
Lemma three_sleeps_of_1_2_4_seconds :
  exists (c : Completion Exn HttpResponse) (w' : Trace) (n : nat),
    makeRequest (script [unavailable; unavailable; unavailable; okResponse])
                defaultService 4 "/users" getConfig 0 []
    = Some (c, w')
    /\ List.filter isSleep w' = [EvSleep 1000; EvSleep 2000; EvSleep 4000]
    /\ List.filter isSleep w'
       = List.map (fun i => EvSleep (calculateBackoff (0 + Z.of_nat i)
                                       (Some 1000)))
                  (List.seq 0 n)
    /\ Z.of_nat n <= 3
    /\ (occurrences isFetch w' <= 2 * (n + 1))%nat.
Proof.
  destruct (makeRequest (script [unavailable; unavailable; unavailable; okResponse])
                        defaultService 4 "/users" getConfig 0 [])
    as [[c w'] |] eqn:Hrun; [| vm_compute in Hrun; discriminate].
  destruct (sleeps_follow_backoff_schedule _ _ _ _ _ _ _ _ _ Hrun)
    as (n & Hs & Hn & _ & Hhi).
  exists c, w', n. split; [reflexivity |].
  split; [vm_compute in Hrun; injection Hrun as _ <-; reflexivity |].
  split; [exact Hs |]. split; [exact Hn | exact Hhi].
Defined.

(** ** utils.ts *)

Lemma toLowerCaseChar_idempotent (c : ascii) :
  toLowerCaseChar (toLowerCaseChar c) = toLowerCaseChar c.
Proof. destruct c as [[] [] [] [] [] [] [] []]; reflexivity. Qed.

Lemma toLowerCase_idempotent (s : string) :
  toLowerCase (toLowerCase s) = toLowerCase s.
Proof.
  induction s as [| c s IH]; simpl; [reflexivity |].
  rewrite toLowerCaseChar_idempotent, IH. reflexivity.
Qed.

Lemma MapGet_insertHeader_eq (name value : string) (h : Headers) :
  MapHas name h = false -> MapGet name (insertHeader name value h) = Some value.
Proof.
  unfold MapHas. induction h as [| [k v] h IH]; cbn [insertHeader].
  - intros _. rewrite MapGet_cons, String.eqb_refl. reflexivity.
  - rewrite MapGet_cons. destruct (String.eqb k name) eqn:Hk; [discriminate |].
    intros Hnone. destruct (String.ltb name k).
    + rewrite MapGet_cons, String.eqb_refl. reflexivity.
    + rewrite MapGet_cons, Hk. apply IH. exact Hnone.
Qed.

Lemma MapGet_insertHeader_ne (name name' value : string) (h : Headers) :
  name <> name' -> MapGet name' (insertHeader name value h) = MapGet name' h.
Proof.
  intros Hne. apply String.eqb_neq in Hne.
  induction h as [| [k v] h IH]; cbn [insertHeader].
  - rewrite MapGet_cons, Hne. reflexivity.
  - destruct (String.ltb name k).
    + rewrite MapGet_cons, Hne. reflexivity.
    + rewrite !MapGet_cons, IH. reflexivity.
Qed.

Lemma keys_insertHeader (name value k : string) (h : Headers) :
  In k (List.map fst (insertHeader name value h))
  <-> k = name \/ In k (List.map fst h).
Proof.
  induction h as [| [k' v] h IH]; cbn [insertHeader].
  - cbn. intuition auto.
  - destruct (String.ltb name k'); cbn in *; intuition auto.
Qed.

Lemma NoDup_insertHeader (name value : string) (h : Headers) :
  List.NoDup (List.map fst h) -> ~ In name (List.map fst h) ->
  List.NoDup (List.map fst (insertHeader name value h)).
Proof.
  induction h as [| [k v] h IH]; cbn [insertHeader]; intros Hnd Hnew.
  - cbn. constructor; [intros [] | constructor].
  - destruct (String.ltb name k).
    + cbn. constructor; [exact Hnew | exact Hnd].
    + cbn in *. inversion Hnd as [| k' keys Hk Hnd']. subst.
      constructor.
      * rewrite keys_insertHeader. intros [-> | Hin]; [| exact (Hk Hin)].
        apply Hnew. left. reflexivity.
      * apply IH; [exact Hnd' |]. intros Hin. apply Hnew. right. exact Hin.
Qed.

Lemma ltb_total (a b : string) : a <> b -> String.ltb a b = false -> String.ltb b a = true.
Proof.
  unfold String.ltb. intros Hne. rewrite (String.compare_antisym b a).
  destruct (String.compare a b) eqn:Hc; cbn; try reflexivity; try discriminate.
  apply String.compare_eq_iff in Hc. contradiction.
Qed.

Lemma ascending_insertHeader (name value : string) (h : Headers) :
  ascending (List.map fst h) = true -> ~ In name (List.map fst h) ->
  ascending (List.map fst (insertHeader name value h)) = true.
Proof.
  induction h as [| [k v] h IH]; cbn [insertHeader]; intros Hasc Hnew.
  - reflexivity.
  - destruct (String.ltb name k) eqn:Hlt.
    + cbn [List.map fst ascending] in *. rewrite Hlt. exact Hasc.
    + assert (Hk : String.ltb k name = true).
      { apply ltb_total; [| exact Hlt]. intros <-. apply Hnew. left. reflexivity. }
      assert (Hrest : ascending (List.map fst (insertHeader name value h)) = true).
      { apply IH.
        - cbn [List.map fst ascending] in Hasc. destruct h as [| [k' v'] h'];
            [reflexivity |]. cbn [List.map fst] in Hasc.
          apply andb_prop in Hasc as [_ Hasc]. exact Hasc.
        - intros Hin. apply Hnew. right. exact Hin. }
      destruct h as [| [k' v'] h']; cbn [insertHeader List.map fst ascending] in *.
      * rewrite Hk. reflexivity.
      * destruct (String.ltb name k'); cbn [List.map fst ascending] in *.
        -- rewrite Hk. exact Hrest.
        -- apply andb_prop in Hasc as [Hkk' _]. rewrite Hkk'. exact Hrest.
Qed.

(** A [Headers] collection as [set] keeps it. *)
Lemma storeHeader_keeps_order (name value : string) (h : Headers) :
  toLowerCase name = name ->
  List.NoDup (List.map fst h)
  /\ List.Forall (fun k => toLowerCase k = k) (List.map fst h)
  /\ ascending (List.map fst h) = true ->
  List.NoDup (List.map fst (storeHeader name value h))
  /\ List.Forall (fun k => toLowerCase k = k)
                 (List.map fst (storeHeader name value h))
  /\ ascending (List.map fst (storeHeader name value h)) = true.
Proof.
  intros Hlower (Hnd & Hlow & Hasc). unfold storeHeader.
  destruct (MapHas name h) eqn:Hhas.
  - rewrite keys_MapSet, Hhas. auto.
  - assert (Hnew : ~ In name (List.map fst h))
      by (intros Hin; apply MapHas_keys in Hin; congruence).
    split; [apply NoDup_insertHeader; assumption |].
    split; [| apply ascending_insertHeader; assumption].
    apply List.Forall_forall. intros k Hk. apply keys_insertHeader in Hk.
    destruct Hk as [-> | Hk]; [exact Hlower |].
    exact (proj1 (List.Forall_forall _ _) Hlow k Hk).
Qed.

Lemma MapGet_storeHeader (name name' value : string) (h : Headers) :
  MapGet name' (storeHeader name value h)
  = if String.eqb name name' then Some value else MapGet name' h.
Proof.
  unfold storeHeader.
  destruct (String.eqb_spec name name') as [<- | Hne];
    destruct (MapHas name h) eqn:Hhas.
  - apply MapGet_MapSet_eq.
  - apply MapGet_insertHeader_eq. exact Hhas.
  - apply MapGet_MapSet_ne. exact Hne.
  - apply MapGet_insertHeader_ne. exact Hne.
Qed.

Lemma processHeaders_thrown (source : HeadersInit) (refused : string * string) :
  fold_left
    (fun (merged : Completion (string * string) Headers) (kv : string * string) =>
       match merged with
       | Return merged => HeadersSet (fst kv) (snd kv) merged
       | Throw refused => Throw refused
       end)
    source (Throw refused)
  = Throw refused.
Proof. induction source as [| kv source IH]; cbn; auto. Qed.

Lemma processHeaders_cons (kv : string * string) (source : HeadersInit)
      (merged : Headers) :
  processHeaders (kv :: source) merged
  = if validHeader kv
    then processHeaders source
           (storeHeader (toLowerCase (fst kv)) (normalizeValue (snd kv)) merged)
    else Throw kv.
Proof.
  unfold processHeaders. cbn [fold_left]. unfold HeadersSet.
  destruct kv as [name value]. cbn [fst snd].
  destruct (validHeader (name, value)); [reflexivity |].
  apply processHeaders_thrown.
Qed.

Lemma lookupLast_cons (name : string) (kv : string * string)
      (source : HeadersInit) :
  lookupLast name (kv :: source)
  = match lookupLast name source with
    | Some v => Some v
    | None => if String.eqb (toLowerCase (fst kv)) (toLowerCase name)
              then Some (snd kv) else None
    end.
Proof.
  unfold lookupLast. cbn [fold_left].
  generalize (if String.eqb (toLowerCase (fst kv)) (toLowerCase name)
              then Some (snd kv) else @None string).
  induction source as [| kv' source IH]; intros found; cbn [fold_left].
  - reflexivity.
  - rewrite IH. rewrite (IH (if String.eqb _ _ then _ else None)).
    destruct (fold_left _ source None); [reflexivity |].
    destruct (String.eqb (toLowerCase (fst kv')) (toLowerCase name)); reflexivity.
Qed.

(** [processHeaders] throws at the first pair [set] refuses; when there is
    none, every name has the normalized value of the last pair for it. *)
Lemma processHeaders_spec (source : HeadersInit) :
  forall merged : Headers,
    List.NoDup (List.map fst merged)
    /\ List.Forall (fun k => toLowerCase k = k) (List.map fst merged)
    /\ ascending (List.map fst merged) = true ->
    match List.find (fun kv => negb (validHeader kv)) source with
    | Some refused => processHeaders source merged = Throw refused
    | None =>
        exists merged' : Headers,
          processHeaders source merged = Return merged'
          /\ (List.NoDup (List.map fst merged')
              /\ List.Forall (fun k => toLowerCase k = k) (List.map fst merged')
              /\ ascending (List.map fst merged') = true)
          /\ forall name : string,
              HeadersGet name merged'
              = match lookupLast name source with
                | Some v => Some (normalizeValue v)
                | None => HeadersGet name merged
                end
    end.
Proof.
  induction source as [| kv source IH]; intros merged Hwf.
  - cbn. exists merged. auto.
  - cbn [List.find]. rewrite processHeaders_cons.
    destruct (validHeader kv) eqn:Hvalid; cbn [negb]; [| reflexivity].
    set (stored := storeHeader (toLowerCase (fst kv)) (normalizeValue (snd kv))
                               merged).
    assert (Hstored : List.NoDup (List.map fst stored)
                      /\ List.Forall (fun k => toLowerCase k = k)
                                     (List.map fst stored)
                      /\ ascending (List.map fst stored) = true)
      by (apply storeHeader_keeps_order;
          [apply toLowerCase_idempotent | exact Hwf]).
    specialize (IH stored Hstored).
    destruct (List.find (fun kv => negb (validHeader kv)) source) as [refused |];
      [exact IH |].
    destruct IH as (merged' & Hrun & Hwf' & Hget).
    exists merged'. split; [exact Hrun |]. split; [exact Hwf' |].
    intros name. rewrite Hget, lookupLast_cons.
    destruct (lookupLast name source) as [v |]; [reflexivity |].
    unfold HeadersGet, stored. rewrite MapGet_storeHeader.
    destruct (String.eqb (toLowerCase (fst kv)) (toLowerCase name)); reflexivity.
Qed.

Lemma mergeHeaders_snoc (sources : list (option HeadersInit))
      (source : option HeadersInit) :
  mergeHeaders (sources ++ [source])
  = match mergeHeaders sources, source with
    | Return merged, Some h => processHeaders h merged
    | merged, _ => merged
    end.
Proof.
  unfold mergeHeaders. rewrite fold_left_app. cbn [fold_left].
  match goal with |- context [fold_left ?f sources ?a] =>
    destruct (fold_left f sources a) end;
    destruct source; reflexivity.
Qed.

Lemma mergeHeaders_keeps_order (sources : list (option HeadersInit)) :
  forall merged : Headers,
    mergeHeaders sources = Return merged ->
    List.NoDup (List.map fst merged)
    /\ List.Forall (fun k => toLowerCase k = k) (List.map fst merged)
    /\ ascending (List.map fst merged) = true.
Proof.
  induction sources as [| source sources IH] using rev_ind; intros merged.
  - intros [= <-]. repeat split; constructor.
  - rewrite mergeHeaders_snoc.
    destruct (mergeHeaders sources) as [earlier_ | refused] eqn:Hearlier;
      [| destruct source; discriminate].
    specialize (IH earlier_ eq_refl).
    destruct source as [h |]; [| intros [= <-]; exact IH].
    pose proof (processHeaders_spec h earlier_ IH) as Hspec.
    destruct (List.find (fun kv => negb (validHeader kv)) h) as [refused |].
    + rewrite Hspec. discriminate.
    + destruct Hspec as (merged' & -> & Hwf & _). intros [= <-]. exact Hwf.
Qed.

(** X13. [mergeHeaders] gives one value per header name, names compared
    without regard to case and values stripped of the HTTP whitespace
    around them: the names of the result are in lower case, distinct and in
    ascending order. A further source overrides the earlier ones where it
    has the name, with the last value it has for it, and leaves the value
    of every other header name as it was, unless [headers.set] refuses one
    of its pairs: then [mergeHeaders] throws the [TypeError] of the first
    such pair. An [undefined] source changes nothing. *)
Theorem mergeHeaders_later_source_wins :
  forall (sources : list (option HeadersInit)) (source : HeadersInit)
         (merged : Headers),
    mergeHeaders sources = Return merged ->
    (List.NoDup (List.map fst merged)
     /\ List.Forall (fun k => toLowerCase k = k) (List.map fst merged)
     /\ ascending (List.map fst merged) = true)
    /\ mergeHeaders (sources ++ [None]) = Return merged
    /\ match List.find (fun kv => negb (validHeader kv)) source with
       | Some refused => mergeHeaders (sources ++ [Some source]) = Throw refused
       | None =>
           exists merged' : Headers,
             mergeHeaders (sources ++ [Some source]) = Return merged'
             /\ forall name : string,
                 isHeaderName name = true ->
                 HeadersGet name merged'
                 = match lookupLast name source with
                   | Some v => Some (normalizeValue v)
                   | None => HeadersGet name merged
                   end
       end.
Proof.
  intros sources source merged Hmerged.
  pose proof (mergeHeaders_keeps_order sources merged Hmerged) as Hwf.
  split; [exact Hwf |].
  split; [rewrite mergeHeaders_snoc, Hmerged; reflexivity |].
  rewrite mergeHeaders_snoc, Hmerged.
  pose proof (processHeaders_spec source merged Hwf) as Hspec.
  destruct (List.find (fun kv => negb (validHeader kv)) source) as [refused |];
    [exact Hspec |].
  destruct Hspec as (merged' & Hrun & _ & Hget).
  exists merged'. split; [exact Hrun |]. intros name _. apply Hget.
Qed.

Lemma mergeHeaders_ignores_case :
  exists merged' : Headers,
    mergeHeaders [Some [("X-A", "1"); ("Content-Type", " text/plain ")];
                  Some [("content-type", "application/json")]]
    = Return merged'
    /\ HeadersGet "Content-Type" merged' = Some "application/json"
    /\ HeadersGet "x-a" merged' = Some "1".
Proof.
  destruct (mergeHeaders_later_source_wins
              [Some [("X-A", "1"); ("Content-Type", " text/plain ")]]
              [("content-type", "application/json")]
              [("content-type", "text/plain"); ("x-a", "1")] eq_refl)
    as (_ & _ & merged' & Hrun & Hget).
  exists merged'. split; [exact Hrun |].
  split; [apply (Hget "Content-Type") | apply (Hget "x-a")]; reflexivity.
Defined.

Example mergeHeaders_normalizes_and_refuses :
  mergeHeaders [Some [("X-B", " v "); ("X-A", "1")]]
  = Return [("x-a", "1"); ("x-b", "v")]
  /\ mergeHeaders [Some [("X-A", "1"); ("X Bad", "2"); ("X-C", "3")]]
     = Throw ("X Bad", "2")
  /\ mergeHeaders [Some [("X-A", String "010" "1")]] = Return [("x-a", "1")]
  /\ mergeHeaders [Some [("X-A", String "a" (String "010" "b"))]]
     = Throw ("X-A", String "a" (String "010" "b")).
Proof. repeat split. Qed.

Lemma stringForall_append (test : ascii -> bool) (s1 s2 : string) :
  stringForall test (s1 +:+ s2) = stringForall test s1 && stringForall test s2.
Proof.
  induction s1 as [| c s1 IH]; simpl; [reflexivity |].
  rewrite IH, andb_assoc. reflexivity.
Qed.

Lemma countChar_append (c : ascii) (s1 s2 : string) :
  countChar c (s1 +:+ s2) = (countChar c s1 + countChar c s2)%nat.
Proof.
  induction s1 as [| c' s1 IH]; simpl; [reflexivity |]. rewrite IH. lia.
Qed.

Lemma encoded_char_safe (c : ascii) :
  stringForall uriSafe (if uriUnreserved c then String c "" else percentEncode c)
  = true.
Proof. destruct c as [[] [] [] [] [] [] [] []]; reflexivity. Qed.

Lemma encodeURIComponent_safe (s : string) :
  stringForall uriSafe (encodeURIComponent s) = true.
Proof.
  induction s as [| c s IH]; simpl; [reflexivity |].
  rewrite stringForall_append, encoded_char_safe, IH. reflexivity.
Qed.

Lemma countChar_safe (c : ascii) (s : string) :
  uriSafe c = false -> stringForall uriSafe s = true -> countChar c s = 0%nat.
Proof.
  intros Hc. induction s as [| c' s IH]; simpl; [reflexivity |].
  intros H. apply andb_prop in H as [Hc' Hs].
  destruct (Ascii.eqb_spec c' c) as [-> | _]; [congruence |]. auto.
Qed.

Lemma countChar_encodePair (c : ascii) (entry : string * ParamValue) :
  uriSafe c = false ->
  countChar c (encodePair entry) = if Ascii.eqb "=" c then 1%nat else 0%nat.
Proof.
  intros Hc. unfold encodePair.
  rewrite !countChar_append.
  rewrite (countChar_safe c (encodeURIComponent (fst entry)) Hc)
    by apply encodeURIComponent_safe.
  rewrite (countChar_safe c (encodeURIComponent (String_ (snd entry))) Hc)
    by apply encodeURIComponent_safe.
  cbn [countChar]. rewrite !Nat.add_0_r. reflexivity.
Qed.

Lemma countChar_query (c : ascii) (entries : list (string * ParamValue)) :
  uriSafe c = false ->
  countChar c (join "&" (List.map encodePair entries))
  = ((if Ascii.eqb "=" c then length entries else 0)
     + (if Ascii.eqb "&" c then pred (length entries) else 0))%nat.
Proof.
  intros Hc. induction entries as [| e [| e' rest] IH].
  - cbn [List.map join length pred countChar].
    destruct (Ascii.eqb "=" c), (Ascii.eqb "&" c); reflexivity.
  - cbn [List.map join length pred]. rewrite countChar_encodePair by exact Hc.
    destruct (Ascii.eqb "=" c), (Ascii.eqb "&" c); reflexivity.
  - change (join "&" (List.map encodePair (e :: e' :: rest)))
      with (encodePair e +:+ "&"
              +:+ join "&" (List.map encodePair (e' :: rest))).
    rewrite !countChar_append, IH, countChar_encodePair by exact Hc.
    cbn [countChar length pred]. rewrite Nat.add_0_r.
    destruct (Ascii.eqb "=" c), (Ascii.eqb "&" c); lia.
Qed.

(** X14. An encoded component holds only unreserved characters and
    percent signs, so no key or value can bring a separator into the URL
    [buildURL] returns: with [n] parameters that are neither [null] nor
    [undefined], the URL gains exactly [n] equals signs and [n] separators
    ([?] or [&]) and no hash and no space, whatever the keys and values
    hold. *)
Theorem query_separators_cannot_be_injected :
  forall (s url : string) (entries : list (string * ParamValue)),
    let n := length (List.filter present entries) in
    let result := buildURL url (Some entries) in
    stringForall uriSafe (encodeURIComponent s) = true
    /\ countChar "=" result = (countChar "=" url + n)%nat
    /\ (countChar "?" result + countChar "&" result
        = countChar "?" url + countChar "&" url + n)%nat
    /\ countChar "#" result = countChar "#" url
    /\ countChar " " result = countChar " " url.
Proof.
  intros s url entries n result.
  split; [apply encodeURIComponent_safe |].
  subst n result. unfold buildURL. rewrite buildURL_loop. simpl app.
  destruct entries as [| entry entries]; [cbn; lia |].
  change (length (entry :: entries) =? 0)%nat with false. cbv iota.
  rewrite <- (length_map encodePair (List.filter present (entry :: entries))).
  set (kept := List.filter present (entry :: entries)).
  destruct kept as [| e kept'] eqn:Hkept; [cbn; lia |].
  change (length (List.map encodePair (e :: kept')) =? 0)%nat with false.
  cbv iota. rewrite !countChar_append, !countChar_query by reflexivity.
  rewrite !length_map.
  destruct (includes "?" url); cbn; lia.
Qed.

Example encoded_ampersand_stays_in_its_value :
  buildURL "/s" (Some [("q", PString "a&b=c"); ("page", PNumber 2)])
  = "/s?q=a%26b%3Dc&page=2".
Proof. reflexivity. Qed.



(** ** http-service.ts: URLs and headers *)

Lemma removeTrailingSlash_added (s : string) :
  removeTrailingSlash (s +:+ "/") = s.
Proof.
  induction s as [| c s IH]; [reflexivity |].
  change (String c s +:+ "/") with (String c (s +:+ "/")).
  cbn [removeTrailingSlash].
  replace (String.eqb (s +:+ "/") "") with false
    by (destruct s; reflexivity).
  rewrite andb_false_r, IH. reflexivity.
Qed.

Lemma removeTrailingSlash_none (s : string) :
  endsWithSlash s = false -> removeTrailingSlash s = s.
Proof.
  induction s as [| c s IH]; [reflexivity |]. cbn [endsWithSlash removeTrailingSlash].
  destruct (String.eqb_spec s "") as [-> | Hs].
  - intros ->. reflexivity.
  - intros H. rewrite andb_false_r, IH by exact H. reflexivity.
Qed.

Lemma removeLeadingSlash_none (s : string) :
  startsWith "/" s = false -> removeLeadingSlash s = s.
Proof.
  destruct s as [| c s]; [reflexivity |]. unfold startsWith. cbn.
  destruct (Ascii.eqb_spec c "/") as [-> | Hc]; [| reflexivity].
  destruct s; discriminate.
Qed.

Lemma append_slash_not_empty (s : string) : String.eqb (s +:+ "/") "" = false.
Proof. destruct s; reflexivity. Qed.

(** X16. [createURL] joins base URL and path with exactly one slash: a
    base URL given with or without its trailing slash and a relative path
    given with or without its leading slash all lead to the same URL. *)
Theorem createURL_joins_with_one_slash :
  forall (this this' : HttpService) (base url : string)
         (params : option (list (string * ParamValue))),
    base <> "" ->
    endsWithSlash base = false ->
    startsWith "http" url = false ->
    startsWith "/" url = false ->
    baseURL (this_config this) = base ->
    baseURL (this_config this') = base +:+ "/" ->
    let joined := buildURL (base +:+ "/" +:+ url) params in
    createURL this url params = joined
    /\ createURL this ("/" +:+ url) params = joined
    /\ createURL this' url params = joined
    /\ createURL this' ("/" +:+ url) params = joined.
Proof.
  intros this this' base url params Hbase Hend Hhttp Hslash Hb Hb' joined.
  subst joined. unfold createURL. rewrite Hb, Hb'.
  apply String.eqb_neq in Hbase. rewrite Hbase, append_slash_not_empty, Hhttp.
  replace (startsWith "http" ("/" +:+ url)) with false by reflexivity.
  cbn [negb andb]. rewrite removeTrailingSlash_added.
  rewrite removeTrailingSlash_none by exact Hend.
  rewrite removeLeadingSlash_none by exact Hslash.
  replace (removeLeadingSlash ("/" +:+ url)) with url by reflexivity.
  auto.
Qed.

Lemma users_path_joined_once :
  createURL (serviceAt "https://api.example.com/") "/users" None
  = createURL (serviceAt "https://api.example.com") "users" None.
Proof.
  destruct (createURL_joins_with_one_slash
              (serviceAt "https://api.example.com")
              (serviceAt "https://api.example.com/")
              "https://api.example.com" "users" None)
    as (H1 & _ & _ & H4);
    [discriminate | reflexivity | reflexivity | reflexivity | reflexivity
     | reflexivity |].
  rewrite H1. exact H4.
Defined.

Lemma MapHas_MapSet_ne {V : Type} (key key' : string) (v : V)
      (m : list (string * V)) :
  key <> key' -> MapHas key' (MapSet key v m) = MapHas key' m.
Proof. intros Hne. unfold MapHas. rewrite MapGet_MapSet_ne by exact Hne. reflexivity. Qed.

Lemma MapHas_storeHeader_ne (name name' value : string) (h : Headers) :
  name <> name' -> MapHas name' (storeHeader name value h) = MapHas name' h.
Proof.
  intros Hne. unfold MapHas. rewrite MapGet_storeHeader.
  apply String.eqb_neq in Hne. rewrite Hne. reflexivity.
Qed.

(** The content types [getContentType] gives are header values. *)
Lemma contentType_set (data : JsValue) (contentType : string) (h : Headers) :
  getContentType data = Some contentType ->
  HeadersSet "Content-Type" contentType h
  = Return (storeHeader "content-type" contentType h).
Proof. destruct data; intros [= <-]; reflexivity. Qed.

Lemma withContentType_runs (this : HttpService) (data : JsValue) (h : Headers)
      (w : Trace) :
  (if truthy data && negb (HeadersHas "Content-Type" h)
   then match getContentType data with
        | Some contentType =>
            inService this (HeadersSet "Content-Type" contentType h)
        | None => ret h
        end
   else ret h) w
  = Some (Return (withContentType data h), w).
Proof.
  unfold withContentType.
  destruct (truthy data && negb (HeadersHas "Content-Type" h)); [| reflexivity].
  destruct (getContentType data) as [contentType |] eqn:Hct; [| reflexivity].
  rewrite (contentType_set data contentType h Hct). reflexivity.
Qed.

Lemma withContentType_get (data : JsValue) (h : Headers) (name : string) :
  HeadersGet name (withContentType data h)
  = if String.eqb (toLowerCase name) "content-type"
    then (if HeadersHas "Content-Type" h then HeadersGet "Content-Type" h
          else if truthy data then getContentType data else None)
    else HeadersGet name h.
Proof.
  unfold withContentType, HeadersGet, HeadersHas.
  change (toLowerCase "Content-Type") with "content-type".
  destruct (String.eqb_spec (toLowerCase name) "content-type") as [-> | Hne].
  - unfold MapHas. destruct (MapGet "content-type" h) as [v |] eqn:Hget.
    + rewrite andb_false_r. exact Hget.
    + rewrite andb_true_r. destruct (truthy data) eqn:Ht; [| exact Hget].
      destruct (getContentType data) as [ct |]; [| exact Hget].
      rewrite MapGet_storeHeader, String.eqb_refl. reflexivity.
  - destruct (truthy data && negb (MapHas "content-type" h)); [| reflexivity].
    destruct (getContentType data) as [ct |]; [| reflexivity].
    rewrite MapGet_storeHeader.
    replace (String.eqb "content-type" (toLowerCase name)) with false
      by (symmetry; apply String.eqb_neq; congruence).
    reflexivity.
Qed.

(** [prepareHeaders] on a service without CSRF manager, step by step. *)
Lemma prepareHeaders_steps (this : HttpService) (config : RequestConfig)
      (w : Trace) (merged : Headers) :
  csrfManager this = None ->
  mergeHeaders [Some (headers (this_config this)); cfg_headers config]
  = Return merged ->
  prepareHeaders this config w
  = if cfg_skipAuth config
    then Some (Return (withContentType (cfg_data config) merged), w)
    else
      match getAuthToken this w with
      | Some (Return (Some token), w1) =>
          if String.eqb token ""
          then Some (Return (withContentType (cfg_data config) merged), w1)
          else if validHeader ("Authorization", "Bearer " +:+ token)
               then Some (Return
                            (withContentType (cfg_data config)
                               (storeHeader "authorization"
                                  (normalizeValue ("Bearer " +:+ token)) merged)),
                          w1)
               else Some (Throw (ExnTypeError
                                   (headersTypeError this "Authorization"
                                      ("Bearer " +:+ token))),
                          w1)
      | Some (Return None, w1) =>
          Some (Return (withContentType (cfg_data config) merged), w1)
      | Some (Throw e, w1) => Some (Throw e, w1)
      | None => None
      end.
Proof.
  intros Hcsrf Hmerge. unfold prepareHeaders. rewrite Hmerge, Hcsrf.
  unfold bind at 1. cbn [inService]. unfold ret at 1.
  destruct (cfg_skipAuth config); cbn [negb].
  - unfold bind. unfold ret at 1. unfold ret at 1.
    apply withContentType_runs.
  - unfold bind at 1. unfold bind at 1.
    destruct (getAuthToken this w) as [[[[token |] | e] w1] |]; try reflexivity.
    + destruct (String.eqb token ""); cbn [negb].
      * unfold ret at 1. unfold bind. unfold ret at 1.
        apply withContentType_runs.
      * unfold HeadersSet.
        destruct (validHeader ("Authorization", "Bearer " +:+ token)).
        -- cbn [inService]. unfold ret at 1. unfold bind. unfold ret at 1.
           apply withContentType_runs.
        -- reflexivity.
    + unfold ret at 1. unfold bind. unfold ret at 1.
      apply withContentType_runs.
Qed.

(** X17. [prepareHeaders], for a service without CSRF manager. When
    [mergeHeaders] refuses a configured header, [prepareHeaders] throws
    the runtime's [TypeError] before the token provider is asked. When it
    returns: a non-empty token from [getToken] replaces whatever
    [Authorization] the service or the caller configured, in normalized
    form, unless the request sets [skipAuth]; a configured [Content-Type]
    is kept, and without one the type is inferred from a truthy [data] and
    from nothing else; every other header name has the merged value. A
    non-empty token that makes [Bearer <token>] a value [headers.set]
    refuses makes [prepareHeaders] throw the [TypeError], once the token
    provider has been asked. *)
Theorem prepareHeaders_precedence :
  forall (this : HttpService) (config : RequestConfig) (w : Trace),
    csrfManager this = None ->
    match mergeHeaders [Some (headers (this_config this)); cfg_headers config] with
    | Throw (name, value) =>
        prepareHeaders this config w
        = Some (Throw (ExnTypeError (headersTypeError this name value)), w)
    | Return merged =>
        (forall (w' : Trace) (result : Headers),
            prepareHeaders this config w = Some (Return result, w') ->
            (forall (a : AuthConfig) (g : nat -> Completion Exn string)
                    (token : string),
                cfg_skipAuth config = false ->
                authConfig this = Some a ->
                getToken a = Some g ->
                g (occurrences isGetToken w) = Return token ->
                token <> "" ->
                HeadersGet "Authorization" result
                = Some (normalizeValue ("Bearer " +:+ token)))
            /\ (cfg_skipAuth config = true ->
                HeadersGet "Authorization" result
                = HeadersGet "Authorization" merged)
            /\ HeadersGet "Content-Type" result
               = (if HeadersHas "Content-Type" merged
                  then HeadersGet "Content-Type" merged
                  else if truthy (cfg_data config)
                       then getContentType (cfg_data config) else None)
            /\ (forall name : string,
                   isHeaderName name = true ->
                   toLowerCase name <> "authorization" ->
                   toLowerCase name <> "content-type" ->
                   HeadersGet name result = HeadersGet name merged))
        /\ (forall (a : AuthConfig) (g : nat -> Completion Exn string)
                   (token : string),
               cfg_skipAuth config = false ->
               authConfig this = Some a ->
               getToken a = Some g ->
               g (occurrences isGetToken w) = Return token ->
               token <> "" ->
               validHeader ("Authorization", "Bearer " +:+ token) = false ->
               prepareHeaders this config w
               = Some (Throw (ExnTypeError
                                (headersTypeError this "Authorization"
                                   ("Bearer " +:+ token))),
                       w ++ [EvGetToken]))
    end.
Proof.
  intros this config w Hcsrf.
  destruct (mergeHeaders [Some (headers (this_config this)); cfg_headers config])
    as [merged | [name value]] eqn:Hmerge.
  2: { unfold prepareHeaders. rewrite Hmerge. reflexivity. }
  split.
  2: { intros a g token Hskip Hauth Hg Htoken Hne Hbad.
       rewrite (prepareHeaders_steps this config w merged Hcsrf Hmerge).
       rewrite Hskip. unfold getAuthToken. rewrite Hauth.
       destruct a as [g0 r o e]. cbn in Hg. subst g0.
       unfold tryCatch, bind, earlier, emit, await, ret. rewrite Htoken.
       apply String.eqb_neq in Hne. rewrite Hne, Hbad. reflexivity. }
  intros w' result Hrun.
  rewrite (prepareHeaders_steps this config w merged Hcsrf Hmerge) in Hrun.
  assert (Hplain : forall name : string,
             HeadersGet "Content-Type" (withContentType (cfg_data config) merged)
             = (if HeadersHas "Content-Type" merged
                then HeadersGet "Content-Type" merged
                else if truthy (cfg_data config)
                     then getContentType (cfg_data config) else None)
             /\ (toLowerCase name <> "content-type" ->
                 HeadersGet name (withContentType (cfg_data config) merged)
                 = HeadersGet name merged)).
  { intros name. rewrite !withContentType_get. split; [reflexivity |].
    intros Hne. apply String.eqb_neq in Hne. rewrite Hne. reflexivity. }
  assert (Hbearer : forall (token name : string),
             let authorized :=
               storeHeader "authorization" (normalizeValue ("Bearer " +:+ token))
                           merged in
             HeadersGet "Authorization"
                        (withContentType (cfg_data config) authorized)
             = Some (normalizeValue ("Bearer " +:+ token))
             /\ HeadersGet "Content-Type"
                           (withContentType (cfg_data config) authorized)
                = (if HeadersHas "Content-Type" merged
                   then HeadersGet "Content-Type" merged
                   else if truthy (cfg_data config)
                        then getContentType (cfg_data config) else None)
             /\ (toLowerCase name <> "authorization" ->
                 toLowerCase name <> "content-type" ->
                 HeadersGet name (withContentType (cfg_data config) authorized)
                 = HeadersGet name merged)).
  { intros token name authorized. rewrite !withContentType_get.
    change (String.eqb (toLowerCase "Authorization") "content-type") with false.
    change (String.eqb (toLowerCase "Content-Type") "content-type") with true.
    cbv iota. unfold HeadersHas, HeadersGet, authorized.
    rewrite MapHas_storeHeader_ne by discriminate.
    rewrite !MapGet_storeHeader.
    change (toLowerCase "Authorization") with "authorization".
    change (toLowerCase "Content-Type") with "content-type".
    rewrite String.eqb_refl.
    change (String.eqb "authorization" "content-type") with false. cbv iota.
    split; [reflexivity |]. split; [reflexivity |].
    intros Hauth Hct. apply String.eqb_neq in Hct. rewrite Hct.
    replace (String.eqb "authorization" (toLowerCase name)) with false
      by (symmetry; apply String.eqb_neq; congruence).
    reflexivity. }
  destruct (cfg_skipAuth config) eqn:Hskip.
  - injection Hrun as <- <-.
    split; [discriminate |].
    split; [intros _; apply (Hplain "Authorization"); discriminate |].
    split; [apply (Hplain ""%string) |].
    intros name _ _ Hct. apply (Hplain name). exact Hct.
  - unfold getAuthToken in Hrun.
    destruct (authConfig this) as [[[g |] r o e] |] eqn:Hauth.
    + unfold tryCatch, bind, earlier, emit, await, ret in Hrun.
      destruct (g (occurrences isGetToken w)) as [token | err] eqn:Hg.
      * destruct (String.eqb_spec token "") as [-> | Hne].
        -- injection Hrun as <- <-.
           split; [intros a g' token _ [= <-] [= <-] Hg' Hne;
                   cbn in Hg'; congruence |].
           split; [discriminate |].
           split; [apply (Hplain ""%string) |].
           intros name _ _ Hct. apply (Hplain name). exact Hct.
        -- destruct (validHeader ("Authorization", "Bearer " +:+ token));
             [| discriminate].
           injection Hrun as <- <-.
           split; [intros a g' token' _ [= <-] [= <-] Hg' _; cbn in Hg';
                   replace token' with token by congruence;
                   apply (Hbearer token ""%string) |].
           split; [discriminate |].
           split; [apply (Hbearer token ""%string) |].
           intros name _ Ha Hct. apply (Hbearer token name); assumption.
      * injection Hrun as <- <-.
        split; [intros a g' token _ [= <-] [= <-] Hg' _;
                cbn in Hg'; congruence |].
        split; [discriminate |].
        split; [apply (Hplain ""%string) |].
        intros name _ _ Hct. apply (Hplain name). exact Hct.
    + unfold ret in Hrun. injection Hrun as <- <-.
      split; [intros a g' token _ [= <-] Hg'; cbn in Hg'; discriminate |].
      split; [discriminate |].
      split; [apply (Hplain ""%string) |].
      intros name _ _ Hct. apply (Hplain name). exact Hct.
    + unfold ret in Hrun. injection Hrun as <- <-.
      split; [discriminate |]. split; [discriminate |].
      split; [apply (Hplain ""%string) |].
      intros name _ _ Hct. apply (Hplain name). exact Hct.
Qed.

Lemma token_replaces_callers_authorization :
  exists (result : Headers) (w' : Trace),
    prepareHeaders (setAuth (tokenAuth "t0") defaultService)
                   postWithOwnHeaders [] = Some (Return result, w')
    /\ HeadersGet "Authorization" result = Some "Bearer t0"
    /\ HeadersGet "Content-Type" result = Some "text/csv".
Proof.
  eexists. eexists. split; [vm_compute; reflexivity |].
  destruct (prepareHeaders_precedence
              (setAuth (tokenAuth "t0") defaultService)
              postWithOwnHeaders [] eq_refl) as [Hreturned _].
  destruct (Hreturned _ _ eq_refl) as (Hauth & _ & Hct & _).
  split; [| exact Hct].
  apply (Hauth (tokenAuth "t0") (fun _ => Return "t0") "t0");
    (reflexivity || discriminate).
Defined.

(** A token that ends in a line break is stored without it; one with a
    line break inside makes [prepareHeaders] throw. *)
Example token_with_line_breaks :
  outcomeOf (prepareHeaders
               (setAuth (tokenAuth (String "t" (String "010" ""))) defaultService)
               getConfig [])
  = Some (Return [("authorization", "Bearer t")])
  /\ outcomeOf (prepareHeaders
                  (setAuth (tokenAuth (String "t" (String "010" "u")))
                           defaultService)
                  getConfig [])
     = Some (Throw (ExnTypeError "Invalid header")).
Proof. split; vm_compute; reflexivity. Qed.

(** ** http-service.ts: the pending table without deduplication, and at rest *)

Lemma pending_empty_act (fetch : nat -> string -> Headers -> FetchOutcome)
      (this : HttpService) (a : Action) (s s' : System) :
  enableDeduplication (this_config this) = false ->
  pendingRequests (service (world s)) = ∅ ->
  act fetch this a s = Some s' ->
  pendingRequests (service (world s')) = ∅.
Proof.
  intros Hoff Hs Hact. destruct a as [url config | p | p | ms]; unfold act in Hact.
  - destruct (request_begin this url config (world s)) as [[c w'] |] eqn:Hbegin;
      [| discriminate].
    assert (Hw : world s' = w').
    { destruct c as [[? | ? | ? ? ? ?] | ?]; injection Hact as <-; reflexivity. }
    rewrite Hw. pose proof (request_begin_inv _ _ _ _ _ _ Hbegin) as Hinv.
    rewrite Hoff in Hinv.
    destruct c as [[? | ? | ? ? ? ?] | ?].
    + destruct Hinv as [-> _]. exact Hs.
    + destruct Hinv as (_ & _ & Hon & _). discriminate.
    + destruct Hinv as (_ & _ & _ & ->). exact Hs.
    + destruct Hinv as [-> _]. exact Hs.
  - destruct (flights s !! p) as [[fullURL processedConfig cacheKey [outcome |]] |];
      try discriminate.
    unfold settled in Hact.
    destruct (makeRequest fetch this (retryFuel this processedConfig) fullURL
                          processedConfig 0 (trace (world s))) as [[c t] |];
      [| discriminate].
    injection Hact as <-. exact Hs.
  - destruct (flights s !! p) as [[fullURL processedConfig cacheKey [outcome |]] |];
      try discriminate.
    destruct (request_resume_inv this outcome fullURL processedConfig cacheKey
                                 (world s)) as (c & w' & Hres & _ & Hpend).
    rewrite Hres in Hact. injection Hact as <-. cbn [world].
    rewrite Hoff in Hpend. rewrite Hpend. exact Hs.
  - destruct (0 <=? ms); [| discriminate]. injection Hact as <-. exact Hs.
Qed.

Lemma pending_empty_run (fetch : nat -> string -> Headers -> FetchOutcome)
      (this : HttpService) (actions : list Action) :
  enableDeduplication (this_config this) = false ->
  forall s s' : System,
    pendingRequests (service (world s)) = ∅ ->
    run fetch this actions s = Some s' ->
    pendingRequests (service (world s')) = ∅.
Proof.
  intros Hoff. induction actions as [| a rest IH]; intros s s' Hs Hrun; cbn in Hrun.
  - injection Hrun as <-. exact Hs.
  - destruct (act fetch this a s) as [s1 |] eqn:Hact; [| discriminate].
    eapply IH; [| exact Hrun]. eapply pending_empty_act; eauto.
Qed.

Lemma pending_empty_reachable (fetch : nat -> string -> Headers -> FetchOutcome)
      (this : HttpService) (s : System) :
  enableDeduplication (this_config this) = false ->
  reachable fetch this s ->
  pendingRequests (service (world s)) = ∅.
Proof.
  intros Hoff [actions Hrun].
  eapply pending_empty_run; [exact Hoff | | exact Hrun]. reflexivity.
Qed.

(** X18. On a service constructed with [enableDeduplication: false] the
    pending table stays empty whatever happens, and no call is ever handed
    the promise of another: each call is served from the cache or makes its
    own dispatch under a new promise. *)
Theorem deduplication_off_never_shares :
  forall (fetch : nat -> string -> Headers -> FetchOutcome) (this : HttpService)
         (s : System),
    enableDeduplication (this_config this) = false ->
    reachable fetch this s ->
    pendingRequests (service (world s)) = ∅
    /\ forall (url : string) (config : RequestConfig) (b : Begun) (w' : World),
         request_begin this url config (world s) = Some (Return b, w') ->
         (exists cachedResponse, b = CacheHit cachedResponse)
         \/ (exists fullURL processedConfig cacheKey,
                b = Dispatched (promises (service (world s)))
                               fullURL processedConfig cacheKey
                /\ promises (service w') = S (promises (service (world s)))).
Proof.
  intros fetch this s Hoff Hreach.
  split; [apply (pending_empty_reachable fetch this s Hoff Hreach) |].
  intros url config b w' Hbegin.
  pose proof (request_begin_inv _ _ _ _ _ _ Hbegin) as Hinv.
  destruct b as [r | p | p fullURL processedConfig cacheKey].
  - left. eauto.
  - destruct Hinv as (_ & _ & Hon & _). congruence.
  - destruct Hinv as (-> & Hp & _). right. eauto 10.
Qed.

Lemma twoPosts_reachable : reachable (script []) plainService twoPosts.
Proof.
  exists [Call "/users" postUser; Call "/users" postUser]. vm_compute. reflexivity.
Qed.

Lemma two_identical_posts_two_flights :
  pendingRequests (service (world twoPosts)) = ∅
  /\ size (flights twoPosts) = 2%nat.
Proof.
  split; [| vm_compute; reflexivity].
  apply (deduplication_off_never_shares (script []) plainService twoPosts);
    [reflexivity | exact twoPosts_reachable].
Defined.

Lemma reachable_run (fetch : nat -> string -> Headers -> FetchOutcome)
      (this : HttpService) (actions : list Action) :
  forall s s' : System,
    reachable fetch this s -> run fetch this actions s = Some s' ->
    reachable fetch this s'.
Proof.
  induction actions as [| a rest IH]; intros s s' Hs Hrun; cbn in Hrun.
  - injection Hrun as <-. exact Hs.
  - destruct (act fetch this a s) as [s1 |] eqn:Hact; [| discriminate].
    eapply IH; [| exact Hrun]. eapply reachable_act; eauto.
Qed.

Lemma run_app (fetch : nat -> string -> Headers -> FetchOutcome)
      (this : HttpService) (actions1 actions2 : list Action) :
  forall s s1 : System,
    run fetch this actions1 s = Some s1 ->
    run fetch this (actions1 ++ actions2) s = run fetch this actions2 s1.
Proof.
  induction actions1 as [| a rest IH]; intros s s1 Hrun; cbn in *.
  - injection Hrun as <-. reflexivity.
  - destruct (act fetch this a s) as [s' |]; [eauto | discriminate].
Qed.

(** A flight can always be completed: its dispatch settles, for the retry
    loop ends, and its owner runs the rest of [request]. *)
Lemma flight_completes (fetch : nat -> string -> Headers -> FetchOutcome)
      (this : HttpService) (w : World) (m : gmap nat Flight) (p : nat)
      (fl : Flight) :
  m !! p = None ->
  exists (actions : list Action) (w' : World),
    run fetch this actions {| world := w; flights := <[p := fl]> m |}
    = Some {| world := w'; flights := m |}
    /\ forallb completes actions = true.
Proof.
  intros Hp. destruct fl as [fullURL processedConfig cacheKey [outcome |]].
  - destruct (request_resume_inv this outcome fullURL processedConfig cacheKey w)
      as (c & w' & Hres & _).
    exists [Resume p], w'. split; [| reflexivity].
    cbn [run act world flights]. rewrite lookup_insert_eq, Hres.
    rewrite delete_insert_id by exact Hp. reflexivity.
  - destruct (makeRequest_settles fetch this fullURL processedConfig (trace w))
      as (outcome & t & Hsettle).
    set (w1 := {| trace := t; service := service w; now := now w |}).
    destruct (request_resume_inv this outcome fullURL processedConfig cacheKey w1)
      as (c & w' & Hres & _).
    exists [Settle p; Resume p], w'. split; [| reflexivity].
    cbn [run act world flights]. rewrite lookup_insert_eq.
    unfold settled. cbn [trace]. rewrite Hsettle. fold w1.
    cbn [world flights]. rewrite lookup_insert_eq, Hres.
    rewrite insert_insert_eq, delete_insert_id by exact Hp. reflexivity.
Qed.

Lemma flights_drain (fetch : nat -> string -> Headers -> FetchOutcome)
      (this : HttpService) (m : gmap nat Flight) :
  forall w : World,
  exists (actions : list Action) (w' : World),
    run fetch this actions {| world := w; flights := m |}
    = Some {| world := w'; flights := ∅ |}
    /\ forallb completes actions = true.
Proof.
  induction m as [| p fl m Hp IH] using map_ind; intros w.
  - exists [], w. split; reflexivity.
  - destruct (flight_completes fetch this w m p fl Hp) as (a1 & w1 & Hrun1 & Hc1).
    destruct (IH w1) as (a2 & w2 & Hrun2 & Hc2).
    exists (a1 ++ a2), w2. split.
    + rewrite (run_app _ _ _ _ _ _ Hrun1). exact Hrun2.
    + rewrite forallb_app, Hc1, Hc2. reflexivity.
Qed.

Lemma pending_empty_at_rest (fetch : nat -> string -> Headers -> FetchOutcome)
      (this : HttpService) (s : System) :
  reachable fetch this s ->
  flights s = ∅ ->
  pendingRequests (service (world s)) = ∅.
Proof.
  intros Hreach Hrest.
  destruct (enableDeduplication (this_config this)) eqn:Hdedup.
  - destruct (reachable_consistent fetch this Hdedup s Hreach) as (_ & _ & Htab).
    apply map_empty. intros key.
    destruct (pendingRequests (service (world s)) !! key) as [p |] eqn:Hkey;
      [| reflexivity].
    destruct (Htab key p Hkey) as (fl & Hfl & _).
    rewrite Hrest, lookup_empty in Hfl. discriminate.
  - apply (pending_empty_reachable fetch this s Hdedup Hreach).
Qed.

(** X19. The pending table does not leak. In every state the service can
    reach, with deduplication on or off: when no call is in flight the
    table is empty, and the calls in flight can always be completed, by
    steps that only settle dispatches and resume their owners, after which
    nothing is in flight and the table is empty. *)
Theorem pending_table_drains :
  forall (fetch : nat -> string -> Headers -> FetchOutcome) (this : HttpService)
         (s : System),
    reachable fetch this s ->
    (flights s = ∅ -> pendingRequests (service (world s)) = ∅)
    /\ exists (actions : list Action) (s' : System),
         run fetch this actions s = Some s'
         /\ forallb completes actions = true
         /\ flights s' = ∅
         /\ pendingRequests (service (world s')) = ∅.
Proof.
  intros fetch this s Hreach.
  split; [apply (pending_empty_at_rest fetch this s Hreach) |].
  destruct (flights_drain fetch this (flights s) (world s))
    as (actions & w' & Hrun & Hc).
  replace {| world := world s; flights := flights s |} with s in Hrun
    by (destruct s; reflexivity).
  exists actions, {| world := w'; flights := ∅ |}.
  split; [exact Hrun |]. split; [exact Hc |]. split; [reflexivity |].
  apply (pending_empty_at_rest fetch this); [| reflexivity].
  eapply reachable_run; eauto.
Qed.

Lemma settled_system_drains :
  exists (actions : list Action) (s' : System),
    run (script []) stampingService actions settledSystem = Some s'
    /\ forallb completes actions = true
    /\ flights s' = ∅
    /\ pendingRequests (service (world s')) = ∅.
Proof.
  apply (pending_table_drains (script []) stampingService settledSystem).
  exact settledSystem_reachable.
Defined.

(** ** throttling.ts: the queue in use *)

Lemma insertByPriority_length (x : QueuedRequest) (l : list QueuedRequest) :
  length (insertByPriority x l) = S (length l).
Proof.
  induction l as [| y l IH]; simpl; [reflexivity |].
  destruct (qr_priority x <? qr_priority y); simpl; congruence.
Qed.

Lemma sortQueue_length (l : list QueuedRequest) :
  length (sortQueue l) = length l.
Proof.
  unfold sortQueue. induction l as [| x l IH]; simpl; [reflexivity |].
  rewrite insertByPriority_length, IH. reflexivity.
Qed.

Lemma forallb_insertByPriority (test : QueuedRequest -> bool)
      (x : QueuedRequest) (l : list QueuedRequest) :
  forallb test (insertByPriority x l) = test x && forallb test l.
Proof.
  induction l as [| y l IH]; simpl; [reflexivity |].
  destruct (qr_priority x <? qr_priority y); simpl; [| reflexivity].
  rewrite IH. destruct (test x), (test y); reflexivity.
Qed.

Lemma forallb_priority_le (a b : Z) (l : list QueuedRequest) :
  a <= b ->
  forallb (fun y => qr_priority y <=? a) l = true ->
  forallb (fun y => qr_priority y <=? b) l = true.
Proof.
  intros Hab. rewrite !forallb_forall. intros H y Hy.
  specialize (H y Hy). apply Z.leb_le in H. apply Z.leb_le. lia.
Qed.

Lemma insertByPriority_ordered (x : QueuedRequest) (l : list QueuedRequest) :
  priorityOrdered l = true -> priorityOrdered (insertByPriority x l) = true.
Proof.
  induction l as [| y l IH]; simpl; [reflexivity |].
  intros H. apply andb_prop in H as [Hy Hl].
  destruct (qr_priority x <? qr_priority y) eqn:Hxy; simpl.
  - rewrite forallb_insertByPriority, Hy, (IH Hl).
    apply Z.ltb_lt in Hxy.
    replace (qr_priority x <=? qr_priority y) with true
      by (symmetry; apply Z.leb_le; lia).
    reflexivity.
  - apply Z.ltb_ge in Hxy. rewrite Hy, Hl.
    replace (qr_priority y <=? qr_priority x) with true
      by (symmetry; apply Z.leb_le; lia).
    rewrite (forallb_priority_le _ _ _ Hxy Hy). reflexivity.
Qed.

Lemma sortQueue_ordered (l : list QueuedRequest) :
  priorityOrdered (sortQueue l) = true.
Proof.
  unfold sortQueue. induction l as [| x l IH]; simpl; [reflexivity |].
  apply insertByPriority_ordered. exact IH.
Qed.

Lemma insertByPriority_first (x : QueuedRequest) (l : list QueuedRequest) :
  forallb (fun y => qr_priority y <=? qr_priority x) l = true ->
  insertByPriority x l = x :: l.
Proof.
  destruct l as [| y l]; simpl; [reflexivity |].
  intros H. apply andb_prop in H as [Hy _]. apply Z.leb_le in Hy.
  replace (qr_priority x <? qr_priority y) with false
    by (symmetry; apply Z.ltb_ge; lia).
  reflexivity.
Qed.

(** Sorting a queue that was in order before the last [push]: the new
    entry goes behind the entries of its priority or higher. *)
Lemma sortQueue_pushed (x : QueuedRequest) (l : list QueuedRequest) :
  priorityOrdered l = true ->
  sortQueue (l ++ [x])
  = List.filter (fun y => qr_priority x <=? qr_priority y) l
    ++ x :: List.filter (fun y => qr_priority y <? qr_priority x) l.
Proof.
  unfold sortQueue. rewrite foldr_app. cbn [foldr insertByPriority].
  induction l as [| y l IH]; [reflexivity |].
  cbn [priorityOrdered foldr List.filter]. intros H.
  apply andb_prop in H as [Hy Hl]. rewrite (IH Hl).
  destruct (qr_priority x <=? qr_priority y) eqn:Hxy.
  - apply Z.leb_le in Hxy.
    replace (qr_priority y <? qr_priority x) with false
      by (symmetry; apply Z.ltb_ge; lia).
    apply insertByPriority_first.
    apply forallb_forall. intros z Hz. apply in_app_or in Hz.
    destruct Hz as [Hz | [<- | Hz]];
      [apply List.filter_In in Hz as [Hz _];
       apply (proj1 (forallb_forall _ _) Hy z Hz)
      | apply Z.leb_le; exact Hxy
      | apply List.filter_In in Hz as [Hz _];
        apply (proj1 (forallb_forall _ _) Hy z Hz)].
  - apply Z.leb_gt in Hxy.
    replace (qr_priority y <? qr_priority x) with true
      by (symmetry; apply Z.ltb_lt; lia).
    assert (Hall : forall z, In z l -> qr_priority z <= qr_priority y).
    { intros z Hz. apply Z.leb_le.
      apply (proj1 (forallb_forall _ _) Hy z Hz). }
    assert (Hnone : List.filter (fun z => qr_priority x <=? qr_priority z) l = []).
    { clear - Hall Hxy. induction l as [| z l IH]; [reflexivity |].
      cbn [List.filter].
      replace (qr_priority x <=? qr_priority z) with false
        by (symmetry; apply Z.leb_gt; specialize (Hall z (or_introl eq_refl)); lia).
      apply IH. intros z' Hz'. apply Hall. right. exact Hz'. }
    assert (Hevery : List.filter (fun z => qr_priority z <? qr_priority x) l = l).
    { clear - Hall Hxy. induction l as [| z l IH]; [reflexivity |].
      cbn [List.filter].
      replace (qr_priority z <? qr_priority x) with true
        by (symmetry; apply Z.ltb_lt; specialize (Hall z (or_introl eq_refl)); lia).
      f_equal. apply IH. intros z' Hz'. apply Hall. right. exact Hz'. }
    rewrite Hnone, Hevery. cbn [app insertByPriority].
    replace (qr_priority y <? qr_priority x) with true
      by (symmetry; apply Z.ltb_lt; lia).
    rewrite (insertByPriority_first y l Hy). reflexivity.
Qed.

Lemma processQueue_inv (now : Z) (q q' : RequestQueue) (action : QueueAction) :
  processQueue now q = (q', action) ->
  rq_config q' = rq_config q
  /\ rq_promises q' = rq_promises q
  /\ match action with
     | Started request =>
         queue q = request :: queue q'
         /\ activeRequests q' = activeRequests q + 1
         /\ activeRequests q < maxConcurrent (rq_config q)
         /\ lastRequestTime q' = now
         /\ beforeMinInterval (now - lastRequestTime q)
                              (requestsPerSecond (rq_config q)) = false
     | _ => q' = q
     end.
Proof.
  unfold processQueue.
  destruct (maxConcurrent (rq_config q) <=? activeRequests q) eqn:Hactive;
    cbn [orb]; [intros [= <- <-]; auto |].
  destruct (length (queue q) =? 0)%nat; [intros [= <- <-]; auto |].
  destruct (beforeMinInterval _ _) eqn:Hrate; [intros [= <- <-]; auto |].
  destruct (queue q) as [| request rest]; intros [= <- <-]; [auto |].
  cbn. apply Z.leb_gt in Hactive. auto 10.
Qed.

Lemma queueInvariant_processQueue (built : QueueConfig) (now : Z)
      (q q' : RequestQueue) (action : QueueAction)
      (running : list QueuedRequest) (t : Z) :
  queueInvariant built {| tq := q; executing := running; clock := t |} ->
  processQueue now q = (q', action) ->
  queueInvariant built
    {| tq := q'; executing := withStarted action running; clock := t |}.
Proof.
  intros (Hcfg & Hord & Hlen & Hact & Hmax) Hp.
  cbn [tq executing clock] in *.
  destruct (processQueue_inv _ _ _ _ Hp) as (Hcfg' & _ & Haction).
  unfold queueInvariant; cbn [tq executing clock withStarted].
  destruct action as [| n d | request];
    [subst q'; repeat split; assumption
    | subst q'; repeat split; assumption |].
  destruct Haction as (Hq & Hact' & Hlt & _ & _).
  rewrite Hq in Hord, Hlen. cbn [priorityOrdered length] in Hord, Hlen.
  apply andb_prop in Hord as [_ Hord].
  rewrite Hcfg in Hlt. cbn [new_RequestQueue rq_config maxConcurrent] in Hlt.
  cbn [withStarted]. rewrite length_app. cbn [length].
  repeat split; [congruence | exact Hord | lia | lia | lia].
Qed.

Lemma queueInvariant_step (built : QueueConfig) (e : QueueEvent)
      (s s' : Throttle) :
  queueInvariant built s -> queueStep e s = Some s' -> queueInvariant built s'.
Proof.
  intros Hinv Hstep. destruct s as [q running t].
  destruct e as [config | | i | | ms]; cbn [queueStep tq executing clock] in Hstep.
  - unfold enqueue in Hstep.
    destruct (maxQueueSize (rq_config q) <=? Z.of_nat (length (queue q)))
      eqn:Hfull.
    + injection Hstep as <-. exact Hinv.
    + match type of Hstep with
      | context [processQueue ?n ?pushed] =>
          destruct (processQueue n pushed) as [q' action] eqn:Hp
      end.
      injection Hstep as <-.
      eapply queueInvariant_processQueue; [| exact Hp].
      destruct Hinv as (Hcfg & Hord & Hlen & Hact & Hmax). cbn in *.
      unfold queueInvariant; cbn.
      rewrite sortQueue_length, length_app. cbn [length].
      apply Z.leb_gt in Hfull. rewrite Hcfg in Hfull. cbn in Hfull.
      repeat split; [exact Hcfg | apply sortQueue_ordered | lia | exact Hact
                     | exact Hmax].
  - destruct (processQueue t q) as [q' action] eqn:Hp.
    injection Hstep as <-.
    eapply queueInvariant_processQueue; [exact Hinv | exact Hp].
  - destruct (nth_error running i) as [r |] eqn:Hi; [| discriminate].
    injection Hstep as <-.
    destruct Hinv as (Hcfg & Hord & Hlen & Hact & Hmax). cbn in *.
    unfold queueInvariant; cbn.
    assert (Hi' : (i < length running)%nat)
      by (apply nth_error_Some; congruence).
    rewrite length_app, length_take, length_drop.
    repeat split; [exact Hcfg | exact Hord | exact Hlen | lia | lia].
  - injection Hstep as <-.
    destruct Hinv as (Hcfg & Hord & Hlen & Hact & Hmax). cbn in *.
    unfold queueInvariant; cbn.
    repeat split; [exact Hcfg | lia | exact Hact | exact Hmax].
  - destruct (0 <=? ms); [| discriminate]. injection Hstep as <-. exact Hinv.
Qed.

Lemma queueInvariant_run (built : QueueConfig) (events : list QueueEvent) :
  forall s s' : Throttle,
    queueInvariant built s -> queueRun events s = Some s' ->
    queueInvariant built s'.
Proof.
  induction events as [| e rest IH]; intros s s' Hs Hrun; cbn in Hrun.
  - injection Hrun as <-. exact Hs.
  - destruct (queueStep e s) as [s1 |] eqn:Hstep; [| discriminate].
    eapply IH; [| exact Hrun]. eapply queueInvariant_step; eauto.
Qed.

(** X20. A [RequestQueue] keeps its bounds whatever is done with it
    (calls of [enqueue] and [clear], timers, executors settling, in any
    order): the waiting requests are in priority order, there are never
    more of them than the effective [maxQueueSize], [activeRequests] counts
    exactly the requests whose executor has not settled, and never exceeds
    the effective [maxConcurrent]. *)
Theorem request_queue_keeps_its_bounds :
  forall (built : QueueConfig) (t0 : Z) (s : Throttle),
    queueReachable built t0 s ->
    priorityOrdered (queue (tq s)) = true
    /\ Z.of_nat (length (queue (tq s)))
       <= Z.max 0 (orDefault (qc_maxQueueSize built) 100)
    /\ activeRequests (tq s) = Z.of_nat (length (executing s))
    /\ Z.of_nat (length (executing s))
       <= Z.max 0 (orDefault (qc_maxConcurrent built) 6).
Proof.
  intros built t0 s [events Hrun].
  assert (Hinit : queueInvariant built (newThrottle built t0)).
  { unfold queueInvariant, newThrottle. cbn. repeat split; lia. }
  destruct (queueInvariant_run built events _ _ Hinit Hrun)
    as (_ & Hord & Hlen & Hact & Hmax).
  rewrite Hact in Hmax. auto.
Qed.

Lemma busyQueue_reachable : queueReachable rankedQueue 5000 busyQueue.
Proof.
  exists [QEnqueue (ranked 2); QEnqueue (ranked 1); QEnqueue (ranked 5)].
  vm_compute. reflexivity.
Qed.

Lemma busy_queue_within_bounds :
  List.map qr_priority (queue (tq busyQueue)) = [5; 1]
  /\ Z.of_nat (length (executing busyQueue)) <= 1.
Proof.
  split; [vm_compute; reflexivity |].
  apply (request_queue_keeps_its_bounds rankedQueue 5000 busyQueue).
  exact busyQueue_reachable.
Defined.

(** X21. [enqueue] on a queue that has room: the new request waits behind
    every waiting request of its priority or higher and ahead of those of
    lower priority. If a request is started at once it is the first of that
    order, no waiting request has a higher priority, fewer than
    [maxConcurrent] requests were active, and the last start lies at least
    [1000 / requestsPerSecond] milliseconds back. *)
Theorem enqueue_orders_by_priority_then_arrival :
  forall (now : Z) (config : RequestConfig) (q : RequestQueue),
    priorityOrdered (queue q) = true ->
    Z.of_nat (length (queue q)) < maxQueueSize (rq_config q) ->
    let request :=
      {| qr_config := config; qr_promise := rq_promises q;
         qr_priority := priorityFn (rq_config q) config;
         qr_timestamp := now |} in
    let waiting :=
      List.filter (fun y => qr_priority request <=? qr_priority y) (queue q)
      ++ request
         :: List.filter (fun y => qr_priority y <? qr_priority request) (queue q) in
    exists (action : QueueAction) (q' : RequestQueue),
      enqueue now config q = (Return (rq_promises q, action), q')
      /\ match action with
         | Started first =>
             waiting = first :: queue q'
             /\ (forall y, In y (queue q') -> qr_priority y <= qr_priority first)
             /\ activeRequests q < maxConcurrent (rq_config q)
             /\ (0 < requestsPerSecond (rq_config q) ->
                 1000 <= (now - lastRequestTime q)
                         * requestsPerSecond (rq_config q))
         | _ => queue q' = waiting
         end.
Proof.
  intros now0 config q Hord Hroom request waiting.
  unfold enqueue. apply Z.leb_gt in Hroom. rewrite Hroom.
  fold request.
  match goal with
  | |- context [processQueue ?n ?pushed] =>
      destruct (processQueue n pushed) as [q' action] eqn:Hp
  end.
  exists action, q'. split; [reflexivity |].
  destruct (processQueue_inv _ _ _ _ Hp) as (_ & _ & Haction).
  cbn [queue activeRequests rq_config lastRequestTime] in Haction.
  rewrite (sortQueue_pushed request (queue q) Hord) in Haction.
  fold waiting in Haction.
  destruct action as [| n d | first].
  - subst q'. reflexivity.
  - subst q'. reflexivity.
  - destruct Haction as (Hq & _ & Hlt & _ & Hrate).
    split; [exact Hq |]. split; [| split; [exact Hlt |]].
    + assert (Hsorted : priorityOrdered waiting = true).
      { unfold waiting. rewrite <- (sortQueue_pushed request (queue q) Hord).
        apply sortQueue_ordered. }
      rewrite Hq in Hsorted. cbn in Hsorted.
      apply andb_prop in Hsorted as [Hall _].
      intros y Hy. apply Z.leb_le.
      apply (proj1 (forallb_forall _ _) Hall y Hy).
    + intros Hrps. unfold beforeMinInterval in Hrate.
      replace (0 <? requestsPerSecond (rq_config q)) with true in Hrate
        by (symmetry; apply Z.ltb_lt; exact Hrps).
      apply Z.ltb_ge in Hrate. exact Hrate.
Qed.

Lemma equal_priority_waits_behind :
  exists (action : QueueAction) (q' : RequestQueue),
    enqueue 5000 (ranked 1) (tq busyQueue)
    = (Return (3%nat, action), q')
    /\ List.map qr_promise (queue q') = [2%nat; 1%nat; 3%nat].
Proof.
  destruct (enqueue_orders_by_priority_then_arrival
              5000 (ranked 1) (tq busyQueue))
    as (action & q' & Henq & Haction);
    [reflexivity | vm_compute; reflexivity |].
  exists action, q'. split; [exact Henq |].
  vm_compute in Henq. injection Henq as <- <-. reflexivity.
Defined.

(** ** csrf.ts *)

Lemma charFor_token (byte : ascii) :
  String.length (Csrf.charFor byte) = 1%nat
  /\ stringForall Csrf.tokenChar (Csrf.charFor byte) = true.
Proof. destruct byte as [[] [] [] [] [] [] [] []]; split; reflexivity. Qed.

Lemma length_append (s1 s2 : string) :
  String.length (s1 +:+ s2) = (String.length s1 + String.length s2)%nat.
Proof. induction s1 as [| c s1 IH]; simpl; [reflexivity | rewrite IH; reflexivity]. Qed.

Lemma generateCsrfToken_loop (array : list ascii) :
  forall result : string,
    let token :=
      fold_left (fun (result : string) (byte : ascii) =>
                   result +:+ Csrf.charFor byte) array result in
    String.length token = (String.length result + length array)%nat
    /\ (stringForall Csrf.tokenChar result = true ->
        stringForall Csrf.tokenChar token = true).
Proof.
  induction array as [| byte array IH]; intros result; cbn [fold_left length].
  - split; [lia | auto].
  - destruct (IH (result +:+ Csrf.charFor byte)) as [Hlen Hall].
    destruct (charFor_token byte) as [Hone Htok].
    split.
    + rewrite Hlen, length_append, Hone. lia.
    + intros Hres. apply Hall. rewrite stringForall_append, Hres, Htok.
      reflexivity.
Qed.

(** X22. A token made by [generateCsrfToken] has the length asked for
    and, unless that is 0, passes the default validator of [CsrfManager];
    each of the 64 characters is drawn for exactly 4 of the 256 values of a
    byte, so equally likely bytes give equally likely characters. *)
Theorem generated_token_passes_default_validation :
  forall array : list ascii,
    String.length (Csrf.generateCsrfToken array) = length array
    /\ Csrf.validateDefaultToken (Csrf.generateCsrfToken array)
       = negb (length array =? 0)%nat
    /\ forall c : ascii,
         In c (list_ascii_of_string Csrf.chars) ->
         length (List.filter
                   (fun byte => String.eqb (Csrf.charFor byte) (String c ""))
                   Csrf.allBytes) = 4%nat.
Proof.
  intros array. unfold Csrf.generateCsrfToken.
  destruct (generateCsrfToken_loop array "") as [Hlen Hall].
  cbn [String.length Nat.add] in Hlen.
  split; [exact Hlen |]. split.
  - unfold Csrf.validateDefaultToken. rewrite Hlen, (Hall eq_refl), andb_true_r.
    destruct array; reflexivity.
  - intros c Hin. cbn in Hin.
    repeat (destruct Hin as [<- | Hin]; [vm_compute; reflexivity |]).
    destruct Hin.
Qed.

Lemma token_of_four_bytes_is_valid :
  Csrf.generateCsrfToken ["000"; "065"; "200"; "255"]%char = "ABI_"
  /\ Csrf.validateDefaultToken
       (Csrf.generateCsrfToken ["000"; "065"; "200"; "255"]%char) = true
  /\ length (List.filter
               (fun byte => String.eqb (Csrf.charFor byte) "_") Csrf.allBytes)
     = 4%nat.
Proof.
  split; [reflexivity |].
  destruct (generated_token_passes_default_validation
              ["000"; "065"; "200"; "255"]%char) as (_ & Hvalid & Heven).
  split; [exact Hvalid |].
  apply (Heven "_"%char). vm_compute. auto 70.
Defined.



(** ** plugins.ts: the circuit breaker *)

Lemma breaker_handle_threshold (this : CircuitBreaker.t)
      (signal : CircuitBreaker.Signal) :
  CircuitBreaker.threshold (CircuitBreaker.handle this signal)
  = CircuitBreaker.threshold this.
Proof.
  destruct signal as [now0 | | now0]; cbn.
  - unfold CircuitBreaker.requestInterceptor.
    destruct (CircuitBreaker.state this); try reflexivity.
    destruct (_ <? _); reflexivity.
  - unfold CircuitBreaker.responseInterceptor.
    destruct (CircuitBreaker.state this); reflexivity.
  - reflexivity.
Qed.

Lemma breaker_handle_invariant (this : CircuitBreaker.t)
      (signal : CircuitBreaker.Signal) :
  1 <= CircuitBreaker.threshold this ->
  (0 <= CircuitBreaker.failureCount this
   /\ (CircuitBreaker.state this = CircuitBreaker.CLOSED
       <-> CircuitBreaker.failureCount this < CircuitBreaker.threshold this)) ->
  let this' := CircuitBreaker.handle this signal in
  0 <= CircuitBreaker.failureCount this'
  /\ (CircuitBreaker.state this' = CircuitBreaker.CLOSED
      <-> CircuitBreaker.failureCount this' < CircuitBreaker.threshold this').
Proof.
  intros Hth [Hpos Hiff]. destruct this as [count last st th tmo].
  cbn [CircuitBreaker.failureCount CircuitBreaker.state CircuitBreaker.threshold]
    in *.
  destruct signal as [now0 | | now0]; cbn.
  - unfold CircuitBreaker.requestInterceptor. cbn.
    destruct st; cbn; try (split; [exact Hpos | exact Hiff]).
    destruct (now0 - last <? tmo); cbn; split; try exact Hpos; try exact Hiff.
    split; [discriminate |]. intros Hlt. apply Hiff in Hlt. discriminate.
  - unfold CircuitBreaker.responseInterceptor. cbn.
    destruct st; cbn; try (split; [exact Hpos | exact Hiff]).
    split; [lia |]. split; [intros _; lia | reflexivity].
  - unfold CircuitBreaker.errorInterceptor, CircuitBreaker.recordFailure. cbn.
    split; [lia |].
    destruct (th <=? count + 1) eqn:Hopen.
    + apply Z.leb_le in Hopen. split; [discriminate | lia].
    + apply Z.leb_gt in Hopen. split; [intros _; exact Hopen |].
      intros _. apply Hiff. lia.
Qed.

(** X24. The circuit breaker's state follows its failure count: for a
    threshold of at least 1, after any sequence of requests, responses and
    failures the circuit is closed exactly when fewer failures than the
    threshold are counted; so a request is refused only when the threshold
    has been reached, and only within [timeout] of the last failure. *)
Theorem breaker_is_closed_iff_below_threshold :
  forall (threshold timeout : option Z) (signals : list CircuitBreaker.Signal)
         (now : Z),
    1 <= default 5 threshold ->
    let this := CircuitBreaker.run signals (CircuitBreaker.new threshold timeout) in
    0 <= CircuitBreaker.failureCount this
    /\ CircuitBreaker.threshold this = default 5 threshold
    /\ (CircuitBreaker.state this = CircuitBreaker.CLOSED
        <-> CircuitBreaker.failureCount this < default 5 threshold)
    /\ (fst (CircuitBreaker.requestInterceptor now this)
        = Throw "Circuit breaker is OPEN" ->
        default 5 threshold <= CircuitBreaker.failureCount this
        /\ now - CircuitBreaker.lastFailureTime this < CircuitBreaker.timeout this).
Proof.
  intros threshold timeout signals now0 Hth this.
  assert (Hinv : CircuitBreaker.threshold this = default 5 threshold
                 /\ 0 <= CircuitBreaker.failureCount this
                 /\ (CircuitBreaker.state this = CircuitBreaker.CLOSED
                     <-> CircuitBreaker.failureCount this
                         < CircuitBreaker.threshold this)).
  { subst this. unfold CircuitBreaker.run.
    induction signals as [| signal signals IH] using rev_ind.
    - cbn. split; [reflexivity |]. split; [lia |]. split; [intros _; lia | reflexivity].
    - rewrite fold_left_app. cbn [fold_left].
      destruct IH as (Hthr & Hpos & Hiff).
      split; [rewrite breaker_handle_threshold; exact Hthr |].
      apply breaker_handle_invariant; [rewrite Hthr; exact Hth | auto]. }
  destruct Hinv as (Hthr & Hpos & Hiff). rewrite Hthr in Hiff.
  split; [exact Hpos |]. split; [exact Hthr |]. split; [exact Hiff |].
  unfold CircuitBreaker.requestInterceptor.
  destruct (CircuitBreaker.state this) eqn:Hstate; cbn; try discriminate.
  destruct (now0 - CircuitBreaker.lastFailureTime this
            <? CircuitBreaker.timeout this) eqn:Hin; cbn; [| discriminate].
  intros _. apply Z.ltb_lt in Hin. split; [| exact Hin].
  destruct (Z.lt_ge_cases (CircuitBreaker.failureCount this) (default 5 threshold))
    as [Hlt | Hge]; [| exact Hge].
  apply Hiff in Hlt. discriminate.
Qed.

Lemma breaker_refuses_after_five_failures :
  let this :=
    CircuitBreaker.run
      [CircuitBreaker.Failure 1; CircuitBreaker.Failure 2;
       CircuitBreaker.Failure 3; CircuitBreaker.Failure 4;
       CircuitBreaker.Failure 5]
      (CircuitBreaker.new None None) in
  fst (CircuitBreaker.requestInterceptor 6 this) = Throw "Circuit breaker is OPEN"
  /\ 5 <= CircuitBreaker.failureCount this.
Proof.
  split; [reflexivity |].
  apply (breaker_is_closed_iff_below_threshold
           None None
           [CircuitBreaker.Failure 1; CircuitBreaker.Failure 2;
            CircuitBreaker.Failure 3; CircuitBreaker.Failure 4;
            CircuitBreaker.Failure 5] 6);
    [cbn; lia | reflexivity].
Defined.

Lemma breaker_counts_failures (signals : list CircuitBreaker.Signal) :
  forall this : CircuitBreaker.t,
    CircuitBreaker.state this = CircuitBreaker.CLOSED ->
    CircuitBreaker.failureCount this
    + Z.of_nat (length (List.filter CircuitBreaker.isFailure signals))
    < CircuitBreaker.threshold this ->
    CircuitBreaker.state (CircuitBreaker.run signals this) = CircuitBreaker.CLOSED
    /\ CircuitBreaker.failureCount (CircuitBreaker.run signals this)
       = CircuitBreaker.failureCount this
         + Z.of_nat (length (List.filter CircuitBreaker.isFailure signals))
    /\ CircuitBreaker.threshold (CircuitBreaker.run signals this)
       = CircuitBreaker.threshold this
    /\ CircuitBreaker.timeout (CircuitBreaker.run signals this)
       = CircuitBreaker.timeout this.
Proof.
  unfold CircuitBreaker.run.
  induction signals as [| signal signals IH]; intros this Hclosed Hlt.
  - cbn. repeat split; [exact Hclosed | lia].
  - cbn [fold_left].
    destruct signal as [now0 | | now0];
      cbn [List.filter CircuitBreaker.isFailure length] in *.
    + cbn [CircuitBreaker.handle]. unfold CircuitBreaker.requestInterceptor.
      rewrite Hclosed. cbn [snd]. apply IH; assumption.
    + cbn [CircuitBreaker.handle]. unfold CircuitBreaker.responseInterceptor.
      rewrite Hclosed. apply IH; assumption.
    + cbn [CircuitBreaker.handle].
      unfold CircuitBreaker.errorInterceptor.
      set (next := CircuitBreaker.recordFailure now0 this).
      assert (Hnext : CircuitBreaker.state next = CircuitBreaker.CLOSED
                      /\ CircuitBreaker.failureCount next
                         = CircuitBreaker.failureCount this + 1
                      /\ CircuitBreaker.threshold next = CircuitBreaker.threshold this
                      /\ CircuitBreaker.timeout next = CircuitBreaker.timeout this).
      { subst next. unfold CircuitBreaker.recordFailure. cbn.
        replace (CircuitBreaker.threshold this
                 <=? CircuitBreaker.failureCount this + 1) with false
          by (symmetry; apply Z.leb_gt; lia).
        auto. }
      destruct Hnext as (Hs & Hc & Ht & Hto).
      destruct (IH next Hs) as (Hs' & Hc' & Ht' & Hto');
        [rewrite Hc, Ht; lia |].
      rewrite Hs', Hc', Ht', Hto', Hc, Ht, Hto.
      repeat split; lia.
Qed.

(** X25. The breaker counts failures in total, not in a row: while the
    circuit is closed a response does not reset the count. Starting from a
    new breaker, as long as fewer failures than the threshold have been
    signalled the circuit is closed, the count is their number and no
    request is refused; the failure that brings their number to the
    threshold opens the circuit, however many responses came in between,
    and a request made less than [timeout] later is refused. *)
Theorem breaker_counts_failures_in_total :
  forall (threshold timeout : option Z) (signals : list CircuitBreaker.Signal)
         (now later : Z),
    let failures :=
      Z.of_nat (length (List.filter CircuitBreaker.isFailure signals)) in
    let this := CircuitBreaker.run signals (CircuitBreaker.new threshold timeout) in
    failures < default 5 threshold ->
    (CircuitBreaker.state this = CircuitBreaker.CLOSED
     /\ CircuitBreaker.failureCount this = failures
     /\ fst (CircuitBreaker.requestInterceptor now this) = Return tt)
    /\ (failures + 1 = default 5 threshold ->
        later - now < default 60000 timeout ->
        let opened := CircuitBreaker.errorInterceptor now this in
        CircuitBreaker.state opened = CircuitBreaker.OPEN
        /\ fst (CircuitBreaker.requestInterceptor later opened)
           = Throw "Circuit breaker is OPEN").
Proof.
  intros threshold timeout signals now0 later failures this Hlt.
  destruct (breaker_counts_failures signals (CircuitBreaker.new threshold timeout)
                                    eq_refl)
    as (Hstate & Hcount & Hthr & Htmo);
    [cbn [CircuitBreaker.new CircuitBreaker.failureCount CircuitBreaker.threshold];
     fold failures; lia |].
  cbn [CircuitBreaker.new CircuitBreaker.failureCount CircuitBreaker.threshold
       CircuitBreaker.timeout] in Hcount, Hthr, Htmo.
  fold failures in Hcount. fold this in Hstate, Hcount, Hthr, Htmo.
  split.
  - split; [exact Hstate |]. split; [lia |].
    unfold CircuitBreaker.requestInterceptor. rewrite Hstate. reflexivity.
  - intros Hlast Hsoon opened. subst opened.
    unfold CircuitBreaker.errorInterceptor, CircuitBreaker.recordFailure.
    rewrite Hthr, Hcount.
    replace (default 5 threshold <=? 0 + failures + 1) with true
      by (symmetry; apply Z.leb_le; lia).
    cbn [CircuitBreaker.state]. split; [reflexivity |].
    unfold CircuitBreaker.requestInterceptor.
    cbn [CircuitBreaker.failureCount CircuitBreaker.threshold CircuitBreaker.state
         CircuitBreaker.timeout CircuitBreaker.lastFailureTime].
    rewrite Htmo.
    replace (later - now0 <? default 60000 timeout) with true
      by (symmetry; apply Z.ltb_lt; lia).
    reflexivity.
Qed.

Lemma responses_do_not_reset_the_count :
  let this :=
    CircuitBreaker.run
      [CircuitBreaker.Failure 1; CircuitBreaker.Response;
       CircuitBreaker.Failure 2; CircuitBreaker.Response;
       CircuitBreaker.Request 3]
      (CircuitBreaker.new (Some 3) None) in
  CircuitBreaker.failureCount this = 2
  /\ CircuitBreaker.state (CircuitBreaker.errorInterceptor 4 this)
     = CircuitBreaker.OPEN.
Proof.
  destruct (breaker_counts_failures_in_total
              (Some 3) None
              [CircuitBreaker.Failure 1; CircuitBreaker.Response;
               CircuitBreaker.Failure 2; CircuitBreaker.Response;
               CircuitBreaker.Request 3] 4 5)
    as [(_ & Hcount & _) Hopen]; [cbn; lia |].
  split; [exact Hcount |].
  apply Hopen; cbn; lia.
Defined.
